(** * Trace replay benchmark: a shallow embedding of [load_braintrust.py],
    [load_langsmith.py] and [prepare_data.py]

    The two loader scripts read a line-delimited file of trace records, index
    the records into roots and a parent-to-children mapping, and replay every
    root tree into a tracing backend, flushing at a configured cadence.  The
    preparation script downloads that file and unpacks it.

    Conventions of the embedding.
    - A parsed record is a Python dict; its keys are the fields of [row], and
      a key that is missing from the dict is [None] (resp. [SpAbsent]), so
      that [row["k"]] on a missing key raises [KeyError k] as in Python.
      Present keys hold values of the types the input format gives them.
    - [json.loads] belongs to the Python library: it is a parameter
      [json_loads].  For input in the record format it returns a record or
      [None], where Python raises [JSONDecodeError]; this is the input of
      [read_rows], [load_rows] and [main].  Section "Record Store: the
      library calls in full" embeds the parse loop, its handlers and the
      lookup loop for any input: there [json_loads] may also return a value
      that is no record or raise another exception, and reading may raise
      any exception.  A record whose keys hold values of other types than
      the format gives them is outside both.
    - The backend SDK, the file system, the logger and [argparse] are
      observed through the sequence of [event]s the script performs on them.
      The calls of the SDK are taken to return: where a theorem says that
      a replay returns, it says so of the script's own lookups and
      recursion, for a backend that accepts every call.  What a script does
      when a call of the SDK raises is not modelled.
      Sink events carry the identifier of the record they are emitted for,
      and a span handle is named by that identifier: [Open p n name] opens
      the unit of work of record [n] under the handle of record [p] (no
      [p] for a top-level unit).  For LangSmith, [Open] and [Attach] are
      the two halves of [RunTree(...)] / [create_child(...)], and [Close]
      is [end()] followed by [post()].
    - [rows] is a list of row objects; [tree] maps an id to the position of a
      row object in that list, which is how the source shares each dict
      between [rows] and [tree].
    - The recursion of [log_child_span] / [log_child_run] follows the
      children mapping and is not structural: it takes a [fuel] bound, and
      [OutOfFuel] is the only outcome that stands for "did not return".
      Python's interpreter recursion limit is not modelled.
    - Wall-clock readings ([time.time()]) are left out of the log events.
    - For [prepare_data.py] the file system is a map from paths to contents,
      and the answers of the outside world (server, permissions, gzip
      decoder) are the fields of a [world] record; see [PrepareData]. *)

From Stdlib Require Import ZArith Lia.
From stdpp Require Import base gmap strings list relations.

(** ** Data model *)

(** Opaque structured payloads ([input], [output], metadata values). *)
#[local] Unset Elimination Schemes.
Inductive value : Type :=
  | VNull
  | VBool (b : bool)
  | VNum (n : Z)
  | VStr (s : string)
  | VList (xs : list value)
  | VDict (kvs : list (string * value)).
#[local] Set Elimination Schemes.

(** The ["span_parents"] key: missing, JSON [null], or a list of span ids. *)
Inductive parents_field : Type :=
  | SpAbsent
  | SpNull
  | SpList (ps : list string).

(** The dict under ["span_attributes"]; only its ["name"] key is read. *)
Record span_attrs : Type := mkAttrs { attr_name : option string }.

Record row : Type := mkRow {
  row_id : option string;                 (* row["id"] *)
  span_id : option string;                (* row["span_id"] *)
  span_parents : parents_field;           (* row["span_parents"] *)
  span_attributes : option span_attrs;    (* row["span_attributes"] *)
  input : option value;                   (* row["input"] *)
  output : option value;                  (* row["output"] *)
  metadata : option (gmap string value)   (* row["metadata"] *)
}.

Definition set_span_parents (p : parents_field) (r : row) : row :=
  mkRow (row_id r) (span_id r) p (span_attributes r) (input r) (output r)
        (metadata r).

Definition set_metadata (m : gmap string value) (r : row) : row :=
  mkRow (row_id r) (span_id r) (span_parents r) (span_attributes r) (input r)
        (output r) (Some m).

(** ** Constants of the scripts *)

Definition TRACE_FILE : string := "data/big_traces.jsonl".
Definition PROJECT_NAME : string := "Big traces".
Definition ROOT_SPAN_NAME : string := "Chat Pipeline".
Definition ROOT_RUN_NAME : string := "Chat Pipeline".
Definition DEFAULT_MODEL : string := "gpt-4o".
Definition RUN_TYPE : string := "chain".

(** ** Exceptions, events and the effect monad *)

Inductive exn : Type :=
  | KeyError (key : string)
  | FileNotFoundError
  | OSError
  | LoginError
  | SystemExit (code : Z)
  (* raised on input that is not in the record format *)
  | TypeError
  | ValueError
  | UnicodeDecodeError.

Inductive info : Type :=
  | InfoRoots (n : nat)                  (* "Logging {len(roots)} root traces" *)
  | InfoIteration (i : nat) (total : Z)  (* "Iteration {i}/{n} completed" *)
  | InfoTotal.                           (* "Total time: ..." *)

Inductive event : Type :=
  (* process and file system *)
  | LoadDotenv
  | PathExists (path : string)
  | ParserError (msg : string)
  | SetEnviron
  | Login
  | OpenFile (path : string)
  | InitLogger (project : string)
  | ClientInit
  (* logger *)
  | LogError (msg : string)
  | LogWarning (line_no : nat)
  | LogInfo (m : info)
  (* sink *)
  | Open (parent : option string) (node : string) (name : string)
  | Attach (node : string) (inp out : value) (md : option (gmap string value))
  | Close (node : string)
  | Flush.

Inductive outcome (A : Type) : Type :=
  | Ret (a : A)
  | Raise (e : exn)
  | OutOfFuel.
Arguments Ret {A} a.
Arguments Raise {A} e.
Arguments OutOfFuel {A}.

(** A computation yields an outcome and the events it performed, in order. *)
Definition W (A : Type) : Type := outcome A * list event.

Definition raise {A} (e : exn) : W A := (Raise e, []).
Definition diverge {A} : W A := (OutOfFuel, []).
Definition emit (ev : event) : W unit := (Ret tt, [ev]).

Definition bind {A B} (k : A → W B) (m : W A) : W B :=
  match m with
  | (Ret a, t) => let '(o, t') := k a in (o, t ++ t')
  | (Raise e, t) => (Raise e, t)
  | (OutOfFuel, t) => (OutOfFuel, t)
  end.

#[export] Instance W_ret : MRet W := λ A a, (Ret a, []).
#[export] Instance W_bind : MBind W := @bind.

Arguments bind : simpl never.
Arguments W_bind : simpl never.
Arguments emit : simpl never.

(** [row["k"]] on a dict in which key [k] may be missing. *)
Definition getitem {A} (k : string) (o : option A) : W A :=
  match o with
  | Some a => mret a
  | None => raise (KeyError k)
  end.

(** [for x in xs: body x] *)
Definition for_each {A} (body : A → W unit) : list A → W unit :=
  fix go (xs : list A) : W unit :=
    match xs with
    | [] => mret tt
    | x :: rest => body x;; go rest
    end.

(** [try: body  except E: <log>; raise]: the handler logs and re-raises. *)
Definition on_error {A} (handler : exn → list event) (body : W A) : W A :=
  match body with
  | (Raise e, t) => (Raise e, t ++ handler e)
  | r => r
  end.

(** ** Command line *)

Record args : Type := mkArgs {
  flatten : bool;
  iterations : Z;
  limit : option Z;
  batch_size : option Z
}.

(** The "Validate arguments" block, identical in both scripts.
    [parser.error] prints the message and exits with status 2. *)
Definition parser_error (msg : string) : W unit :=
  emit (ParserError msg);; raise (SystemExit 2).

Definition validate_args (a : args) : W unit :=
  (if (iterations a <? 1)%Z then parser_error "iterations must be at least 1"
   else mret tt);;
  (match limit a with
   | Some l => if (l <? 1)%Z then parser_error "limit must be at least 1"
               else mret tt
   | None => mret tt
   end);;
  (match batch_size a with
   | Some b => if (b <? 1)%Z then parser_error "batch-size must be at least 1"
               else mret tt
   | None => mret tt
   end).

(** ** Record Store *)

(** The opened file as a line iterator, for input of the promised kind:
    each fetch returns a line, ends the file, or fails with a read error,
    which is an [OSError].  The general case is [line_iter] below. *)
Inductive stream : Type :=
  | Eof
  | Line (l : string) (rest : stream)
  | ReadError.

Inductive open_result : Type :=
  | OpenFileNotFound
  | OpenOSError
  | Opened (f : stream).

Fixpoint stream_of (lines : list string) : stream :=
  match lines with
  | [] => Eof
  | l :: rest => Line l (stream_of rest)
  end.

(** [args.limit and i >= args.limit] *)
Definition limit_reached (limit : option Z) (i : nat) : bool :=
  match limit with
  | Some l => negb (l =? 0)%Z && (l <=? Z.of_nat i)%Z
  | None => false
  end.

(** [for i, line in enumerate(f): ...] with [rows] as accumulator. *)
Fixpoint read_rows (json_loads : string → option row) (limit : option Z)
    (i : nat) (f : stream) (rows : list row) : W (list row) :=
  match f with
  | Eof => mret rows
  | ReadError => raise OSError
  | Line line rest =>
      if limit_reached limit i then mret rows
      else match json_loads line with
           | Some r => read_rows json_loads limit (S i) rest (rows ++ [r])
           | None =>
               emit (LogWarning (i + 1));;
               read_rows json_loads limit (S i) rest rows
           end
  end.

Definition open_and_read (json_loads : string → option row)
    (limit : option Z) (file : open_result) : W (list row) :=
  emit (OpenFile TRACE_FILE);;
  match file with
  | OpenFileNotFound => raise FileNotFoundError
  | OpenOSError => raise OSError
  | Opened f => read_rows json_loads limit 0 f []
  end.

(** ** Lookup tree *)

(** [for row in rows: tree[row["id"]] = row]; the value stored is the row
    object itself, here its position in [rows]. *)
Fixpoint build_tree_from (i : nat) (rows : list row) (tree : gmap string nat)
    : W (gmap string nat) :=
  match rows with
  | [] => mret tree
  | r :: rest =>
      k ← getitem "id" (row_id r);
      build_tree_from (S i) rest (<[k := i]> tree)
  end.

Definition build_tree (rows : list row) : W (gmap string nat) :=
  build_tree_from 0 rows ∅.

(** [tree[node_id]] *)
Definition tree_get (tree : gmap string nat) (store : list row)
    (node_id : string) : W (nat * row) :=
  match tree !! node_id with
  | None => raise (KeyError node_id)
  | Some i =>
      match store !! i with
      | Some r => mret (i, r)
      | None => raise (KeyError node_id)   (* no such position: never built *)
      end
  end.

(** ** Tree Indexer *)

(** [row["span_parents"] and len(row["span_parents"]) > 0]: the list of
    declared parents when the test is true, [None] when it is false. *)
Definition declared_parents (r : row) : W (option (list string)) :=
  match span_parents r with
  | SpAbsent => raise (KeyError "span_parents")
  | SpNull => mret None
  | SpList [] => mret None
  | SpList ps => mret (Some ps)
  end.

(** [if parent not in children: children[parent] = []]
    [children[parent].append(rid)] *)
Definition register_child (parent rid : string)
    (children : gmap string (list string)) : gmap string (list string) :=
  let children1 :=
    match children !! parent with
    | None => <[parent := []]> children
    | Some _ => children
    end in
  alter (λ l, l ++ [rid]) parent children1.

(** [for parent in row["span_parents"]: ...] *)
Fixpoint register_parents (r : row) (ps : list string)
    (children : gmap string (list string)) : W (gmap string (list string)) :=
  match ps with
  | [] => mret children
  | parent :: rest =>
      rid ← getitem "id" (row_id r);
      register_parents r rest (register_child parent rid children)
  end.

(** [children.get(span_id, [])] *)
Definition children_get (children : gmap string (list string))
    (sid : string) : list string :=
  default [] (children !! sid).

Record index : Type := mkIndex {
  ix_rows : list row;                       (* the row objects after indexing *)
  ix_children : gmap string (list string);
  ix_roots : list string
}.

(** ** Flush Governor *)

(** [args.batch_size and (idx + 1) % args.batch_size == 0] *)
Definition flush_due (batch : option Z) (idx : nat) : bool :=
  match batch with
  | Some b => negb (b =? 0)%Z && ((Z.of_nat idx + 1) mod b =? 0)%Z
  | None => false
  end.

(** ** Process environment *)

Record env : Type := mkEnv {
  trace_file_exists : bool;     (* os.path.exists(TRACE_FILE) *)
  argv : args;                  (* the parsed command line *)
  login_ok : bool;              (* whether braintrust.login() succeeds *)
  trace_file : open_result      (* what open(TRACE_FILE) gives *)
}.

(** "Check if trace data file exists", identical in both scripts. *)
Definition check_trace_file (e : env) : W unit :=
  emit (PathExists TRACE_FILE);;
  if trace_file_exists e then mret tt
  else
    emit (LogError "Trace file not found at data/big_traces.jsonl");;
    emit (LogError
      "Please run 'python prepare_data.py' first to download the data");;
    raise (SystemExit 1).

(** ** The Braintrust script *)

Module Braintrust.

(** The body of [for row in rows] in "Build parent-child relationships". *)
Definition index_row (flatten : bool) (r : row) (ix : index) : W index :=
  cond ← (if flatten then mret None else declared_parents r);
  match cond with
  | Some ps =>
      children' ← register_parents r ps (ix_children ix);
      mret (mkIndex (ix_rows ix ++ [r]) children' (ix_roots ix))
  | None =>
      (* del row["span_parents"] *)
      (match span_parents r with
       | SpAbsent => raise (KeyError "span_parents")
       | _ => mret tt
       end);;
      let r' := set_span_parents SpAbsent r in
      rid ← getitem "id" (row_id r');
      mret (mkIndex (ix_rows ix ++ [r']) (ix_children ix) (ix_roots ix ++ [rid]))
  end.

Fixpoint index_from (flatten : bool) (rows : list row) (ix : index)
    : W index :=
  match rows with
  | [] => mret ix
  | r :: rest => ix' ← index_row flatten r ix; index_from flatten rest ix'
  end.

Definition index_rows (flatten : bool) (rows : list row) : W index :=
  index_from flatten rows (mkIndex [] ∅ []).

(** [with parent.start_span(name) as span: body]: the span is closed when
    the block is left, also by an exception. *)
Definition with_span {A} (parent : option string) (node name : string)
    (body : W A) : W A :=
  match body with
  | (OutOfFuel, t) => (OutOfFuel, Open parent node name :: t)
  | (o, t) => (o, Open parent node name :: t ++ [Close node])
  end.

Fixpoint log_child_span (fuel : nat) (parent node_id : string)
    (children : gmap string (list string)) (tree : gmap string nat)
    (store : list row) : W unit :=
  match fuel with
  | 0 => diverge
  | S fuel' =>
      '(_, child_row) ← tree_get tree store node_id;
      attrs ← getitem "span_attributes" (span_attributes child_row);
      name ← getitem "name" (attr_name attrs);
      with_span (Some parent) node_id name (
        inp ← getitem "input" (input child_row);
        out ← getitem "output" (output child_row);
        emit (Attach node_id inp out None);;
        sid ← getitem "span_id" (span_id child_row);
        for_each
          (λ child_id, log_child_span fuel' node_id child_id children tree store)
          (children_get children sid))
  end.

(** The body of [for idx, root in enumerate(roots)] up to the flush test;
    returns the row objects, the root's metadata now carrying the tag. *)
Definition replay_root (fuel : nat) (children : gmap string (list string))
    (tree : gmap string nat) (store : list row) (root : string)
    : W (list row) :=
  '(i, r) ← tree_get tree store root;
  with_span None root ROOT_SPAN_NAME (
    (* row["metadata"]["model"] = DEFAULT_MODEL *)
    md ← getitem "metadata" (metadata r);
    let md' := <["model" := VStr DEFAULT_MODEL]> md in
    let r' := set_metadata md' r in
    let store' := <[i := r']> store in
    inp ← getitem "input" (input r');
    out ← getitem "output" (output r');
    emit (Attach root inp out (Some md'));;
    sid ← getitem "span_id" (span_id r');
    for_each
      (λ child_id, log_child_span fuel root child_id children tree store')
      (children_get children sid);;
    mret store').

(** [for idx, root in enumerate(roots)], from position [idx] on. *)
Fixpoint replay_roots (fuel : nat) (batch : option Z)
    (children : gmap string (list string)) (tree : gmap string nat)
    (idx : nat) (roots : list string) (store : list row) : W (list row) :=
  match roots with
  | [] => mret store
  | root :: rest =>
      store' ← replay_root fuel children tree store root;
      (if flush_due batch idx then emit Flush else mret tt);;
      replay_roots fuel batch children tree (S idx) rest store'
  end.

(** [for i in range(args.iterations)], [n] iterations left, [i] done. *)
Fixpoint replay_iterations (fuel : nat) (a : args)
    (children : gmap string (list string)) (tree : gmap string nat)
    (roots : list string) (n i : nat) (store : list row) : W (list row) :=
  match n with
  | 0 => mret store
  | S n' =>
      store' ← replay_roots fuel (batch_size a) children tree 0 roots store;
      emit (LogInfo (InfoIteration (i + 1) (iterations a)));;
      replay_iterations fuel a children tree roots n' (S i) store'
  end.

(** From "Log traces to Braintrust" to the end of the script. *)
Definition replay (fuel : nat) (a : args) (tree : gmap string nat)
    (ix : index) : W (list row) :=
  emit (LogInfo (InfoRoots (length (ix_roots ix))));;
  emit (InitLogger PROJECT_NAME);;
  store ← replay_iterations fuel a (ix_children ix) tree (ix_roots ix)
            (Z.to_nat (iterations a)) 0 (ix_rows ix);
  (* Ensure all logs are sent before exiting *)
  emit Flush;;
  emit (LogInfo InfoTotal);;
  mret store.

Definition read_handler (e : exn) : list event :=
  match e with
  | FileNotFoundError =>
      [LogError "Trace file not found at data/big_traces.jsonl"]
  | OSError => [LogError "Failed to read trace file"]
  | _ => []
  end.

Definition load_rows (json_loads : string → option row) (e : env)
    : W (list row) :=
  on_error read_handler
    (open_and_read json_loads (limit (argv e)) (trace_file e)).

Definition login (e : env) : W unit :=
  emit Login;;
  if login_ok e then mret tt
  else
    emit (LogError "Failed to authenticate with Braintrust");;
    emit (LogError "Ensure BRAINTRUST_API_KEY is set in your environment");;
    raise LoginError.

(** The [__main__] block. *)
Definition main (json_loads : string → option row) (fuel : nat) (e : env)
    : W unit :=
  emit LoadDotenv;;
  check_trace_file e;;
  validate_args (argv e);;
  login e;;
  rows ← load_rows json_loads e;
  tree ← build_tree rows;
  ix ← index_rows (flatten (argv e)) rows;
  replay fuel (argv e) tree ix;;
  mret tt.

End Braintrust.

(** ** The LangSmith script *)

Module LangSmith.

(** The body of [for row in rows] in "Build parent-child relationships". *)
Definition index_row (flatten : bool) (r : row) (ix : index) : W index :=
  cond ← (if flatten then mret None else declared_parents r);
  match cond with
  | Some ps =>
      children' ← register_parents r ps (ix_children ix);
      mret (mkIndex (ix_rows ix ++ [r]) children' (ix_roots ix))
  | None =>
      (* if "span_parents" in row: del row["span_parents"] *)
      let r' :=
        match span_parents r with
        | SpAbsent => r
        | _ => set_span_parents SpAbsent r
        end in
      rid ← getitem "id" (row_id r');
      mret (mkIndex (ix_rows ix ++ [r']) (ix_children ix) (ix_roots ix ++ [rid]))
  end.

Fixpoint index_from (flatten : bool) (rows : list row) (ix : index)
    : W index :=
  match rows with
  | [] => mret ix
  | r :: rest => ix' ← index_row flatten r ix; index_from flatten rest ix'
  end.

Definition index_rows (flatten : bool) (rows : list row) : W index :=
  index_from flatten rows (mkIndex [] ∅ []).

(** [parent.create_child(name, run_type=..., inputs=..., outputs=...)]
    opens the run and attaches its payload; [child.end(); child.post()]
    closes it, and is not reached when the loop in between raises. *)
Fixpoint log_child_run (fuel : nat) (parent node_id : string)
    (children : gmap string (list string)) (tree : gmap string nat)
    (store : list row) : W unit :=
  match fuel with
  | 0 => diverge
  | S fuel' =>
      '(_, child_row) ← tree_get tree store node_id;
      attrs ← getitem "span_attributes" (span_attributes child_row);
      name ← getitem "name" (attr_name attrs);
      inp ← getitem "input" (input child_row);
      out ← getitem "output" (output child_row);
      emit (Open (Some parent) node_id name);;
      emit (Attach node_id inp out None);;
      sid ← getitem "span_id" (span_id child_row);
      for_each
        (λ child_id, log_child_run fuel' node_id child_id children tree store)
        (children_get children sid);;
      emit (Close node_id)
  end.

(** The body of [for idx, root in enumerate(roots)] up to the flush test. *)
Definition replay_root (fuel : nat) (children : gmap string (list string))
    (tree : gmap string nat) (store : list row) (root : string) : W unit :=
  '(_, r) ← tree_get tree store root;
  inp ← getitem "input" (input r);
  out ← getitem "output" (output r);
  md ← getitem "metadata" (metadata r);
  emit (Open None root ROOT_RUN_NAME);;
  emit (Attach root inp out (Some md));;
  sid ← getitem "span_id" (span_id r);
  for_each (λ child_id, log_child_run fuel root child_id children tree store)
           (children_get children sid);;
  emit (Close root).

(** [for idx, root in enumerate(roots)], from position [idx] on. *)
Fixpoint replay_roots (fuel : nat) (batch : option Z)
    (children : gmap string (list string)) (tree : gmap string nat)
    (store : list row) (idx : nat) (roots : list string) : W unit :=
  match roots with
  | [] => mret tt
  | root :: rest =>
      replay_root fuel children tree store root;;
      (if flush_due batch idx then emit Flush else mret tt);;
      replay_roots fuel batch children tree store (S idx) rest
  end.

(** [for iteration in range(args.iterations)] *)
Fixpoint replay_iterations (fuel : nat) (a : args)
    (children : gmap string (list string)) (tree : gmap string nat)
    (store : list row) (roots : list string) (n i : nat) : W unit :=
  match n with
  | 0 => mret tt
  | S n' =>
      replay_roots fuel (batch_size a) children tree store 0 roots;;
      (* Flush once at the end of iteration *)
      emit Flush;;
      emit (LogInfo (InfoIteration (i + 1) (iterations a)));;
      replay_iterations fuel a children tree store roots n' (S i)
  end.

(** From "Log traces to LangSmith" to the end of the script. *)
Definition replay (fuel : nat) (a : args) (tree : gmap string nat)
    (ix : index) : W unit :=
  emit (LogInfo (InfoRoots (length (ix_roots ix))));;
  emit ClientInit;;
  replay_iterations fuel a (ix_children ix) tree (ix_rows ix) (ix_roots ix)
    (Z.to_nat (iterations a)) 0;;
  emit (LogInfo InfoTotal).

Definition read_handler (e : exn) : list event :=
  match e with
  | FileNotFoundError | OSError => [LogError "Failed to read trace file"]
  | _ => []
  end.

Definition load_rows (json_loads : string → option row) (e : env)
    : W (list row) :=
  on_error read_handler
    (open_and_read json_loads (limit (argv e)) (trace_file e)).

(** The [__main__] block. *)
Definition main (json_loads : string → option row) (fuel : nat) (e : env)
    : W unit :=
  emit LoadDotenv;;
  check_trace_file e;;
  validate_args (argv e);;
  emit SetEnviron;;
  rows ← load_rows json_loads e;
  tree ← build_tree rows;
  ix ← index_rows (flatten (argv e)) rows;
  replay fuel (argv e) tree ix.

End LangSmith.

(** ** Record Store: the library calls in full *)

(** [read_rows] and [load_rows] take the input as the record format
    promises it: every line holds a record or is rejected by the parser,
    and a read that fails raises [OSError].  The definitions of this
    section embed the same lines of the two scripts with all that the
    library calls can do there.  [json.loads] returns a record, returns
    some other JSON value, raises [JSONDecodeError], or raises something
    else ([ValueError] on an integer of more than 4300 digits).  The file
    object is seen through the outcomes of the successive [next] calls of
    the [for] loop: a call returns a line, ends the iteration, or raises
    ([OSError], or [UnicodeDecodeError] when the bytes it has just read do
    not decode, whichever line those bytes belong to).  [open] returns the
    file object or raises.  Lemma [read_rows_is_read_entries] shows that
    [read_rows] is [read_entries] on input of the promised kind; lemmas
    [build_tree_entries_Ret] and [read_entries_records] show that a run
    which gets past the lookup tree holds records only and is a run of
    [read_rows] and [build_tree]. *)

(** A JSON value that is not an object. *)
Inductive non_object : Type :=
  | NoNull
  | NoBool (b : bool)
  | NoNum (n : Z)
  | NoStr (s : string)
  | NoList (xs : list value).

(** What [rows] holds: whatever [json.loads] returned. *)
Inductive entry : Type :=
  | IsRecord (r : row)
  | NotRecord (v : non_object).

(** What [json.loads(line)] does. *)
Inductive loads_result : Type :=
  | Loaded (x : entry)
  | JSONDecodeError
  | LoadsRaises (e : exn).

(** The outcomes of the successive [next] calls on the opened file. *)
Inductive line_iter : Type :=
  | StopIteration
  | NextLine (l : string) (rest : line_iter)
  | NextRaises (e : exn).

(** What [open(TRACE_FILE, "r")] does. *)
Inductive open_outcome : Type :=
  | OpenRaises (e : exn)
  | OpenReturns (f : line_iter).

(** [for i, line in enumerate(f): ...] with [rows] as accumulator; only
    [json.JSONDecodeError] is caught inside the loop. *)
Fixpoint read_entries (json_loads : string → loads_result)
    (limit : option Z) (i : nat) (f : line_iter) (rows : list entry)
    : W (list entry) :=
  match f with
  | StopIteration => mret rows
  | NextRaises e => raise e
  | NextLine line rest =>
      if limit_reached limit i then mret rows
      else match json_loads line with
           | Loaded x => read_entries json_loads limit (S i) rest (rows ++ [x])
           | JSONDecodeError =>
               emit (LogWarning (i + 1));;
               read_entries json_loads limit (S i) rest rows
           | LoadsRaises e => raise e
           end
  end.

Definition open_and_read_entries (json_loads : string → loads_result)
    (limit : option Z) (file : open_outcome) : W (list entry) :=
  emit (OpenFile TRACE_FILE);;
  match file with
  | OpenRaises e => raise e
  | OpenReturns f => read_entries json_loads limit 0 f []
  end.

(** The [try] statement around the loop, with the handlers of each script:
    [except FileNotFoundError] and [except OSError] in [load_braintrust.py],
    [except OSError] alone in [load_langsmith.py]. *)
Definition braintrust_load_entries (json_loads : string → loads_result)
    (limit : option Z) (file : open_outcome) : W (list entry) :=
  on_error Braintrust.read_handler
    (open_and_read_entries json_loads limit file).

Definition langsmith_load_entries (json_loads : string → loads_result)
    (limit : option Z) (file : open_outcome) : W (list entry) :=
  on_error LangSmith.read_handler
    (open_and_read_entries json_loads limit file).

(** [for row in rows: tree[row["id"]] = row] on whatever [rows] holds:
    subscripting a number, a string, a list, a boolean or [None] with
    ["id"] raises [TypeError]. *)
Fixpoint build_tree_entries_from (i : nat) (rows : list entry)
    (tree : gmap string nat) : W (gmap string nat) :=
  match rows with
  | [] => mret tree
  | IsRecord r :: rest =>
      k ← getitem "id" (row_id r);
      build_tree_entries_from (S i) rest (<[k := i]> tree)
  | NotRecord _ :: _ => raise TypeError
  end.

Definition build_tree_entries (rows : list entry) : W (gmap string nat) :=
  build_tree_entries_from 0 rows ∅.

(** ** The data preparation script *)

(** [prepare_data.py].  The script touches the file system and the network;
    the file system is a map from paths to contents, and what the outside
    world answers (the server, the permissions, the gzip decoder) is a
    record the results are stated for all values of. *)
Module PrepareData.

Definition DOWNLOAD_URL : string :=
  "https://brainstore-benchmark-data.s3.us-east-2.amazonaws.com/big_traces.jsonl.gz".
Definition DATA_DIR : string := "data".
Definition TRACE_FILE : string := "data/big_traces.jsonl".
Definition COMPRESSED_FILE : string := "data/big_traces.jsonl.gz".
Definition CHUNK_SIZE : Z := 8192.

(** The two handlers of the script tell [URLError] from any other
    [Exception]. *)
Inductive failure : Type :=
  | URLError
  | OtherError.

Inductive message : Type :=
  | AlreadyExists                 (* "Trace file already exists at ..." *)
  | FileSize (bytes : nat)        (* "File size: ... MB" *)
  | Downloading                   (* "Downloading trace data from ..." *)
  | Url                           (* "URL: ..." *)
  | DownloadingSize (total : Z)   (* "Downloading ... MB..." *)
  | Progress (downloaded : Z)     (* "Downloaded ... MB..." *)
  | DownloadComplete (bytes : nat)
  | ExtractionComplete (bytes : nat)
  | CleanedCompressed             (* "Cleaned up compressed file" *)
  | Ready                         (* "Trace data ready at ..." *)
  | DownloadFailed                (* "Failed to download trace file: ..." *)
  | CheckConnection               (* "Please check your internet connection" *)
  | ExtractFailed                 (* "Failed to extract trace file: ..." *)
  | CleanedPartial (path : string)
  | Starting                      (* "Starting trace data preparation..." *)
  | Complete.                     (* "Data preparation complete!" *)

Inductive action : Type :=
  | Info (m : message)
  | Error (m : message)
  | UrlOpen (url : string) (timeout : Z).

(** What successive [read] calls on a stream give: the end, a chunk and the
    rest, or an exception.  A failure to write the chunk just read leaves
    the same files behind as a failure of the next read, and is the same
    [Fails] here. *)
Inductive chunks : Type :=
  | End
  | Chunk (c : list Byte.byte) (rest : chunks)
  | Fails (e : failure).

(** [response.headers.get("Content-Length", 0)] before [int] is applied. *)
Inductive header : Type :=
  | Missing
  | Digits (n : Z)
  | Malformed.

Inductive url_result : Type :=
  | OpenFails (e : failure)
  | Response (content_length : header) (body : chunks).

Record world : Type := mkWorld {
  makedirs_ok : bool;                     (* os.makedirs(DATA_DIR) succeeds *)
  fetch : url_result;                     (* what urlopen(DOWNLOAD_URL) gives *)
  open_ok : string → bool;                (* open(path, "wb") succeeds *)
  gunzip : list Byte.byte → chunks;       (* reads through gzip.open *)
  remove_ok : string → bool               (* os.remove(path) succeeds *)
}.

Abbreviation files := (gmap string (list Byte.byte)).

Inductive result (A : Type) : Type :=
  | Ok (a : A)
  | Fail (e : failure)
  | Exit (code : Z).
Arguments Ok {A} a.
Arguments Fail {A} e.
Arguments Exit {A} code.

(** A step of the script: from the files to an outcome, the files
    afterwards and what was logged or requested. *)
Definition M (A : Type) : Type := files → result A * files * list action.

Definition ret {A} (a : A) : M A := λ fs, (Ok a, fs, []).
Definition fail {A} (e : failure) : M A := λ fs, (Fail e, fs, []).
Definition exit {A} (code : Z) : M A := λ fs, (Exit code, fs, []).
Definition act (a : action) : M unit := λ fs, (Ok tt, fs, [a]).

Definition bind {A B} (k : A → M B) (m : M A) : M B :=
  λ fs,
    match m fs with
    | (Ok a, fs', t) => let '(r, fs'', t') := k a fs' in (r, fs'', t ++ t')
    | (Fail e, fs', t) => (Fail e, fs', t)
    | (Exit c, fs', t) => (Exit c, fs', t)
    end.

#[global] Instance M_ret : MRet M := @ret.
#[global] Instance M_bind : MBind M := @bind.

(** [os.path.exists(path)] *)
Definition path_exists (path : string) : M bool :=
  λ fs, (Ok (bool_decide (is_Some (fs !! path))), fs, []).

(** [os.path.getsize(path)] *)
Definition getsize (path : string) : M nat :=
  λ fs,
    match fs !! path with
    | Some c => (Ok (length c), fs, [])
    | None => (Fail OtherError, fs, [])
    end.

Definition read_file (path : string) : M (list Byte.byte) :=
  λ fs,
    match fs !! path with
    | Some c => (Ok c, fs, [])
    | None => (Fail OtherError, fs, [])
    end.

(** [open(path, "wb")]: the file is created, or emptied. *)
Definition open_wb (w : world) (path : string) : M unit :=
  λ fs,
    if open_ok w path then (Ok tt, <[path := []]> fs, [])
    else (Fail OtherError, fs, []).

(** [f.write(chunk)] on a file opened by [open_wb]. *)
Definition write (path : string) (c : list Byte.byte) : M unit :=
  λ fs, (Ok tt, alter (λ old, old ++ c) path fs, []).

(** [os.remove(path)] *)
Definition remove (w : world) (path : string) : M unit :=
  λ fs,
    match fs !! path with
    | Some _ =>
        if remove_ok w path then (Ok tt, delete path fs, [])
        else (Fail OtherError, fs, [])
    | None => (Fail OtherError, fs, [])
    end.

Definition makedirs (w : world) : M unit :=
  if makedirs_ok w then mret tt else fail OtherError.

(** [while True: chunk = response.read(CHUNK_SIZE); ...] *)
Fixpoint download_loop (body : chunks) (downloaded : Z) : M unit :=
  match body with
  | End => mret tt
  | Fails e => fail e
  | Chunk [] _ => mret tt                     (* if not chunk: break *)
  | Chunk c rest =>
      write COMPRESSED_FILE c;;
      let downloaded' := (downloaded + Z.of_nat (length c))%Z in
      (* Log progress every 100MB *)
      (if (downloaded' mod (100 * 1024 * 1024) <? CHUNK_SIZE)%Z
       then act (Info (Progress downloaded'))
       else mret tt);;
      download_loop rest downloaded'
  end.

(** [while True: chunk = f_in.read(CHUNK_SIZE * 1024); ...] *)
Fixpoint extract_loop (data : chunks) : M unit :=
  match data with
  | End => mret tt
  | Fails e => fail e
  | Chunk [] _ => mret tt
  | Chunk c rest => write TRACE_FILE c;; extract_loop rest
  end.

(** [int(response.headers.get("Content-Length", 0))] *)
Definition content_length (h : header) : M Z :=
  match h with
  | Missing => mret 0%Z
  | Digits n => mret n
  | Malformed => fail OtherError
  end.

(** The body of the [try] block. *)
Definition download_and_extract (w : world) : M unit :=
  makedirs w;;
  act (Info Downloading);;
  act (Info Url);;
  act (UrlOpen DOWNLOAD_URL 30);;
  (match fetch w with
   | OpenFails e => fail e
   | Response h body =>
       total_size ← content_length h;
       act (Info (DownloadingSize total_size));;
       open_wb w COMPRESSED_FILE;;
       download_loop body 0
   end);;
  compressed_size ← getsize COMPRESSED_FILE;
  act (Info (DownloadComplete compressed_size));;
  compressed ← read_file COMPRESSED_FILE;
  open_wb w TRACE_FILE;;
  extract_loop (gunzip w compressed);;
  extracted_size ← getsize TRACE_FILE;
  act (Info (ExtractionComplete extracted_size));;
  remove w COMPRESSED_FILE;;
  act (Info CleanedCompressed);;
  act (Info Ready).

(** [if os.path.exists(partial_file): try: os.remove(...) ... except
    OSError: pass] *)
Definition remove_partial (w : world) (path : string) : M unit :=
  λ fs,
    match fs !! path with
    | Some _ =>
        if remove_ok w path
        then (Ok tt, delete path fs, [Info (CleanedPartial path)])
        else (Ok tt, fs, [])
    | None => (Ok tt, fs, [])
    end.

(** "Clean up partial files on failure", the same in both handlers. *)
Definition cleanup (w : world) : M unit :=
  remove_partial w COMPRESSED_FILE;; remove_partial w TRACE_FILE.

Definition handler (w : world) (e : failure) : M unit :=
  match e with
  | URLError =>
      act (Error DownloadFailed);;
      act (Error CheckConnection);;
      cleanup w;;
      exit 1
  | OtherError =>
      act (Error ExtractFailed);;
      cleanup w;;
      exit 1
  end.

(** [try: body  except URLError: ...  except Exception: ...] *)
Definition try_except {A} (body : M A) (h : failure → M A) : M A :=
  λ fs,
    match body fs with
    | (Fail e, fs', t) => let '(r, fs'', t') := h e fs' in (r, fs'', t ++ t')
    | r => r
    end.

Definition download_and_extract_traces (w : world) : M unit :=
  present ← path_exists TRACE_FILE;
  if (present : bool) then
    (act (Info AlreadyExists);;
     size ← getsize TRACE_FILE;
     act (Info (FileSize size)))
  else
    try_except (download_and_extract w) (handler w).

(** The [__main__] block. *)
Definition main (w : world) : M unit :=
  act (Info Starting);;
  download_and_extract_traces w;;
  act (Info Complete).

End PrepareData.

(** * Specification-side vocabulary *)

(** The lines the parse loop hands to [json.loads] under a limit that the
    validation block accepts (at least 1). *)
Definition within_limit (limit : option Z) (lines : list string)
    : list string :=
  match limit with
  | Some l => take (Z.to_nat l) lines
  | None => lines
  end.


(** A stream on which some read fails. *)
Fixpoint read_fails (f : stream) : bool :=
  match f with
  | Eof => false
  | Line _ rest => read_fails rest
  | ReadError => true
  end.

Definition open_or_read_fails (file : open_result) : bool :=
  match file with
  | OpenFileNotFound | OpenOSError => true
  | Opened f => read_fails f
  end.

(** A command line that the validation block must reject. *)
Definition non_positive (a : args) : Prop :=
  (iterations a < 1)%Z ∨
  (∃ l, limit a = Some l ∧ (l < 1)%Z) ∨
  (∃ b, batch_size a = Some b ∧ (b < 1)%Z).

(** A command line that the validation block lets through. *)
Definition accepted (a : args) : Prop :=
  (1 ≤ iterations a)%Z ∧
  (∀ l, limit a = Some l → (1 ≤ l)%Z) ∧
  (∀ b, batch_size a = Some b → (1 ≤ b)%Z).

(** A record that declares one or more parents. *)
Definition declares_parents (r : row) : bool :=
  match span_parents r with
  | SpList (_ :: _) => true
  | _ => false
  end.

(** The record carries a ["span_parents"] key. *)
Definition has_parents_key (r : row) : Prop := span_parents r ≠ SpAbsent.

(** What record [r] contributes to [children[p]]: its id, once for each
    time [p] occurs among its declared parents. *)
Definition links_to (p : string) (r : row) : list string :=
  match row_id r, span_parents r with
  | Some k, SpList ps => (λ _, k) <$> filter (λ q, q = p) ps
  | _, _ => []
  end.

(** The ids registered in [children] under the span id of the record that
    [tree] holds for node [n]: the nodes the emission recurses into from [n]. *)
Definition kids_of (children : gmap string (list string))
    (tree : gmap string nat) (store : list row) (n : string) : list string :=
  match tree !! n with
  | Some i =>
      match store !! i with
      | Some r =>
          match span_id r with
          | Some sid => children_get children sid
          | None => []
          end
      | None => []
      end
  | None => []
  end.

(** Depth-first emission of the subtree at node [n]: the node is opened and
    its payload attached, then each child subtree is emitted in full, in
    child order, then the node is closed. *)
#[local] Unset Elimination Schemes.
Inductive dfs (kids : string → list string)
    : option string → string → list event → Prop :=
  | dfs_node (p : option string) (n name : string) (inp out : value)
        (md : option (gmap string value)) (ts : list (list event)) :
      Forall2 (dfs kids (Some n)) (kids n) ts →
      dfs kids p n
        (Open p n name :: Attach n inp out md :: concat ts ++ [Close n]).
#[local] Set Elimination Schemes.

(** Well-bracketed traces: every [Open n] is matched by a later [Close n],
    and the spans opened in between are closed in between. *)
Inductive nested : list event → Prop :=
  | nested_nil : nested []
  | nested_attach (n : string) (inp out : value)
        (md : option (gmap string value)) (rest : list event) :
      nested rest → nested (Attach n inp out md :: rest)
  | nested_span (p : option string) (n name : string)
        (body rest : list event) :
      nested body → nested rest →
      nested (Open p n name :: body ++ Close n :: rest).

(** The open and close events of a trace. *)
Definition is_boundary (ev : event) : bool :=
  match ev with
  | Open _ _ _ | Close _ => true
  | _ => false
  end.

Definition boundaries (t : list event) : list event :=
  filter (λ ev, is_boundary ev = true) t.

(** The parent-to-child edges the emission follows, and their acyclicity. *)
Definition edge (children : gmap string (list string))
    (tree : gmap string nat) (store : list row) (u v : string) : Prop :=
  v ∈ kids_of children tree store u.

Definition acyclic (children : gmap string (list string))
    (tree : gmap string nat) (store : list row) : Prop :=
  ∀ u, ¬ tc (edge children tree store) u u.

(** Flush requests in a trace. *)
Definition is_flush (ev : event) : bool :=
  match ev with
  | Flush => true
  | _ => false
  end.





(** [tree] holds, under each id, the position of a row object of [store]
    that carries this id. *)
Definition tree_ok (tree : gmap string nat) (store : list row) : Prop :=
  ∀ k j, tree !! k = Some j → ∃ r, store !! j = Some r ∧ row_id r = Some k.

(** A record whose id is not among the roots. *)
Definition off_roots (roots : list string) (r : row) : Prop :=
  ∀ k, row_id r = Some k → k ∉ roots.

(** An attach event that carries metadata carries the model tag in it. *)
Definition attach_tagged (ev : event) : Prop :=
  match ev with
  | Attach _ _ _ (Some md) => md !! "model" = Some (VStr DEFAULT_MODEL)
  | _ => True
  end.

(** A record that carries every key the emission of a child reads. *)
Definition emittable (r : row) : Prop :=
  is_Some (span_id r)
  ∧ (∃ attrs, span_attributes r = Some attrs ∧ is_Some (attr_name attrs))
  ∧ is_Some (input r) ∧ is_Some (output r).

(** Row objects and indexes on which no step of the replay raises: [tree]
    addresses emittable records, every registered child id and every root
    id is in [tree], and the root records carry metadata. *)
Definition replayable (children : gmap string (list string))
    (tree : gmap string nat) (store : list row) (roots : list string)
    : Prop :=
  (∀ k j, tree !! k = Some j → ∃ r, store !! j = Some r ∧ emittable r)
  ∧ (∀ sid c, c ∈ children_get children sid → is_Some (tree !! c))
  ∧ (∀ root, root ∈ roots →
       ∃ j r, tree !! root = Some j ∧ store !! j = Some r
              ∧ is_Some (metadata r)).

(** A computation that returns normally. *)
Definition succeeds {A} (m : W A) : Prop := ∃ a t, m = (Ret a, t).

(** [m2] agrees with [m1] whenever [m1] did not run out of fuel. *)
Definition extends {A} (m1 m2 : W A) : Prop :=
  fst m1 ≠ OutOfFuel → m2 = m1.

(** Whether the indexing loop makes record [r] a root under the policy. *)
Definition becomes_root (flatten : bool) (r : row) : bool :=
  flatten || negb (declares_parents r).

(** The row object that indexing leaves behind for record [r]: a root has
    lost its ["span_parents"] key, a child is as it was. *)
Definition indexed_row (flatten : bool) (r : row) : row :=
  if becomes_root flatten r then set_span_parents SpAbsent r else r.

(** The parents a record declares (none for a missing or null key). *)
Definition parents_list (r : row) : list string :=
  match span_parents r with
  | SpList ps => ps
  | _ => []
  end.

(** No key of the children mapping holds an empty list. *)
Definition no_empty_list (children : gmap string (list string)) : Prop :=
  ∀ p l, children !! p = Some l → l ≠ [].

(** The events that check, open or read a file, or contact the backend. *)
Definition is_io (ev : event) : bool :=
  match ev with
  | LoadDotenv | PathExists _ | OpenFile _ | Login | InitLogger _
  | ClientInit | Open _ _ _ | Attach _ _ _ _ | Close _ | Flush => true
  | ParserError _ | SetEnviron | LogError _ | LogWarning _ | LogInfo _ => false
  end.

(** "The run rejects the configuration before performing any I/O". *)
Definition rejected_before_io (r : W unit) : Prop :=
  ∃ msg t,
    r = (Raise (SystemExit 2), t ++ [ParserError msg])
    ∧ Forall (λ ev, is_io ev = false) t.

(** What a run logs and how it ends when the trace file is missing. *)
Definition missing_file_exit : W unit :=
  (Raise (SystemExit 1),
   [LoadDotenv; PathExists TRACE_FILE;
    LogError "Trace file not found at data/big_traces.jsonl";
    LogError "Please run 'python prepare_data.py' first to download the data"]).

(** The row objects after the Braintrust root step: the root's metadata
    carries the model tag, nothing else has changed. *)
Definition tag_model (i : nat) (r : row) (md : gmap string value)
    (store : list row) : list row :=
  <[i := set_metadata (<["model" := VStr DEFAULT_MODEL]> md) r]> store.

(** What a step of either indexing loop has done when it returns. *)
Definition index_step (flatten : bool) (r : row) (ix ix' : index) : Prop :=
  ∃ k,
    row_id r = Some k
    ∧ ix_rows ix' = ix_rows ix ++ [indexed_row flatten r]
    ∧ ix_roots ix'
      = ix_roots ix ++ (if becomes_root flatten r then [k] else [])
    ∧ ix_children ix'
      = (if becomes_root flatten r then ix_children ix
         else foldl (λ c p, register_child p k c) (ix_children ix)
                    (parents_list r)).

(** The events of one kind in a trace, counted. *)
Definition count_events (f : event → bool) (t : list event) : nat :=
  length (filter (λ ev, f ev = true) t).

Definition is_open (ev : event) : bool :=
  match ev with
  | Open _ _ _ => true
  | _ => false
  end.

Definition is_close (ev : event) : bool :=
  match ev with
  | Close _ => true
  | _ => false
  end.

(** A span or run opened on the logger or client itself, under no parent. *)
Definition is_top_open (ev : event) : bool :=
  match ev with
  | Open None _ _ => true
  | _ => false
  end.

(** What the emission of a child and its subtree may send: spans opened
    under a parent, payloads without metadata, and closes. *)
Definition is_child_event (ev : event) : bool :=
  match ev with
  | Open (Some _) _ _ | Attach _ _ _ None | Close _ => true
  | _ => false
  end.

(** What is sent to the tracing backend. *)
Definition is_sink (ev : event) : bool :=
  match ev with
  | Open _ _ _ | Attach _ _ _ _ | Close _ | Flush => true
  | _ => false
  end.

(** A computation that, unless it runs forever, leaves a well-bracketed
    trace: whatever it opened it has closed, also when it raises. *)
Definition closes_what_it_opens {A} (m : W A) : Prop :=
  fst m ≠ OutOfFuel → nested (snd m).

(** A computation that never closes more than it opened, and has closed
    everything when it returns normally. *)
Definition never_overcloses {A} (m : W A) : Prop :=
  count_events is_close (snd m) ≤ count_events is_open (snd m)
  ∧ ∀ a, fst m = Ret a →
         count_events is_close (snd m) = count_events is_open (snd m).

(** An open event that follows the links of [kids] down from one of
    [roots]: a top-level span is for a root, a span under parent [u] is for
    one of the [kids] of [u], and [u] is reachable from a root. *)
Definition opened_under (kids : string → list string) (roots : list string)
    (ev : event) : Prop :=
  match ev with
  | Open None n _ => n ∈ roots
  | Open (Some u) n _ =>
      n ∈ kids u ∧ ∃ root, root ∈ roots ∧ rtc (λ a b, b ∈ kids a) root u
  | _ => True
  end.

(** A computation that, when it raises after sending anything, leaves a
    span or run open: it has closed fewer than it opened. *)
Definition leaves_open_on_raise {A} (m : W A) : Prop :=
  ∀ e, fst m = Raise e →
       snd m = []
       ∨ count_events is_close (snd m) < count_events is_open (snd m).

(** *** The library calls in full *)

(** A line that [json.loads] accepts, one that it rejects as malformed JSON,
    and one on which it raises another exception. *)
Definition parses (json_loads : string → loads_result) (l : string) : bool :=
  match json_loads l with Loaded _ => true | _ => false end.

Definition malformed (json_loads : string → loads_result) (l : string)
    : bool :=
  match json_loads l with JSONDecodeError => true | _ => false end.

Definition loads_raises (json_loads : string → loads_result) (l : string)
    : bool :=
  match json_loads l with LoadsRaises _ => true | _ => false end.

(** What a line adds to [rows]. *)
Definition loaded_entry (json_loads : string → loads_result) (l : string)
    : option entry :=
  match json_loads l with Loaded x => Some x | _ => None end.

(** The warnings logged for the malformed lines of [lines], the first line
    of [lines] being line [i + 1] of the file. *)
Fixpoint warnings_in (json_loads : string → loads_result) (i : nat)
    (lines : list string) : list event :=
  match lines with
  | [] => []
  | l :: rest =>
      if malformed json_loads l
      then LogWarning (i + 1) :: warnings_in json_loads (S i) rest
      else warnings_in json_loads (S i) rest
  end.

(** A file object whose first calls return [lines] and whose later calls
    behave as [tail]; a file that is read to its end without a failure. *)
Fixpoint iter_app (lines : list string) (tail : line_iter) : line_iter :=
  match lines with
  | [] => tail
  | l :: rest => NextLine l (iter_app rest tail)
  end.

Definition iter_of (lines : list string) : line_iter :=
  iter_app lines StopIteration.

(** The lines a file object returns before it ends or raises, and the
    exception it raises, if any. *)
Fixpoint fetched (f : line_iter) : list string :=
  match f with
  | NextLine l rest => l :: fetched rest
  | _ => []
  end.

Fixpoint iter_end (f : line_iter) : option exn :=
  match f with
  | StopIteration => None
  | NextLine _ rest => iter_end rest
  | NextRaises e => Some e
  end.

(** Input of the promised kind, seen as input of the general kind. *)
Definition in_full (json_loads : string → option row) (l : string)
    : loads_result :=
  match json_loads l with
  | Some r => Loaded (IsRecord r)
  | None => JSONDecodeError
  end.

Fixpoint iter_of_stream (f : stream) : line_iter :=
  match f with
  | Eof => StopIteration
  | Line l rest => NextLine l (iter_of_stream rest)
  | ReadError => NextRaises OSError
  end.

(** Input of the general kind, cut down to the promised kind: a failing
    read is a read error, and a line is a record or is malformed. *)
Fixpoint stream_of_iter (f : line_iter) : stream :=
  match f with
  | StopIteration => Eof
  | NextLine l rest => Line l (stream_of_iter rest)
  | NextRaises _ => ReadError
  end.

(** *** Data preparation *)

(** The bytes a stream of reads delivers before it ends or fails. *)
Fixpoint received (body : PrepareData.chunks) : list Byte.byte :=
  match body with
  | PrepareData.Chunk [] _ => []
  | PrepareData.Chunk c rest => c ++ received rest
  | _ => []
  end.

(** How a read loop over the stream ends. *)
Fixpoint loop_end (body : PrepareData.chunks) : PrepareData.result unit :=
  match body with
  | PrepareData.Chunk [] _ => PrepareData.Ok tt
  | PrepareData.Chunk _ rest => loop_end rest
  | PrepareData.End => PrepareData.Ok tt
  | PrepareData.Fails e => PrepareData.Fail e
  end.

(** The progress lines of a download of [body] after [downloaded] bytes. *)
Fixpoint progress_log (body : PrepareData.chunks) (downloaded : Z)
    : list PrepareData.action :=
  match body with
  | PrepareData.Chunk [] _ => []
  | PrepareData.Chunk c rest =>
      let downloaded' := (downloaded + Z.of_nat (length c))%Z in
      (if (downloaded' mod (100 * 1024 * 1024) <? PrepareData.CHUNK_SIZE)%Z
       then [PrepareData.Info (PrepareData.Progress downloaded')]
       else [])
      ++ progress_log rest downloaded'
  | _ => []
  end.

(** A response body delivered in the given chunks, to its end. *)
Fixpoint chunks_of (cs : list (list Byte.byte)) : PrepareData.chunks :=
  match cs with
  | [] => PrepareData.End
  | c :: rest => PrepareData.Chunk c (chunks_of rest)
  end.

Definition is_progress (a : PrepareData.action) : bool :=
  match a with
  | PrepareData.Info (PrepareData.Progress _) => true
  | _ => false
  end.

(** [t] logged before what [x] logs. *)
Definition after_log {A} (t : list PrepareData.action)
    (x : PrepareData.result A * PrepareData.files * list PrepareData.action)
    : PrepareData.result A * PrepareData.files * list PrepareData.action :=
  (x.1.1, x.1.2, t ++ x.2).

(** The files other than the two the script works on are as they were. *)
Definition other_files_kept (fs fs' : PrepareData.files) : Prop :=
  ∀ p, p ≠ PrepareData.COMPRESSED_FILE → p ≠ PrepareData.TRACE_FILE →
       fs' !! p = fs !! p.

(** Where the [try] block of the script ends and what it leaves behind, as
    the outside world decides: [fs1] holds the compressed file as far as it
    was received, [fs2] the trace file as far as it was extracted. *)
Definition try_block_end (w : PrepareData.world) (fs : PrepareData.files)
    : PrepareData.result unit * PrepareData.files :=
  if negb (PrepareData.makedirs_ok w) then (PrepareData.Fail PrepareData.OtherError, fs)
  else
    match PrepareData.fetch w with
    | PrepareData.OpenFails e => (PrepareData.Fail e, fs)
    | PrepareData.Response PrepareData.Malformed _ =>
        (PrepareData.Fail PrepareData.OtherError, fs)
    | PrepareData.Response _ body =>
        if negb (PrepareData.open_ok w PrepareData.COMPRESSED_FILE)
        then (PrepareData.Fail PrepareData.OtherError, fs)
        else
          let fs1 := <[PrepareData.COMPRESSED_FILE := received body]> fs in
          match loop_end body with
          | PrepareData.Ok _ =>
              if negb (PrepareData.open_ok w PrepareData.TRACE_FILE)
              then (PrepareData.Fail PrepareData.OtherError, fs1)
              else
                let data := PrepareData.gunzip w (received body) in
                let fs2 := <[PrepareData.TRACE_FILE := received data]> fs1 in
                match loop_end data with
                | PrepareData.Ok _ =>
                    if PrepareData.remove_ok w PrepareData.COMPRESSED_FILE
                    then (PrepareData.Ok tt,
                          delete PrepareData.COMPRESSED_FILE fs2)
                    else (PrepareData.Fail PrepareData.OtherError, fs2)
                | r => (r, fs2)
                end
          | r => (r, fs1)
          end
    end.

(** The log lines and requests of one kind, counted. *)
Definition count_actions (f : PrepareData.action → bool)
    (t : list PrepareData.action) : nat :=
  length (filter (λ a, f a = true) t).

(** A record that carries every key the scripts read. *)
Definition complete_record (r : row) : Prop :=
  is_Some (row_id r) ∧ has_parents_key r ∧ emittable r
  ∧ is_Some (metadata r).

(** Every record comes after all the records whose span id it names as a
    parent. *)
Definition parents_first (rows : list row) : Prop :=
  ∀ j r p j' r',
    rows !! j = Some r → p ∈ parents_list r →
    rows !! j' = Some r' → span_id r' = Some p → j' < j.

(** The record a line loads, if it loads one. *)
Definition as_record (json_loads : string → loads_result) (l : string)
    : option row :=
  match json_loads l with
  | Loaded (IsRecord r) => Some r
  | _ => None
  end.

(** A line that [json.loads] rejects as malformed, or that holds a record
    with every key the scripts read. *)
Definition well_formed_line (json_loads : string → loads_result)
    (l : string) : Prop :=
  json_loads l = JSONDecodeError
  ∨ ∃ r, json_loads l = Loaded (IsRecord r) ∧ complete_record r.

(** How far from the end of the file the record that [tree] holds for an id
    stands. *)
Definition rank_in (tree : gmap string nat) (n : nat) (u : string) : nat :=
  match tree !! u with
  | Some i => n - i
  | None => 0
  end.

(** Row object [r] holds what record [r0] holds, up to the parent list
    (which indexing deletes from roots) and, where [tag] allows it, up to
    the model tag in the metadata. *)
Definition same_payload (tag : bool) (r0 r : row) : Prop :=
  span_id r = span_id r0
  ∧ span_attributes r = span_attributes r0
  ∧ input r = input r0
  ∧ output r = output r0
  ∧ (metadata r = metadata r0
     ∨ tag = true
       ∧ ∃ m0, metadata r0 = Some m0
               ∧ metadata r = Some (<["model" := VStr DEFAULT_MODEL]> m0)).

Definition payload_kept (tag : bool) (store0 store : list row) : Prop :=
  ∀ j r,
    store !! j = Some r → ∃ r0, store0 !! j = Some r0 ∧ same_payload tag r0 r.

(** What is sent for a record is what the record holds.  A span below a
    parent carries the name under the record's [span_attributes]; a
    top-level span carries the fixed pipeline name.  A payload comes right
    after the span of its record is opened ([prev] is the event before it)
    and is the record's input and output, with no metadata when the span was
    opened below a parent, and with the record's metadata when it was opened
    at top level, to which the model tag is added when [tag] is set. *)
Definition sent_for (tag : bool) (tree : gmap string nat) (store : list row)
    (prev : option event) (ev : event) : Prop :=
  match ev with
  | Open None _ name => name = ROOT_SPAN_NAME
  | Open (Some _) n name =>
      ∃ i r attrs,
        tree !! n = Some i ∧ store !! i = Some r
        ∧ span_attributes r = Some attrs ∧ attr_name attrs = Some name
  | Attach n inp out md =>
      ∃ i r parent name,
        prev = Some (Open parent n name)
        ∧ tree !! n = Some i ∧ store !! i = Some r
        ∧ input r = Some inp ∧ output r = Some out
        ∧ match parent with
          | Some _ => md = None
          | None =>
              ∃ m, metadata r = Some m
                   ∧ md = Some (if tag
                                then <["model" := VStr DEFAULT_MODEL]> m
                                else m)
          end
  | _ => True
  end.

Fixpoint sent_from (tag : bool) (tree : gmap string nat) (store : list row)
    (prev : option event) (t : list event) : Prop :=
  match t with
  | [] => True
  | ev :: rest =>
      sent_for tag tree store prev ev
      ∧ sent_from tag tree store (Some ev) rest
  end.

Definition sent_as_recorded (tag : bool) (tree : gmap string nat)
    (store : list row) (t : list event) : Prop :=
  sent_from tag tree store None t.

(** The ids of the top-level spans of a trace, in the order they were
    opened. *)
Definition top_ids (t : list event) : list string :=
  omap (λ ev, match ev with Open None n _ => Some n | _ => None end) t.

(** ** Sample data for the examples *)

(** The three-record chain A -> B -> C: ids [A], [B], [C], span ids [a],
    [b], [c]; B declares parent [a], C declares parent [b]. *)
Definition chain_row (k sid : string) (ps : parents_field) : row :=
  mkRow (Some k) (Some sid) ps (Some (mkAttrs (Some k))) (Some VNull)
        (Some VNull) (Some ∅).

Definition chain_rows : list row :=
  [chain_row "A" "a" SpNull; chain_row "B" "b" (SpList ["a"]);
   chain_row "C" "c" (SpList ["b"])].

Definition chain_tree : gmap string nat :=
  <["C" := 2]> (<["B" := 1]> (<["A" := 0]> ∅)).

Definition chain_children : gmap string (list string) :=
  <["b" := ["C"]]> (<["a" := ["B"]]> ∅).

Definition chain_index : index :=
  mkIndex [chain_row "A" "a" SpAbsent; chain_row "B" "b" (SpList ["a"]);
           chain_row "C" "c" (SpList ["b"])]
          chain_children ["A"].

(** A record with every key present: id and span id [k], the given parents,
    operation name [k], empty payloads and empty metadata. *)
Definition sample_row (k : string) (ps : parents_field) : row :=
  mkRow (Some k) (Some k) ps (Some (mkAttrs (Some k))) (Some VNull)
        (Some VNull) (Some ∅).

(** A stand-in for [json.loads] in the examples: the empty line is
    malformed, any other line [l] is a record without parents named [l]. *)
Definition sample_loads (l : string) : option row :=
  if decide (l = "") then None else Some (sample_row l SpNull).

Definition sample_args (n : Z) (l b : option Z) : args := mkArgs false n l b.

(** Depth of a node of the chain above the leaf. *)
Definition chain_rank (u : string) : nat :=
  if decide (u = "A") then 3
  else if decide (u = "B") then 2
  else if decide (u = "C") then 1
  else 0.


Definition flat_tree : gmap string nat :=
  <["c" := 2]> (<["b" := 1]> (<["a" := 0]> ∅)).

Definition flat_index : index :=
  mkIndex [sample_row "a" SpAbsent; sample_row "b" SpAbsent;
           sample_row "c" SpAbsent] ∅ ["a"; "b"; "c"].

(** A run over a one-line trace file, two iterations, batch size 2. *)
Definition two_iterations_env : env :=
  mkEnv true (sample_args 2 None (Some 2%Z)) true (Opened (stream_of ["a"])).

Definition tagged : gmap string value := <["model" := VStr DEFAULT_MODEL]> ∅.

(** A record that is its own child: id and span id [x], parent [x]. *)
Definition loop_rows : list row := [sample_row "x" (SpList ["x"])].
Definition loop_tree : gmap string nat := <["x" := 0]> ∅.
Definition loop_children : gmap string (list string) := <["x" := ["x"]]> ∅.

(** A line holding an integer of 4301 digits: valid JSON, on which
    [json.loads] raises [ValueError] (the interpreter's limit on integer
    strings is 4300 digits). *)
Fixpoint ones (n : nat) : string :=
  match n with
  | 0 => ""
  | S n' => String (Ascii.ascii_of_nat 49) (ones n')   (* the digit 1 *)
  end.

Definition big_integer_line : string := ones 4301.

(** A stand-in for [json.loads] with all its outcomes: [ValueError] on the
    big integer, the number 42 on the line [42], and [sample_loads]
    otherwise. *)
Definition sample_json_loads (l : string) : loads_result :=
  if decide (l = big_integer_line) then LoadsRaises ValueError
  else if decide (l = "42") then Loaded (NotRecord (NoNum 42))
  else in_full sample_loads l.

(** A world in which everything works: the server sends three bytes in one
    chunk, and the stand-in for the gzip decoder returns its input. *)
Definition sample_world : PrepareData.world :=
  PrepareData.mkWorld true
    (PrepareData.Response (PrepareData.Digits 3)
       (PrepareData.Chunk [Byte.x61; Byte.x62; Byte.x63] PrepareData.End))
    (λ _, true)
    (λ c, PrepareData.Chunk c PrepareData.End)
    (λ _, true).

(** The same world, except that the compressed file cannot be removed. *)
Definition sticky_world : PrepareData.world :=
  PrepareData.mkWorld true
    (PrepareData.Response (PrepareData.Digits 3)
       (PrepareData.Chunk [Byte.x61; Byte.x62; Byte.x63] PrepareData.End))
    (λ _, true)
    (λ c, PrepareData.Chunk c PrepareData.End)
    (λ p, negb (String.eqb p PrepareData.COMPRESSED_FILE)).

(** * Theorems *)

(** ** The effect monad *)

Lemma bind_unfold {A B} (m : W A) (k : A → W B) : m ≫= k = bind k m.
Proof. reflexivity. Qed.

Lemma bind_Ret {A B} (a : A) (t : list event) (k : A → W B) :
  (Ret a, t) ≫= k = (fst (k a), t ++ snd (k a)).
Proof. rewrite bind_unfold. unfold bind. by destruct (k a). Qed.

Lemma bind_mret {A B} (a : A) (k : A → W B) : mret a ≫= k = k a.
Proof. rewrite bind_unfold. unfold mret, W_ret, bind. by destruct (k a). Qed.

Lemma bind_emit {B} (ev : event) (k : unit → W B) :
  emit ev ≫= k = (fst (k tt), ev :: snd (k tt)).
Proof. unfold emit. by rewrite bind_Ret. Qed.

Lemma bind_Raise {A B} (e : exn) (t : list event) (k : A → W B) :
  (Raise e, t) ≫= k = (Raise e, t).
Proof. reflexivity. Qed.

Lemma bind_OutOfFuel {A B} (t : list event) (k : A → W B) :
  (OutOfFuel, t) ≫= k = (OutOfFuel, t).
Proof. reflexivity. Qed.

Lemma bind_Ret_inv {A B} (m : W A) (k : A → W B) (b : B) (t : list event) :
  m ≫= k = (Ret b, t) →
  ∃ a t1 t2, m = (Ret a, t1) ∧ k a = (Ret b, t2) ∧ t = t1 ++ t2.
Proof.
  rewrite bind_unfold. unfold bind.
  destruct m as [[a| |] t1]; try discriminate.
  destruct (k a) as [o t2] eqn:Hk. intros [= -> <-]. by exists a, t1, t2.
Qed.

Lemma bind_OutOfFuel_inv {A B} (m : W A) (k : A → W B) (t : list event) :
  m ≫= k = (OutOfFuel, t) →
  m = (OutOfFuel, t) ∨
  ∃ a t1 t2, m = (Ret a, t1) ∧ k a = (OutOfFuel, t2) ∧ t = t1 ++ t2.
Proof.
  rewrite bind_unfold. unfold bind.
  destruct m as [[a| |] t1]; try discriminate.
  - destruct (k a) as [o t2] eqn:Hk. intros [= -> <-]. right.
    by exists a, t1, t2.
  - intros [= <-]. by left.
Qed.

Lemma fst_bind {A B} (m : W A) (k : A → W B) :
  fst (m ≫= k)
  = match fst m with
    | Ret a => fst (k a)
    | Raise e => Raise e
    | OutOfFuel => OutOfFuel
    end.
Proof.
  rewrite bind_unfold. unfold bind. destruct m as [[a|e|] t]; [|done..].
  cbn. by destruct (k a).
Qed.

Lemma snd_bind {A B} (m : W A) (k : A → W B) :
  snd (m ≫= k)
  = snd m ++ match fst m with
             | Ret a => snd (k a)
             | _ => []
             end.
Proof.
  rewrite bind_unfold. unfold bind. destruct m as [[a|e|] t]; cbn;
    [by destruct (k a)|by rewrite app_nil_r..].
Qed.

Lemma getitem_Some {A} (k : string) (a : A) : getitem k (Some a) = mret a.
Proof. reflexivity. Qed.

(** ** Record Store *)


Lemma limit_reached_Some (l : Z) (i : nat) :
  (1 ≤ l)%Z → limit_reached (Some l) i = bool_decide (Z.to_nat l ≤ i).
Proof.
  intros Hl. unfold limit_reached.
  destruct (Z.eqb_spec l 0) as [->|_]; [lia|]. simpl.
  case_bool_decide; [apply Z.leb_le|apply Z.leb_gt]; lia.
Qed.



Lemma accepted_limit (a : args) (l : Z) :
  accepted a → limit a = Some l → (1 ≤ l)%Z.
Proof. intros (_ & H & _). apply H. Qed.



Lemma validate_accepted (a : args) :
  accepted a → validate_args a = mret tt.
Proof.
  intros (Hn & Hl & Hb). unfold validate_args.
  destruct (Z.ltb_spec (iterations a) 1) as [?|_]; [lia|].
  rewrite bind_mret.
  destruct (limit a) as [l|].
  - specialize (Hl l eq_refl).
    destruct (Z.ltb_spec l 1) as [?|_]; [lia|]. rewrite bind_mret.
    destruct (batch_size a) as [b|]; [|done].
    specialize (Hb b eq_refl). by destruct (Z.ltb_spec b 1) as [?|_]; [lia|].
  - rewrite bind_mret. destruct (batch_size a) as [b|]; [|done].
    specialize (Hb b eq_refl). by destruct (Z.ltb_spec b 1) as [?|_]; [lia|].
Qed.

Lemma validate_rejected (a : args) :
  non_positive a →
  ∃ msg, validate_args a = (Raise (SystemExit 2), [ParserError msg]).
Proof.
  intros Ha. unfold validate_args, parser_error.
  destruct (Z.ltb_spec (iterations a) 1) as [?|Hn]; [by eexists|].
  rewrite bind_mret.
  destruct Ha as [?|[(l & -> & Hl)|(b & Hb & Hlt)]]; [lia| |].
  - destruct (Z.ltb_spec l 1) as [?|?]; [by eexists|lia].
  - destruct (limit a) as [l|].
    + destruct (Z.ltb_spec l 1) as [?|?]; [by eexists|].
      rewrite bind_mret, Hb.
      destruct (Z.ltb_spec b 1) as [?|?]; [by eexists|lia].
    + rewrite bind_mret, Hb.
      destruct (Z.ltb_spec b 1) as [?|?]; [by eexists|lia].
Qed.

(** The validation block passes exactly the accepted command lines. *)
Lemma validate_args_passes_iff (a : args) :
  validate_args a = mret tt ↔ accepted a.
Proof.
  split; [|apply validate_accepted]. intros Hv.
  assert (Hno : ¬ non_positive a).
  { intros [msg Hr]%validate_rejected. rewrite Hr in Hv. discriminate. }
  unfold non_positive in Hno. split; [|split].
  - destruct (Z.le_gt_cases 1 (iterations a)); [done|].
    destruct Hno. left. lia.
  - intros l Hl. destruct (Z.le_gt_cases 1 l); [done|].
    destruct Hno. right; left. exists l. split; [done|lia].
  - intros b Hb. destruct (Z.le_gt_cases 1 b); [done|].
    destruct Hno. right; right. exists b. split; [done|lia].
Qed.

(** The file iterator is advanced before the limit is tested: the line
    after the last handled one is fetched and dropped, and a failure to
    read it is raised. *)
Lemma limit_reads_one_line_ahead :
  read_rows sample_loads (Some 1%Z) 0 (Line "a" (Line "b" Eof)) []
  = (Ret [sample_row "a" SpNull], [])
  ∧ read_rows sample_loads (Some 1%Z) 0 (Line "a" ReadError) []
    = (Raise OSError, []).
Proof. by split. Qed.

Lemma read_rows_outcome (json_loads : string → option row) (limit : option Z)
    (f : stream) :
  ∀ i acc o t,
    read_rows json_loads limit i f acc = (o, t) →
    o ≠ OutOfFuel ∧ (∀ e, o = Raise e → e = OSError ∧ read_fails f = true).
Proof.
  induction f as [|l rest IH|]; intros i acc o t; cbn [read_rows read_fails].
  - intros [= <- <-]. split; [done|]. intros e; discriminate.
  - destruct (limit_reached limit i).
    { intros [= <- <-]. split; [done|]. intros e; discriminate. }
    destruct (json_loads l) as [r|]; [apply IH|].
    rewrite bind_emit. intros [= <- <-].
    destruct (read_rows json_loads limit (S i) rest acc) as [o' t'] eqn:Hr.
    apply IH in Hr. done.
  - intros [= <- <-]. split; [done|]. by intros e [= <-].
Qed.

Lemma on_error_Raise_inv {A} (h : exn → list event) (m : W A) (e : exn)
    (t : list event) :
  on_error h m = (Raise e, t) → ∃ t', m = (Raise e, t').
Proof.
  destruct m as [[a|e'|] t']; cbn; intros [= ]; subst; by eexists.
Qed.

(** ** Record Store: the library calls in full *)

Lemma limit_reached_mono (limit : option Z) (i j : nat) :
  j ≤ i → limit_reached limit i = false → limit_reached limit j = false.
Proof.
  unfold limit_reached. destruct limit as [l|]; [|done].
  destruct (Z.eqb_spec l 0) as [->|_]; [done|]. cbn [negb andb].
  intros Hj Hi%Z.leb_gt. apply Z.leb_gt. lia.
Qed.

Lemma iter_app_app (xs ys : list string) (tail : line_iter) :
  iter_app (xs ++ ys) tail = iter_app xs (iter_app ys tail).
Proof. induction xs as [|x xs IH]; [done|]. cbn. by rewrite IH. Qed.

(** The loop over lines that [json.loads] accepts or rejects as malformed,
    none of them beyond the limit: one warning per malformed line, one entry
    per accepted line, and the loop goes on with the rest of the file. *)
Lemma read_entries_prefix (json_loads : string → loads_result)
    (limit : option Z) (lines : list string) (tail : line_iter) :
  Forall (λ l, loads_raises json_loads l = false) lines →
  ∀ i acc,
    (∀ j, j < length lines → limit_reached limit (i + j) = false) →
    read_entries json_loads limit i (iter_app lines tail) acc
    = ((Ret tt, warnings_in json_loads i lines) : W unit) ≫= λ _,
      read_entries json_loads limit (i + length lines) tail
        (acc ++ omap (loaded_entry json_loads) lines).
Proof.
  induction 1 as [|l rest Hl _ IH]; intros i acc Hlim;
    cbn [iter_app warnings_in omap list_omap length].
  - rewrite bind_Ret. cbn. rewrite Nat.add_0_r, app_nil_r.
    by rewrite <- surjective_pairing.
  - cbn [read_entries].
    assert (H0 : limit_reached limit i = false).
    { rewrite <- (Nat.add_0_r i). apply Hlim. cbn. lia. }
    assert (Hrest : ∀ j, j < length rest
                         → limit_reached limit (S i + j) = false).
    { intros j Hj. replace (S i + j) with (i + S j) by lia. apply Hlim.
      cbn. lia. }
    rewrite H0. unfold loads_raises in Hl. unfold malformed, loaded_entry.
    destruct (json_loads l) as [x| |e]; [| |done].
    + rewrite (IH (S i) _ Hrest), <- app_assoc.
      by replace (i + S (length rest)) with (S i + length rest) by lia.
    + rewrite bind_emit, (IH (S i) _ Hrest), !bind_Ret. cbn.
      by replace (i + S (length rest)) with (S i + length rest) by lia.
Qed.

(** The parse loop under an accepted command line, on a file that is read
    to its end and in which [json.loads] raises nothing but
    [JSONDecodeError] within the limit. *)
Lemma read_entries_accepted (json_loads : string → loads_result) (a : args)
    (lines : list string) :
  accepted a →
  Forall (λ l, loads_raises json_loads l = false)
         (within_limit (limit a) lines) →
  read_entries json_loads (limit a) 0 (iter_of lines) []
  = (Ret (omap (loaded_entry json_loads) (within_limit (limit a) lines)),
     warnings_in json_loads 0 (within_limit (limit a) lines)).
Proof.
  intros Ha Hall. unfold iter_of.
  destruct (limit a) as [L|] eqn:HL; cbn [within_limit] in *.
  - pose proof (accepted_limit a L Ha HL) as HL1.
    rewrite <- (take_drop (Z.to_nat L) lines) at 1. rewrite iter_app_app.
    rewrite (read_entries_prefix _ _ _ _ Hall 0 []), bind_Ret.
    + cbn [Nat.add app].
      destruct (drop (Z.to_nat L) lines) as [|l rest] eqn:Hdrop;
        cbn [iter_app read_entries]; [by rewrite app_nil_r|].
      assert (Hlen : length (take (Z.to_nat L) lines) = Z.to_nat L).
      { rewrite length_take. apply Nat.min_l.
        destruct (Nat.le_gt_cases (Z.to_nat L) (length lines)); [done|].
        rewrite drop_ge in Hdrop by lia. discriminate. }
      rewrite Hlen, limit_reached_Some, bool_decide_eq_true_2 by done.
      cbn. by rewrite app_nil_r.
    + intros j Hj. rewrite length_take in Hj.
      rewrite limit_reached_Some by done. apply bool_decide_eq_false. lia.
  - rewrite (read_entries_prefix _ _ _ _ Hall 0 []), bind_Ret by done.
    cbn. by rewrite app_nil_r.
Qed.

Lemma parsed_count_full (json_loads : string → loads_result)
    (lines : list string) :
  length (omap (loaded_entry json_loads) lines)
  = length (filter (λ l, parses json_loads l = true) lines).
Proof.
  induction lines as [|l rest IH]; [done|].
  cbn [omap list_omap]. unfold loaded_entry at 1.
  destruct (json_loads l) as [x| |e] eqn:Hl.
  - rewrite filter_cons_True by (unfold parses; by rewrite Hl).
    cbn. f_equal. exact IH.
  - rewrite filter_cons_False by (unfold parses; by rewrite Hl). exact IH.
  - rewrite filter_cons_False by (unfold parses; by rewrite Hl). exact IH.
Qed.

Lemma warned_count_full (json_loads : string → loads_result)
    (lines : list string) :
  ∀ i, length (warnings_in json_loads i lines)
       = length (filter (λ l, malformed json_loads l = true) lines).
Proof.
  induction lines as [|l rest IH]; intros i; [done|].
  cbn [warnings_in]. destruct (malformed json_loads l) eqn:Hl.
  - rewrite filter_cons_True by done. cbn. f_equal. apply IH.
  - rewrite filter_cons_False by (by rewrite Hl). apply IH.
Qed.

Lemma warnings_in_are_warnings (json_loads : string → loads_result)
    (lines : list string) :
  ∀ i, Forall (λ ev, ∃ n, ev = LogWarning n) (warnings_in json_loads i lines).
Proof.
  induction lines as [|l rest IH]; intros i; cbn [warnings_in];
    [constructor|].
  destruct (malformed json_loads l); [|apply IH].
  constructor; [by eexists|apply IH].
Qed.

Lemma read_entries_trace (json_loads : string → loads_result)
    (limit : option Z) (f : line_iter) :
  ∀ i acc,
    Forall (λ ev, ∃ n, ev = LogWarning n)
           (snd (read_entries json_loads limit i f acc)).
Proof.
  induction f as [|line rest IH|e]; intros i acc; cbn [read_entries];
    [constructor| |constructor].
  destruct (limit_reached limit i); [constructor|].
  destruct (json_loads line) as [x| |e]; [apply IH| |constructor].
  rewrite bind_emit. cbn [snd]. constructor; [by eexists|apply IH].
Qed.

(** Whatever the loop raises was raised by a [next] call or by
    [json.loads] on a line within the limit. *)
Lemma read_entries_Raise (json_loads : string → loads_result)
    (limit : option Z) (f : line_iter) :
  ∀ i acc o t,
    read_entries json_loads limit i f acc = (o, t) →
    o ≠ OutOfFuel
    ∧ ∀ ex, o = Raise ex →
        iter_end f = Some ex
        ∨ ∃ j l, fetched f !! j = Some l
                 ∧ limit_reached limit (i + j) = false
                 ∧ json_loads l = LoadsRaises ex.
Proof.
  induction f as [|line rest IH|e]; intros i acc o t;
    cbn [read_entries iter_end fetched].
  - intros [= <- <-]. split; [done|]. intros ex; discriminate.
  - destruct (limit_reached limit i) eqn:Hlim.
    { intros [= <- <-]. split; [done|]. intros ex; discriminate. }
    assert (Hshift : ∀ ex,
              (iter_end rest = Some ex
               ∨ ∃ j l, fetched rest !! j = Some l
                        ∧ limit_reached limit (S i + j) = false
                        ∧ json_loads l = LoadsRaises ex)
              → iter_end rest = Some ex
                ∨ ∃ j l, (line :: fetched rest) !! j = Some l
                         ∧ limit_reached limit (i + j) = false
                         ∧ json_loads l = LoadsRaises ex).
    { intros ex [?|(j & l & Hj & Hl & Hex)]; [by left|right].
      exists (S j), l. split; [done|]. split; [|done].
      by replace (i + S j) with (S i + j) by lia. }
    destruct (json_loads line) as [x| |e] eqn:Hline.
    + intros H. apply IH in H as [? H]. split; [done|].
      intros ex Hex. by apply Hshift, H.
    + rewrite bind_emit. intros [= <- <-].
      destruct (read_entries json_loads limit (S i) rest acc) as [o' t']
        eqn:Hr.
      apply IH in Hr as [? H]. split; [done|].
      intros ex Hex. by apply Hshift, H.
    + intros [= <- <-]. split; [done|]. intros ex [= <-]. right.
      exists 0, line. rewrite Nat.add_0_r. by split.
  - intros [= <- <-]. split; [done|]. intros ex [= <-]. by left.
Qed.

Lemma lookup_within_limit (a : args) (xs : list string) (j : nat)
    (l : string) :
  accepted a →
  xs !! j = Some l → limit_reached (limit a) j = false →
  l ∈ within_limit (limit a) xs.
Proof.
  intros Ha Hj Hlim. destruct (limit a) as [L|] eqn:HL; cbn [within_limit].
  - rewrite limit_reached_Some in Hlim by by eapply accepted_limit.
    apply bool_decide_eq_false in Hlim.
    apply (list_elem_of_lookup_2 _ j). rewrite lookup_take_lt by lia. done.
  - by eapply list_elem_of_lookup_2.
Qed.

(** [read_rows] is [read_entries] on input of the promised kind. *)
Lemma read_rows_is_read_entries (json_loads : string → option row)
    (limit : option Z) (f : stream) :
  ∀ i rows,
    read_entries (in_full json_loads) limit i (iter_of_stream f)
      (IsRecord <$> rows)
    = rows' ← read_rows json_loads limit i f rows;
      (mret (IsRecord <$> rows') : W (list entry)).
Proof.
  induction f as [|line rest IH|]; intros i rows;
    cbn [iter_of_stream read_entries read_rows].
  - by rewrite bind_mret.
  - destruct (limit_reached limit i); [by rewrite bind_mret|].
    unfold in_full at 1. destruct (json_loads line) as [r|].
    + rewrite <- IH. by rewrite fmap_app.
    + rewrite !bind_emit, IH.
      by destruct (read_rows json_loads limit (S i) rest rows) as [[?|?|] ?].
  - done.
Qed.

(** [build_tree] is [build_tree_entries] on records, and a lookup loop that
    returns has met records only. *)
Lemma build_tree_is_build_tree_entries (rows : list row) :
  ∀ i tree,
    build_tree_entries_from i (IsRecord <$> rows) tree
    = build_tree_from i rows tree.
Proof.
  induction rows as [|r rest IH]; intros i tree;
    cbn [fmap list_fmap build_tree_entries_from build_tree_from]; [done|].
  destruct (row_id r) as [k|]; cbn [getitem]; [|done].
  by rewrite !bind_mret, <- IH.
Qed.

Lemma build_tree_entries_Ret (rows : list entry) :
  ∀ i tree0 tree t,
    build_tree_entries_from i rows tree0 = (Ret tree, t) →
    ∃ rs, rows = IsRecord <$> rs
          ∧ build_tree_from i rs tree0 = (Ret tree, t).
Proof.
  induction rows as [|[r|v] rest IH]; intros i tree0 tree t;
    cbn [build_tree_entries_from].
  - intros H. by exists [].
  - destruct (row_id r) as [k|] eqn:Hk; cbn [getitem]; [|discriminate].
    rewrite bind_mret. intros (rs & -> & Hrs)%IH. exists (r :: rs).
    split; [done|]. cbn [build_tree_from]. rewrite Hk. cbn [getitem].
    by rewrite bind_mret.
  - discriminate.
Qed.

Lemma read_entries_extends (json_loads : string → loads_result)
    (limit : option Z) (f : line_iter) :
  ∀ i acc res t,
    read_entries json_loads limit i f acc = (Ret res, t) →
    ∃ more, res = acc ++ more.
Proof.
  induction f as [|line rest IH|e]; intros i acc res t; cbn [read_entries].
  - intros [= <- _]. exists []. by rewrite app_nil_r.
  - destruct (limit_reached limit i).
    { intros [= <- _]. exists []. by rewrite app_nil_r. }
    destruct (json_loads line) as [x| |e]; [| |discriminate].
    + intros [more ->]%IH. exists (x :: more). by rewrite <- app_assoc.
    + rewrite bind_emit.
      destruct (read_entries json_loads limit (S i) rest acc) as [o t']
        eqn:Hr.
      cbn [fst snd]. intros [= -> _]. by eapply IH.
  - discriminate.
Qed.

(** A parse that returns records only is a parse of [read_rows]: with
    [build_tree_entries_Ret], every run that gets past the lookup tree is a
    run on input of the promised kind. *)
Lemma read_entries_records (json_loads : string → loads_result)
    (limit : option Z) (f : line_iter) :
  ∀ i acc rows t,
    read_entries json_loads limit i f (IsRecord <$> acc)
    = (Ret (IsRecord <$> rows), t) →
    read_rows (as_record json_loads) limit i (stream_of_iter f) acc
    = (Ret rows, t).
Proof.
  assert (Hinj : ∀ xs ys : list row, IsRecord <$> xs = IsRecord <$> ys
                                     → xs = ys).
  { assert (Hrec : Inj (=) (=) IsRecord) by (by intros ?? [=]).
    intros xs ys. apply (inj (fmap IsRecord)). }
  induction f as [|line rest IH|e]; intros i acc rows t;
    cbn [read_entries stream_of_iter read_rows].
  - intros [= ->%Hinj <-]. done.
  - destruct (limit_reached limit i); [by intros [= ->%Hinj <-]|].
    unfold as_record at 1.
    destruct (json_loads line) as [[r|v]| |e]; [| | |discriminate].
    + intros H. apply IH. by rewrite fmap_app.
    + intros [more Hmore]%read_entries_extends. exfalso.
      apply (f_equal (λ l, l !! length acc)) in Hmore.
      rewrite <- app_assoc, lookup_app_r in Hmore
        by (rewrite length_fmap; lia).
      rewrite length_fmap, Nat.sub_diag, list_lookup_fmap in Hmore.
      cbn in Hmore. by destruct (rows !! length acc).
    + rewrite !bind_emit.
      destruct (read_entries json_loads limit (S i) rest (IsRecord <$> acc))
        as [o t'] eqn:Hr.
      cbn [fst snd]. intros [= -> <-]. by rewrite (IH _ _ _ _ Hr).
  - discriminate.
Qed.

Lemma load_entries_Raise_inv (json_loads : string → loads_result) (a : args)
    (file : open_outcome) (ex : exn) (t : list event) :
  accepted a →
  open_and_read_entries json_loads (limit a) file = (Raise ex, t) →
  file = OpenRaises ex
  ∨ ∃ f, file = OpenReturns f
         ∧ (iter_end f = Some ex
            ∨ ∃ l, l ∈ within_limit (limit a) (fetched f)
                   ∧ json_loads l = LoadsRaises ex).
Proof.
  intros Ha. unfold open_and_read_entries. rewrite bind_emit.
  destruct file as [e|f]; cbn [fst snd].
  - intros [= <- _]. by left.
  - destruct (read_entries json_loads (limit a) 0 f []) as [o t'] eqn:Hr.
    cbn [fst snd]. intros [= -> _]. right. exists f. split; [done|].
    apply read_entries_Raise in Hr as [_ Hr].
    destruct (Hr ex eq_refl) as [?|(j & l & Hj & Hlim & Hl)]; [by left|].
    right. exists l. split; [|done]. by eapply lookup_within_limit.
Qed.

(** ** Startup and argument validation *)

Lemma check_trace_file_exists (e : env) :
  trace_file_exists e = true →
  check_trace_file e = (Ret tt, [PathExists TRACE_FILE]).
Proof. intros H. unfold check_trace_file. by rewrite bind_emit, H. Qed.

Lemma check_trace_file_missing (e : env) :
  trace_file_exists e = false →
  check_trace_file e
  = (Raise (SystemExit 1),
     [PathExists TRACE_FILE;
      LogError "Trace file not found at data/big_traces.jsonl";
      LogError "Please run 'python prepare_data.py' first to download the data"]).
Proof. intros H. unfold check_trace_file. by rewrite bind_emit, H. Qed.

(** ** Tree Indexer *)

Lemma index_row_agree (flatten : bool) (r : row) (ix : index) :
  has_parents_key r →
  Braintrust.index_row flatten r ix = LangSmith.index_row flatten r ix.
Proof.
  unfold has_parents_key.
  destruct r as [k sid [| |[|p ps]] attrs inp out md]; cbn [span_parents];
    intros Hkey; [done|..]; by destruct flatten, k.
Qed.

Lemma index_from_agree (flatten : bool) (rows : list row) :
  Forall has_parents_key rows →
  ∀ ix, Braintrust.index_from flatten rows ix
        = LangSmith.index_from flatten rows ix.
Proof.
  induction 1 as [|r rest Hr _ IH]; intros ix; [done|].
  cbn [Braintrust.index_from LangSmith.index_from].
  rewrite (index_row_agree flatten r ix Hr).
  destruct (LangSmith.index_row flatten r ix) as [[ix'| |] t]; [|done|done].
  rewrite !bind_Ret. by rewrite IH.
Qed.

(** Without the key the two loops differ in flatten mode. *)
Lemma index_rows_differ_without_key :
  Braintrust.index_rows true [sample_row "a" SpAbsent]
  ≠ LangSmith.index_rows true [sample_row "a" SpAbsent].
Proof. discriminate. Qed.

Lemma children_get_register (p k : string)
    (children : gmap string (list string)) (q : string) :
  children_get (register_child p k children) q
  = if decide (q = p) then children_get children q ++ [k]
    else children_get children q.
Proof.
  unfold children_get, register_child.
  destruct (decide (q = p)) as [->|Hne].
  - rewrite lookup_alter_eq. destruct (children !! p) as [l|] eqn:Hp.
    + by rewrite Hp.
    + by rewrite lookup_insert_eq.
  - rewrite lookup_alter_ne by done.
    destruct (children !! p); [done|]. by rewrite lookup_insert_ne.
Qed.

Lemma register_parents_with_id (r : row) (k : string) (ps : list string) :
  row_id r = Some k →
  ∀ children,
    register_parents r ps children
    = mret (foldl (λ c p, register_child p k c) children ps).
Proof.
  intros Hk. induction ps as [|p ps IH]; intros children; [done|].
  cbn [register_parents foldl]. rewrite Hk, getitem_Some, bind_mret.
  apply IH.
Qed.

Lemma children_get_foldl (k : string) (ps : list string) :
  ∀ children q,
    children_get (foldl (λ c p, register_child p k c) children ps) q
    = children_get children q ++ ((λ _, k) <$> filter (λ x, x = q) ps).
Proof.
  induction ps as [|p ps IH]; intros children q; cbn [foldl].
  - by rewrite app_nil_r.
  - rewrite IH, children_get_register, filter_cons.
    destruct (decide (q = p)) as [->|Hne].
    + rewrite decide_True by done. by rewrite <- app_assoc.
    + by rewrite decide_False by done.
Qed.

Lemma index_row_links (r : row) (ix : index) (k : string) :
  row_id r = Some k →
  has_parents_key r →
  ∃ ix',
    LangSmith.index_row false r ix = mret ix'
    ∧ ix_roots ix' = ix_roots ix ++ (if declares_parents r then [] else [k])
    ∧ ∀ q, children_get (ix_children ix') q
           = children_get (ix_children ix) q ++ links_to q r.
Proof.
  unfold has_parents_key, LangSmith.index_row, declared_parents, links_to,
    declares_parents.
  intros Hk Hkey. rewrite Hk.
  destruct (span_parents r) as [| |[|p ps]] eqn:Hsp; [done|..].
  - rewrite bind_mret. cbn [row_id set_span_parents].
    rewrite Hk, getitem_Some, bind_mret. eexists. split; [done|].
    split; [done|]. intros q. by rewrite app_nil_r.
  - rewrite bind_mret. cbn [row_id set_span_parents].
    rewrite Hk, getitem_Some, bind_mret. eexists. split; [done|].
    split; [done|]. intros q. by rewrite app_nil_r.
  - rewrite bind_mret, (register_parents_with_id r k (p :: ps) Hk), bind_mret.
    eexists. split; [done|]. cbn [ix_roots ix_children].
    split; [by rewrite app_nil_r|]. intros q. apply children_get_foldl.
Qed.

Lemma index_from_links (rows : list row) :
  Forall (λ r, is_Some (row_id r) ∧ has_parents_key r) rows →
  ∀ ix, ∃ ix',
    LangSmith.index_from false rows ix = mret ix'
    ∧ ix_roots ix'
      = ix_roots ix
        ++ omap row_id (filter (λ r, declares_parents r = false) rows)
    ∧ ∀ q, children_get (ix_children ix') q
           = children_get (ix_children ix) q ++ flat_map (links_to q) rows.
Proof.
  induction 1 as [|r rest [[k Hk] Hkey] _ IH]; intros ix.
  - exists ix. split; [done|]. split; [by rewrite app_nil_r|].
    intros q. by rewrite app_nil_r.
  - destruct (index_row_links r ix k Hk Hkey) as (ix1 & Hrow & Hroots & Hch).
    destruct (IH ix1) as (ix' & Hrest & Hroots' & Hch').
    exists ix'. cbn [LangSmith.index_from]. rewrite Hrow, bind_mret.
    split; [done|]. split.
    + rewrite Hroots', Hroots, filter_cons.
      destruct (declares_parents r); simpl.
      * by rewrite app_nil_r.
      * rewrite Hk. by rewrite <- app_assoc.
    + intros q. rewrite Hch', Hch. cbn [flat_map]. by rewrite <- app_assoc.
Qed.

Lemma omap_id_unique (rows : list row) (r1 r2 : row) (k : string) :
  NoDup (omap row_id rows) →
  r1 ∈ rows → r2 ∈ rows → row_id r1 = Some k → row_id r2 = Some k → r1 = r2.
Proof.
  induction rows as [|r rest IH]; intros Hnd H1 H2 Hk1 Hk2.
  - by apply elem_of_nil in H1.
  - assert (Hin : ∀ x, x ∈ rest → row_id x = Some k → k ∈ omap row_id rest).
    { intros x Hx Hkx. apply list_elem_of_omap. by exists x. }
    apply elem_of_cons in H1 as [->|H1], H2 as [->|H2]; [done|..].
    + simpl in Hnd. rewrite Hk1 in Hnd. apply NoDup_cons in Hnd as [Hn _].
      destruct Hn. by apply (Hin r2).
    + simpl in Hnd. rewrite Hk2 in Hnd. apply NoDup_cons in Hnd as [Hn _].
      destruct Hn. by apply (Hin r1).
    + apply IH; try done. simpl in Hnd. destruct (row_id r); [|done].
      by apply NoDup_cons in Hnd as [_ ?].
Qed.

Lemma index_from_flatten (rows : list row) :
  Forall (λ r, is_Some (row_id r)) rows →
  ∀ ix, ∃ rows',
    LangSmith.index_from true rows ix
    = mret (mkIndex (ix_rows ix ++ rows') (ix_children ix)
                    (ix_roots ix ++ omap row_id rows)).
Proof.
  induction 1 as [|r rest [k Hk] _ IH]; intros ix.
  - exists []. destruct ix. by rewrite !app_nil_r.
  - cbn [LangSmith.index_from]. unfold LangSmith.index_row.
    rewrite bind_mret.
    set (r' := match span_parents r with
               | SpAbsent => r
               | _ => set_span_parents SpAbsent r
               end).
    assert (Hk' : row_id r' = Some k) by (subst r'; by destruct (span_parents r)).
    rewrite Hk', getitem_Some, !bind_mret.
    destruct (IH (mkIndex (ix_rows ix ++ [r']) (ix_children ix)
                          (ix_roots ix ++ [k]))) as [rows' ->].
    exists (r' :: rows'). cbn [ix_rows ix_children ix_roots omap list_omap].
    rewrite Hk. by rewrite <- !app_assoc.
Qed.

(** In flatten mode the LangSmith script makes every record a root, in input
    order, and registers no child, whatever parents the records declare. *)
Lemma langsmith_flatten_all_roots (rows : list row) :
  Forall (λ r, is_Some (row_id r)) rows →
  ∃ ix,
    LangSmith.index_rows true rows = mret ix
    ∧ ix_roots ix = omap row_id rows
    ∧ ix_children ix = ∅.
Proof.
  intros H. destruct (index_from_flatten rows H (mkIndex [] ∅ [])) as [rows' E].
  eexists. split; [exact E|]. done.
Qed.

(** So does the Braintrust script, on records that all carry the key. *)
Lemma braintrust_flatten_all_roots (rows : list row) :
  Forall (λ r, is_Some (row_id r) ∧ has_parents_key r) rows →
  ∃ ix,
    Braintrust.index_rows true rows = mret ix
    ∧ ix_roots ix = omap row_id rows
    ∧ ix_children ix = ∅.
Proof.
  intros H. unfold Braintrust.index_rows. rewrite index_from_agree.
  - apply langsmith_flatten_all_roots. eapply Forall_impl; [exact H|].
    by intros r [? _].
  - eapply Forall_impl; [exact H|]. by intros r [_ ?].
Qed.

(** ** Replay Engine: shape of a successful emission *)

Lemma getitem_Ret_inv {A} (k : string) (o : option A) (a : A)
    (t : list event) :
  getitem k o = (Ret a, t) → o = Some a ∧ t = [].
Proof. destruct o; cbn; intros [= ]; by subst. Qed.

Lemma emit_Ret_inv (ev : event) (a : unit) (t : list event) :
  emit ev = (Ret a, t) → t = [ev].
Proof. unfold emit. by intros [= _ <-]. Qed.

Lemma tree_get_Ret_inv (tree : gmap string nat) (store : list row)
    (n : string) (i : nat) (r : row) (t : list event) :
  tree_get tree store n = (Ret (i, r), t) →
  tree !! n = Some i ∧ store !! i = Some r ∧ t = [].
Proof.
  unfold tree_get. destruct (tree !! n) as [j|]; [|discriminate].
  destruct (store !! j) as [r'|] eqn:Hj; [|discriminate].
  cbn. intros [= ]; by subst.
Qed.

Lemma for_each_Ret_inv {A} (body : A → W unit) (xs : list A)
    (t : list event) :
  for_each body xs = (Ret tt, t) →
  ∃ ts, Forall2 (λ x tx, body x = (Ret tt, tx)) xs ts ∧ t = concat ts.
Proof.
  revert t. induction xs as [|x rest IH]; intros t; cbn [for_each].
  - intros [= <-]. exists []. by split; [constructor|].
  - intros ([] & t1 & t2 & Hx & Hrest & ->)%bind_Ret_inv.
    destruct (IH t2 Hrest) as (ts & Hts & ->).
    exists (t1 :: ts). by split; [constructor|].
Qed.

Lemma with_span_Ret_inv {A} (p : option string) (n name : string)
    (body : W A) (a : A)
    (t : list event) :
  Braintrust.with_span p n name body = (Ret a, t) →
  ∃ tb, body = (Ret a, tb) ∧ t = Open p n name :: tb ++ [Close n].
Proof.
  destruct body as [[a'|e|] tb]; cbn; intros [= ]; subst. by exists tb.
Qed.

Lemma log_child_span_Ret_inv (fuel : nat) (p n : string)
    (children : gmap string (list string)) (tree : gmap string nat)
    (store : list row) (t : list event) :
  Braintrust.log_child_span (S fuel) p n children tree store = (Ret tt, t) →
  ∃ name inp out ts,
    Forall2 (λ c tc, Braintrust.log_child_span fuel n c children tree store
                     = (Ret tt, tc))
            (kids_of children tree store n) ts
    ∧ t = Open (Some p) n name :: Attach n inp out None :: concat ts ++ [Close n].
Proof.
  cbn [Braintrust.log_child_span].
  intros ([i r] & t1 & t2 & (Hn & Hi & ->)%tree_get_Ret_inv & H & ->)%bind_Ret_inv.
  apply bind_Ret_inv in H as (attrs & ? & ? & [_ ->]%getitem_Ret_inv & H & ->).
  apply bind_Ret_inv in H as (name & ? & ? & [_ ->]%getitem_Ret_inv & H & ->).
  apply with_span_Ret_inv in H as (tb & H & ->).
  apply bind_Ret_inv in H as (inp & ? & ? & [_ ->]%getitem_Ret_inv & H & ->).
  apply bind_Ret_inv in H as (out & ? & ? & [_ ->]%getitem_Ret_inv & H & ->).
  apply bind_Ret_inv in H as ([] & ? & ? & ->%emit_Ret_inv & H & ->).
  apply bind_Ret_inv in H as (sid & ? & ? & [Hsid ->]%getitem_Ret_inv & H & ->).
  apply for_each_Ret_inv in H as (ts & Hts & ->).
  exists name, inp, out, ts. split; [|done].
  unfold kids_of. by rewrite Hn, Hi, Hsid.
Qed.

Lemma log_child_run_Ret_inv (fuel : nat) (p n : string)
    (children : gmap string (list string)) (tree : gmap string nat)
    (store : list row) (t : list event) :
  LangSmith.log_child_run (S fuel) p n children tree store = (Ret tt, t) →
  ∃ name inp out ts,
    Forall2 (λ c tc, LangSmith.log_child_run fuel n c children tree store
                     = (Ret tt, tc))
            (kids_of children tree store n) ts
    ∧ t = Open (Some p) n name :: Attach n inp out None :: concat ts ++ [Close n].
Proof.
  cbn [LangSmith.log_child_run].
  intros ([i r] & t1 & t2 & (Hn & Hi & ->)%tree_get_Ret_inv & H & ->)%bind_Ret_inv.
  apply bind_Ret_inv in H as (attrs & ? & ? & [_ ->]%getitem_Ret_inv & H & ->).
  apply bind_Ret_inv in H as (name & ? & ? & [_ ->]%getitem_Ret_inv & H & ->).
  apply bind_Ret_inv in H as (inp & ? & ? & [_ ->]%getitem_Ret_inv & H & ->).
  apply bind_Ret_inv in H as (out & ? & ? & [_ ->]%getitem_Ret_inv & H & ->).
  apply bind_Ret_inv in H as ([] & ? & ? & ->%emit_Ret_inv & H & ->).
  apply bind_Ret_inv in H as ([] & ? & ? & ->%emit_Ret_inv & H & ->).
  apply bind_Ret_inv in H as (sid & ? & ? & [Hsid ->]%getitem_Ret_inv & H & ->).
  apply bind_Ret_inv in H as ([] & ? & ? & H & ->%emit_Ret_inv & ->).
  apply for_each_Ret_inv in H as (ts & Hts & ->).
  exists name, inp, out, ts. split; [|done].
  unfold kids_of. by rewrite Hn, Hi, Hsid.
Qed.

Lemma braintrust_replay_root_Ret_inv (fuel : nat)
    (children : gmap string (list string)) (tree : gmap string nat)
    (store store' : list row) (root : string) (t : list event) :
  Braintrust.replay_root fuel children tree store root = (Ret store', t) →
  ∃ i r md inp out ts,
    tree !! root = Some i ∧ store !! i = Some r ∧ metadata r = Some md
    ∧ store' = tag_model i r md store
    ∧ Forall2 (λ c tc, Braintrust.log_child_span fuel root c children tree
                       store'
                       = (Ret tt, tc))
              (kids_of children tree store root) ts
    ∧ t = Open None root ROOT_SPAN_NAME
          :: Attach root inp out (Some (<["model" := VStr DEFAULT_MODEL]> md))
          :: concat ts ++ [Close root].
Proof.
  unfold Braintrust.replay_root.
  intros ([i r] & t1 & t2 & (Hn & Hi & ->)%tree_get_Ret_inv & H & ->)%bind_Ret_inv.
  apply with_span_Ret_inv in H as (tb & H & ->).
  apply bind_Ret_inv in H as (md & ? & ? & [Hmd ->]%getitem_Ret_inv & H & ->).
  apply bind_Ret_inv in H as (inp & ? & ? & [_ ->]%getitem_Ret_inv & H & ->).
  apply bind_Ret_inv in H as (out & ? & ? & [_ ->]%getitem_Ret_inv & H & ->).
  apply bind_Ret_inv in H as ([] & ? & ? & ->%emit_Ret_inv & H & ->).
  apply bind_Ret_inv in H as (sid & ? & ? & [Hsid ->]%getitem_Ret_inv & H & ->).
  apply bind_Ret_inv in H as ([] & ? & ? & H & [= <- <-] & ->).
  apply for_each_Ret_inv in H as (ts & Hts & ->).
  exists i, r, md, inp, out, ts. cbn [span_id set_metadata] in Hsid.
  repeat (split; [done|]). split.
  - unfold kids_of. by rewrite Hn, Hi, Hsid.
  - cbn. by rewrite !app_nil_r.
Qed.

Lemma langsmith_replay_root_Ret_inv (fuel : nat)
    (children : gmap string (list string)) (tree : gmap string nat)
    (store : list row) (root : string) (t : list event) :
  LangSmith.replay_root fuel children tree store root = (Ret tt, t) →
  ∃ i r md inp out ts,
    tree !! root = Some i ∧ store !! i = Some r ∧ metadata r = Some md
    ∧ Forall2 (λ c tc, LangSmith.log_child_run fuel root c children tree
                       store
                       = (Ret tt, tc))
              (kids_of children tree store root) ts
    ∧ t = Open None root ROOT_RUN_NAME :: Attach root inp out (Some md)
          :: concat ts ++ [Close root].
Proof.
  unfold LangSmith.replay_root.
  intros ([i r] & t1 & t2 & (Hn & Hi & ->)%tree_get_Ret_inv & H & ->)%bind_Ret_inv.
  apply bind_Ret_inv in H as (inp & ? & ? & [_ ->]%getitem_Ret_inv & H & ->).
  apply bind_Ret_inv in H as (out & ? & ? & [_ ->]%getitem_Ret_inv & H & ->).
  apply bind_Ret_inv in H as (md & ? & ? & [Hmd ->]%getitem_Ret_inv & H & ->).
  apply bind_Ret_inv in H as ([] & ? & ? & ->%emit_Ret_inv & H & ->).
  apply bind_Ret_inv in H as ([] & ? & ? & ->%emit_Ret_inv & H & ->).
  apply bind_Ret_inv in H as (sid & ? & ? & [Hsid ->]%getitem_Ret_inv & H & ->).
  apply bind_Ret_inv in H as ([] & ? & ? & H & ->%emit_Ret_inv & ->).
  apply for_each_Ret_inv in H as (ts & Hts & ->).
  exists i, r, md, inp, out, ts. repeat (split; [done|]). split; [|done].
  unfold kids_of. by rewrite Hn, Hi, Hsid.
Qed.

Lemma kids_of_tag_model (children : gmap string (list string))
    (tree : gmap string nat) (store : list row) (i : nat) (r : row)
    (md : gmap string value) (n : string) :
  store !! i = Some r →
  kids_of children tree (tag_model i r md store) n
  = kids_of children tree store n.
Proof.
  intros Hi. unfold kids_of, tag_model.
  destruct (tree !! n) as [j|]; [|done].
  destruct (decide (i = j)) as [->|Hne].
  - rewrite list_lookup_insert_eq by by eapply lookup_lt_Some.
    by rewrite Hi.
  - by rewrite list_lookup_insert_ne.
Qed.

Lemma nested_app (t1 t2 : list event) :
  nested t1 → nested t2 → nested (t1 ++ t2).
Proof.
  induction 1 as [|n inp out md rest _ IH|p n name body rest Hb _ _ IH];
    intros H2; [done|..].
  - cbn. constructor. by apply IH.
  - cbn. rewrite <- app_assoc. cbn. constructor; [done|]. by apply IH.
Qed.

Lemma nested_concat (ts : list (list event)) :
  Forall nested ts → nested (concat ts).
Proof.
  induction 1; cbn; [constructor|]. by apply nested_app.
Qed.

Lemma nested_node (p : option string) (n name : string) (inp out : value)
    (md : option (gmap string value)) (ts : list (list event)) :
  Forall nested ts →
  nested (Open p n name :: Attach n inp out md :: concat ts ++ [Close n]).
Proof.
  intros Hts.
  change (nested (Open p n name :: (Attach n inp out md :: concat ts)
                  ++ Close n :: [])).
  constructor; [|constructor]. constructor. by apply nested_concat.
Qed.

Lemma Forall2_split_l {A B} (P : A → B → Prop) (Q : B → Prop)
    (R : A → B → Prop) (xs : list A) (ys : list B) :
  (∀ x y, P x y → R x y ∧ Q y) →
  Forall2 P xs ys → Forall2 R xs ys ∧ Forall Q ys.
Proof.
  intros HP. induction 1 as [|x y xs ys Hxy _ [IH1 IH2]]; [by split|].
  destruct (HP x y Hxy). split; by constructor.
Qed.

Lemma log_child_span_dfs (kids : string → list string)
    (children : gmap string (list string)) (tree : gmap string nat)
    (store : list row) :
  (∀ n, kids_of children tree store n = kids n) →
  ∀ fuel p n t,
    Braintrust.log_child_span fuel p n children tree store = (Ret tt, t) →
    dfs kids (Some p) n t ∧ nested t.
Proof.
  intros Hkids. induction fuel as [|fuel IH]; intros p n t; [discriminate|].
  intros (name & inp & out & ts & Hts & ->)%log_child_span_Ret_inv.
  rewrite Hkids in Hts.
  apply (Forall2_split_l _ nested (dfs kids (Some n))) in Hts as [Hd Hn];
    [|intros c tc; apply IH].
  split; [by constructor|by apply nested_node].
Qed.

Lemma log_child_run_dfs (children : gmap string (list string))
    (tree : gmap string nat) (store : list row) :
  ∀ fuel p n t,
    LangSmith.log_child_run fuel p n children tree store = (Ret tt, t) →
    dfs (kids_of children tree store) (Some p) n t ∧ nested t.
Proof.
  induction fuel as [|fuel IH]; intros p n t; [discriminate|].
  intros (name & inp & out & ts & Hts & ->)%log_child_run_Ret_inv.
  apply (Forall2_split_l _ nested (dfs (kids_of children tree store) (Some n)))
    in Hts as [Hd Hn]; [|intros c tc; apply IH].
  split; [by constructor|by apply nested_node].
Qed.

Lemma braintrust_replay_root_dfs (fuel : nat)
    (children : gmap string (list string)) (tree : gmap string nat)
    (store store' : list row) (root : string) (t : list event) :
  Braintrust.replay_root fuel children tree store root = (Ret store', t) →
  dfs (kids_of children tree store) None root t ∧ nested t.
Proof.
  intros (i & r & md & inp & out & ts & Hn & Hi & Hmd & -> & Hts & ->)
    %braintrust_replay_root_Ret_inv.
  apply (Forall2_split_l _ nested
           (dfs (kids_of children tree store) (Some root)))
    in Hts as [Hd Hnest].
  - split; [by constructor|by apply nested_node].
  - intros c tc. apply log_child_span_dfs. intros n.
    by apply kids_of_tag_model.
Qed.

Lemma langsmith_replay_root_dfs (fuel : nat)
    (children : gmap string (list string)) (tree : gmap string nat)
    (store : list row) (root : string) (t : list event) :
  LangSmith.replay_root fuel children tree store root = (Ret tt, t) →
  dfs (kids_of children tree store) None root t ∧ nested t.
Proof.
  intros (i & r & md & inp & out & ts & Hn & Hi & Hmd & Hts & ->)
    %langsmith_replay_root_Ret_inv.
  apply (Forall2_split_l _ nested
           (dfs (kids_of children tree store) (Some root)))
    in Hts as [Hd Hnest].
  - split; [by constructor|by apply nested_node].
  - intros c tc. apply log_child_run_dfs.
Qed.

(** ** Flush Governor *)




Lemma div_succ (B i : Z) :
  (1 ≤ B)%Z → (0 ≤ i)%Z →
  ((i + 1) / B = i / B + (if decide ((i + 1) mod B = 0) then 1 else 0))%Z.
Proof.
  intros HB Hi.
  pose proof (Z.div_mod i B ltac:(lia)) as Hdm.
  pose proof (Z.mod_pos_bound i B ltac:(lia)) as Hr.
  destruct (decide (i mod B + 1 = B)%Z) as [Heq|Hne].
  - assert (Hm : ((i + 1) mod B = 0)%Z).
    { symmetry. apply (Z.mod_unique _ _ (i / B + 1)); lia. }
    rewrite decide_True by done.
    symmetry. apply (Z.div_unique _ _ _ 0); lia.
  - assert (Hm : ((i + 1) mod B = i mod B + 1)%Z).
    { symmetry. apply (Z.mod_unique _ _ (i / B)); lia. }
    rewrite decide_False by lia.
    symmetry. apply (Z.div_unique _ _ _ (i mod B + 1)); lia.
Qed.









(** The two scripts run on a one-line trace file with [-n 2 -b 2]. *)
Lemma braintrust_two_iterations :
  Braintrust.main sample_loads 1 two_iterations_env
  = (Ret tt,
     [LoadDotenv; PathExists TRACE_FILE; Login; OpenFile TRACE_FILE;
      LogInfo (InfoRoots 1); InitLogger PROJECT_NAME;
      Open None "a" ROOT_SPAN_NAME; Attach "a" VNull VNull (Some tagged); Close "a";
      LogInfo (InfoIteration 1 2);
      Open None "a" ROOT_SPAN_NAME; Attach "a" VNull VNull (Some tagged); Close "a";
      LogInfo (InfoIteration 2 2);
      Flush; LogInfo InfoTotal]).
Proof. by vm_compute. Qed.

Lemma langsmith_two_iterations :
  LangSmith.main sample_loads 1 two_iterations_env
  = (Ret tt,
     [LoadDotenv; PathExists TRACE_FILE; SetEnviron; OpenFile TRACE_FILE;
      LogInfo (InfoRoots 1); ClientInit;
      Open None "a" ROOT_RUN_NAME; Attach "a" VNull VNull (Some ∅); Close "a";
      Flush; LogInfo (InfoIteration 1 2);
      Open None "a" ROOT_RUN_NAME; Attach "a" VNull VNull (Some ∅); Close "a";
      Flush; LogInfo (InfoIteration 2 2);
      LogInfo InfoTotal]).
Proof. by vm_compute. Qed.

(** ** Termination of the recursive emission *)

Lemma bind_returns {A B} (m : W A) (k : A → W B) :
  fst m ≠ OutOfFuel →
  (∀ a t, m = (Ret a, t) → fst (k a) ≠ OutOfFuel) →
  fst (m ≫= k) ≠ OutOfFuel.
Proof.
  destruct m as [[a| |] t]; intros Hm Hk; [|done|done].
  rewrite bind_Ret. cbn [fst]. by eapply Hk.
Qed.

Lemma getitem_returns {A} (k : string) (o : option A) :
  fst (getitem k o) ≠ OutOfFuel.
Proof. by destruct o. Qed.

Lemma tree_get_returns (tree : gmap string nat) (store : list row)
    (n : string) :
  fst (tree_get tree store n) ≠ OutOfFuel.
Proof.
  unfold tree_get. destruct (tree !! n) as [i|]; [|done].
  by destruct (store !! i).
Qed.

Lemma for_each_returns {A} (body : A → W unit) (xs : list A) :
  (∀ x, x ∈ xs → fst (body x) ≠ OutOfFuel) →
  fst (for_each body xs) ≠ OutOfFuel.
Proof.
  induction xs as [|x rest IH]; intros H; [done|]. cbn [for_each].
  apply bind_returns.
  - apply H. by left.
  - intros _ _ _. apply IH. intros y Hy. apply H. by right.
Qed.

Lemma with_span_returns {A} (p : option string) (n name : string)
    (body : W A) :
  fst body ≠ OutOfFuel → fst (Braintrust.with_span p n name body) ≠ OutOfFuel.
Proof. by destruct body as [[a|e|] t]. Qed.

(** The nodes not yet on the path from the start node bound the fuel that
    is needed: every node on the path reaches the current node, so an
    acyclic edge relation never brings the recursion back onto the path. *)
Lemma path_shrinks (children : gmap string (list string))
    (tree : gmap string nat) (store : list row) (visited : gset string)
    (n : string) (fuel : nat) :
  acyclic children tree store →
  (∀ w, w ∈ visited → tc (edge children tree store) w n) →
  is_Some (tree !! n) →
  size (dom tree ∖ visited) < S fuel →
  (∀ c, c ∈ kids_of children tree store n →
        ∀ w, w ∈ visited ∪ {[n]} → tc (edge children tree store) w c)
  ∧ size (dom tree ∖ (visited ∪ {[n]})) < fuel.
Proof.
  intros Hacyc Hvis Hn Hsize. split.
  - intros c Hc w [Hw| ->%elem_of_singleton]%elem_of_union.
    + eapply tc_r; [by apply Hvis|exact Hc].
    + by apply tc_once.
  - assert (Hnv : n ∉ visited).
    { intros Hin. eapply Hacyc. by apply Hvis. }
    assert (Hdom : n ∈ dom tree) by by apply elem_of_dom.
    assert (dom tree ∖ (visited ∪ {[n]}) ⊂ dom tree ∖ visited) as Hsub.
    { split.
      - intros x [Hd Hnot]%elem_of_difference. apply elem_of_difference.
        split; [done|]. intros Hv. apply Hnot, elem_of_union. by left.
      - intros Hsup.
        assert (n ∈ dom tree ∖ (visited ∪ {[n]})) as [_ Hnot]%elem_of_difference
          by by apply Hsup, elem_of_difference.
        apply Hnot, elem_of_union. right. by apply elem_of_singleton. }
    apply subset_size in Hsub. lia.
Qed.

Lemma log_child_span_returns (children : gmap string (list string))
    (tree : gmap string nat) (store store2 : list row) :
  acyclic children tree store →
  (∀ n, kids_of children tree store2 n = kids_of children tree store n) →
  ∀ fuel (visited : gset string) p n,
    (∀ w, w ∈ visited → tc (edge children tree store) w n) →
    size (dom tree ∖ visited) < fuel →
    fst (Braintrust.log_child_span fuel p n children tree store2) ≠ OutOfFuel.
Proof.
  intros Hacyc Hkids. induction fuel as [|fuel IH]; intros visited p n Hvis Hsize;
    [lia|].
  cbn [Braintrust.log_child_span].
  apply bind_returns; [apply tree_get_returns|].
  intros [i r] t (Hn & Hi & _)%tree_get_Ret_inv.
  apply bind_returns; [apply getitem_returns|]. intros attrs _ _.
  apply bind_returns; [apply getitem_returns|]. intros name _ _.
  apply with_span_returns.
  apply bind_returns; [apply getitem_returns|]. intros inp _ _.
  apply bind_returns; [apply getitem_returns|]. intros out _ _.
  apply bind_returns; [done|]. intros _ _ _.
  apply bind_returns; [apply getitem_returns|].
  intros sid t' [Hsid _]%getitem_Ret_inv.
  destruct (path_shrinks children tree store visited n fuel Hacyc Hvis
              ltac:(by eexists) Hsize) as [Hreach Hless].
  apply for_each_returns. intros c Hc.
  apply (IH (visited ∪ {[n]})); [|exact Hless].
  apply Hreach. rewrite <- Hkids. unfold kids_of. by rewrite Hn, Hi, Hsid.
Qed.

Lemma log_child_run_returns (children : gmap string (list string))
    (tree : gmap string nat) (store : list row) :
  acyclic children tree store →
  ∀ fuel (visited : gset string) p n,
    (∀ w, w ∈ visited → tc (edge children tree store) w n) →
    size (dom tree ∖ visited) < fuel →
    fst (LangSmith.log_child_run fuel p n children tree store) ≠ OutOfFuel.
Proof.
  intros Hacyc. induction fuel as [|fuel IH]; intros visited p n Hvis Hsize;
    [lia|].
  cbn [LangSmith.log_child_run].
  apply bind_returns; [apply tree_get_returns|].
  intros [i r] t (Hn & Hi & _)%tree_get_Ret_inv.
  apply bind_returns; [apply getitem_returns|]. intros attrs _ _.
  apply bind_returns; [apply getitem_returns|]. intros name _ _.
  apply bind_returns; [apply getitem_returns|]. intros inp _ _.
  apply bind_returns; [apply getitem_returns|]. intros out _ _.
  apply bind_returns; [done|]. intros _ _ _.
  apply bind_returns; [done|]. intros _ _ _.
  apply bind_returns; [apply getitem_returns|].
  intros sid t' [Hsid _]%getitem_Ret_inv.
  destruct (path_shrinks children tree store visited n fuel Hacyc Hvis
              ltac:(by eexists) Hsize) as [Hreach Hless].
  apply bind_returns; [|done].
  apply for_each_returns. intros c Hc.
  apply (IH (visited ∪ {[n]})); [|exact Hless].
  apply Hreach. unfold kids_of. by rewrite Hn, Hi, Hsid.
Qed.

Lemma size_dom_minus_empty (tree : gmap string nat) :
  size (dom tree ∖ (∅ : gset string)) = size tree.
Proof. rewrite difference_empty_L. apply size_dom. Qed.

Lemma acyclic_of_rank (children : gmap string (list string))
    (tree : gmap string nat) (store : list row) (rank : string → nat) :
  (∀ u v, edge children tree store u v → rank v < rank u) →
  acyclic children tree store.
Proof.
  intros Hrank u Hu.
  assert (H : ∀ x y, tc (edge children tree store) x y → rank y < rank x).
  { induction 1 as [x y Hxy|x y z Hxy _ IH].
    - by apply Hrank.
    - apply Hrank in Hxy. lia. }
  apply H in Hu. lia.
Qed.

Lemma chain_acyclic :
  acyclic chain_children chain_tree (ix_rows chain_index).
Proof.
  apply (acyclic_of_rank _ _ _ chain_rank). intros u v. unfold edge, kids_of.
  destruct (decide (u = "A")) as [->|HA].
  { vm_compute. intros ->%list_elem_of_singleton. lia. }
  destruct (decide (u = "B")) as [->|HB].
  { vm_compute. intros ->%list_elem_of_singleton. lia. }
  destruct (decide (u = "C")) as [->|HC].
  { vm_compute. by intros ?%elem_of_nil. }
  unfold chain_tree. rewrite !lookup_insert_ne, lookup_empty by done.
  by intros ?%elem_of_nil.
Qed.

Lemma fst_bind_Ret {A B} (a : A) (t : list event) (k : A → W B) :
  fst ((Ret a, t) ≫= k) = fst (k a).
Proof. by rewrite bind_Ret. Qed.

Lemma fst_bind_OutOfFuel {A B} (m : W A) (k : A → W B) :
  fst m = OutOfFuel → fst (m ≫= k) = OutOfFuel.
Proof. destruct m as [o t]. cbn [fst]. by intros ->. Qed.

Lemma fst_with_span {A} (p : option string) (n name : string)
    (body : W A) :
  fst (Braintrust.with_span p n name body) = fst body.
Proof. by destruct body as [[a|e|] t]. Qed.

(** No cycle guard: on a record registered as its own child the recursion
    exhausts every bound. *)
Lemma cyclic_emission_never_returns (fuel : nat) :
  fst (Braintrust.log_child_span fuel "x" "x" loop_children loop_tree
         loop_rows)
  = OutOfFuel
  ∧ fst (LangSmith.log_child_run fuel "x" "x" loop_children loop_tree
           loop_rows)
    = OutOfFuel.
Proof.
  assert (Hget : tree_get loop_tree loop_rows "x"
                 = (Ret (0, sample_row "x" (SpList ["x"])), []))
    by reflexivity.
  assert (Hkids : children_get loop_children "x" = ["x"]) by reflexivity.
  induction fuel as [|fuel [IHbt IHls]]; [done|]. split.
  - cbn [Braintrust.log_child_span]. rewrite Hget.
    unfold emit, getitem, mret, W_ret.
    repeat first
      [ rewrite fst_bind_Ret | rewrite fst_with_span
      | progress cbn [sample_row span_attributes attr_name input output
                      span_id] ].
    rewrite Hkids. cbn [for_each]. by apply fst_bind_OutOfFuel.
  - cbn [LangSmith.log_child_run]. rewrite Hget.
    unfold emit, getitem, mret, W_ret.
    repeat first
      [ rewrite fst_bind_Ret
      | progress cbn [sample_row span_attributes attr_name input output
                      span_id] ].
    rewrite Hkids. cbn [for_each].
    apply fst_bind_OutOfFuel. by apply fst_bind_OutOfFuel.
Qed.

(** ** A larger recursion bound does not change a result *)

Lemma extends_refl {A} (m : W A) : extends m m.
Proof. by intros _. Qed.

Lemma extends_bind {A B} (m : W A) (k1 k2 : A → W B) :
  (∀ a, extends (k1 a) (k2 a)) → extends (m ≫= k1) (m ≫= k2).
Proof.
  intros Hk. destruct m as [[a| |] t]; [|done|done].
  rewrite !bind_Ret. cbn [fst]. intros H. by rewrite (Hk a H).
Qed.

Lemma extends_bind_l {A B} (m1 m2 : W A) (k : A → W B) :
  extends m1 m2 → extends (m1 ≫= k) (m2 ≫= k).
Proof.
  intros Hm H. rewrite Hm; [done|].
  intros Hfuel. apply H. by apply fst_bind_OutOfFuel.
Qed.

Lemma extends_with_span {A} (p : option string) (n name : string)
    (b1 b2 : W A) :
  extends b1 b2 →
  extends (Braintrust.with_span p n name b1) (Braintrust.with_span p n name b2).
Proof. intros Hb H. rewrite fst_with_span in H. by rewrite (Hb H). Qed.

Lemma extends_for_each {A} (f1 f2 : A → W unit) (xs : list A) :
  (∀ x, extends (f1 x) (f2 x)) → extends (for_each f1 xs) (for_each f2 xs).
Proof.
  intros Hf. induction xs as [|x rest IH]; [done|]. cbn [for_each].
  intros H.
  assert (Hx : fst (f1 x) ≠ OutOfFuel).
  { intros Hfuel. apply H. by apply fst_bind_OutOfFuel. }
  rewrite (Hf x Hx). by apply extends_bind.
Qed.

Lemma log_child_span_fuel_mono (children : gmap string (list string))
    (tree : gmap string nat) (store : list row) :
  ∀ fuel p n,
    extends (Braintrust.log_child_span fuel p n children tree store)
            (Braintrust.log_child_span (S fuel) p n children tree store).
Proof.
  induction fuel as [|fuel IH]; intros p n; [by intros H|].
  change (Braintrust.log_child_span (S (S fuel)) p n children tree store)
    with (
      '(_, child_row) ← tree_get tree store n;
      attrs ← getitem "span_attributes" (span_attributes child_row);
      name ← getitem "name" (attr_name attrs);
      Braintrust.with_span (Some p) n name (
        inp ← getitem "input" (input child_row);
        out ← getitem "output" (output child_row);
        emit (Attach n inp out None);;
        sid ← getitem "span_id" (span_id child_row);
        for_each
          (λ child_id,
             Braintrust.log_child_span (S fuel) n child_id children tree store)
          (children_get children sid))).
  cbn [Braintrust.log_child_span].
  apply extends_bind. intros [i r].
  apply extends_bind. intros attrs. apply extends_bind. intros name.
  apply extends_with_span.
  apply extends_bind. intros inp. apply extends_bind. intros out.
  apply extends_bind. intros _. apply extends_bind. intros sid.
  apply extends_for_each. intros c. apply IH.
Qed.

Lemma log_child_run_fuel_mono (children : gmap string (list string))
    (tree : gmap string nat) (store : list row) :
  ∀ fuel p n,
    extends (LangSmith.log_child_run fuel p n children tree store)
            (LangSmith.log_child_run (S fuel) p n children tree store).
Proof.
  induction fuel as [|fuel IH]; intros p n; [by intros H|].
  change (LangSmith.log_child_run (S (S fuel)) p n children tree store)
    with (
      '(_, child_row) ← tree_get tree store n;
      attrs ← getitem "span_attributes" (span_attributes child_row);
      name ← getitem "name" (attr_name attrs);
      inp ← getitem "input" (input child_row);
      out ← getitem "output" (output child_row);
      emit (Open (Some p) n name);;
      emit (Attach n inp out None);;
      sid ← getitem "span_id" (span_id child_row);
      for_each
        (λ child_id,
           LangSmith.log_child_run (S fuel) n child_id children tree store)
        (children_get children sid);;
      emit (Close n)).
  cbn [LangSmith.log_child_run].
  apply extends_bind. intros [i r].
  apply extends_bind. intros attrs. apply extends_bind. intros name.
  apply extends_bind. intros inp. apply extends_bind. intros out.
  apply extends_bind. intros _. apply extends_bind. intros _.
  apply extends_bind. intros sid.
  apply extends_bind_l. apply extends_for_each. intros c. apply IH.
Qed.

(** ** Metadata of replayed records *)

Lemma build_tree_from_ok (rows : list row) :
  ∀ i tree0 tree t,
    build_tree_from i rows tree0 = (Ret tree, t) →
    ∀ k j, tree !! k = Some j →
           tree0 !! k = Some j
           ∨ (i ≤ j ∧ ∃ r, rows !! (j - i) = Some r ∧ row_id r = Some k).
Proof.
  induction rows as [|r rest IH]; intros i tree0 tree t;
    cbn [build_tree_from].
  - intros [= <- _] k j Hk. by left.
  - intros (k0 & ? & t2 & [Hid ->]%getitem_Ret_inv & H & ->)%bind_Ret_inv k j Hk.
    destruct (IH _ _ _ _ H k j Hk) as [Hins|(Hle & r' & Hr' & Hid')].
    + apply lookup_insert_Some in Hins as [[<- <-]|[_ Hold]]; [|by left].
      right. split; [lia|]. exists r. by rewrite Nat.sub_diag.
    + right. split; [lia|]. exists r'. split; [|done].
      by replace (j - i) with (S (j - S i)) by lia.
Qed.

Lemma build_tree_ok (rows : list row) (tree : gmap string nat)
    (t : list event) :
  build_tree rows = (Ret tree, t) → tree_ok tree rows.
Proof.
  intros H k j Hk.
  destruct (build_tree_from_ok rows 0 ∅ tree t H k j Hk)
    as [Hempty|(_ & r & Hr & Hid)]; [by rewrite lookup_empty in Hempty|].
  exists r. by rewrite Nat.sub_0_r in Hr.
Qed.

Lemma tree_ok_same_ids (tree : gmap string nat) (store store' : list row) :
  row_id <$> store' = row_id <$> store →
  tree_ok tree store → tree_ok tree store'.
Proof.
  intros Hids Hok k j Hk. destruct (Hok k j Hk) as (r & Hr & Hid).
  assert (Hj : (row_id <$> store') !! j = Some (Some k))
    by by rewrite Hids, list_lookup_fmap, Hr, <- Hid.
  rewrite list_lookup_fmap in Hj.
  destruct (store' !! j) as [r'|]; [|done]. exists r'.
  split; [done|]. by injection Hj.
Qed.

Lemma braintrust_index_row_ids (flatten : bool) (r : row) (ix ix' : index)
    (t : list event) :
  Braintrust.index_row flatten r ix = (Ret ix', t) →
  ∃ r', ix_rows ix' = ix_rows ix ++ [r'] ∧ row_id r' = row_id r.
Proof.
  unfold Braintrust.index_row.
  intros (cond & ? & ? & _ & H & ->)%bind_Ret_inv.
  destruct cond as [ps|].
  - apply bind_Ret_inv in H as (ch & ? & ? & _ & [= <- _] & ->). by exists r.
  - apply bind_Ret_inv in H as ([] & ? & ? & _ & H & ->).
    apply bind_Ret_inv in H as (rid & ? & ? & _ & [= <- _] & ->).
    by exists (set_span_parents SpAbsent r).
Qed.

Lemma braintrust_index_from_ids (flatten : bool) (rows : list row) :
  ∀ ix ix' t,
    Braintrust.index_from flatten rows ix = (Ret ix', t) →
    row_id <$> ix_rows ix' = (row_id <$> ix_rows ix) ++ (row_id <$> rows).
Proof.
  induction rows as [|r rest IH]; intros ix ix' t;
    cbn [Braintrust.index_from].
  - intros [= <- _]. by rewrite app_nil_r.
  - intros (ix1 & ? & ? & (r' & Hrows & Hid)%braintrust_index_row_ids & H & ->)
      %bind_Ret_inv.
    rewrite (IH _ _ _ H), Hrows, fmap_app. cbn. rewrite Hid.
    by rewrite <- app_assoc.
Qed.

(** The tree built from the parsed rows addresses the row objects that the
    Braintrust indexing leaves behind. *)
Lemma braintrust_indexed_tree_ok (flatten : bool) (rows : list row)
    (tree : gmap string nat) (ix : index) :
  build_tree rows = mret tree →
  Braintrust.index_rows flatten rows = mret ix →
  tree_ok tree (ix_rows ix).
Proof.
  intros Htree Hix. apply (tree_ok_same_ids tree rows).
  - by rewrite (braintrust_index_from_ids _ _ _ _ _ Hix).
  - by eapply build_tree_ok.
Qed.

Lemma tag_model_tree_ok (tree : gmap string nat) (store : list row)
    (i : nat) (r : row) (md : gmap string value) :
  store !! i = Some r →
  tree_ok tree store → tree_ok tree (tag_model i r md store).
Proof.
  intros Hi. apply tree_ok_same_ids. unfold tag_model.
  rewrite list_fmap_insert. cbn [row_id set_metadata].
  apply list_insert_id. by rewrite list_lookup_fmap, Hi.
Qed.

Lemma tag_model_frame (tree : gmap string nat) (store : list row)
    (roots : list string) (root : string) (i : nat) (r0 : row)
    (md : gmap string value) :
  tree_ok tree store → tree !! root = Some i → store !! i = Some r0 →
  root ∈ roots →
  ∀ j r, store !! j = Some r → off_roots roots r →
         tag_model i r0 md store !! j = Some r.
Proof.
  intros Hok Hroot Hi Hin j r Hj Hoff. unfold tag_model.
  destruct (decide (i = j)) as [->|Hne]; [|by rewrite list_lookup_insert_ne].
  destruct (Hok root j Hroot) as (r' & Hr' & Hid).
  assert (r' = r) as -> by congruence. by destruct (Hoff root Hid).
Qed.

Lemma Forall_concat_Forall2 {A} (P : event → Prop) (Q : A → list event → Prop)
    (xs : list A) (ts : list (list event)) :
  (∀ x t, Q x t → Forall P t) → Forall2 Q xs ts → Forall P (concat ts).
Proof.
  intros HQ. induction 1 as [|x t xs ts Hxt _ IH]; cbn; [constructor|].
  apply Forall_app. split; [by eapply HQ|exact IH].
Qed.

Lemma log_child_span_attach_tagged (children : gmap string (list string))
    (tree : gmap string nat) (store : list row) :
  ∀ fuel p n t,
    Braintrust.log_child_span fuel p n children tree store = (Ret tt, t) →
    Forall attach_tagged t.
Proof.
  induction fuel as [|fuel IH]; intros p n t; [discriminate|].
  intros (name & inp & out & ts & Hts & ->)%log_child_span_Ret_inv.
  repeat (constructor; [done|]). apply Forall_app. split.
  - eapply Forall_concat_Forall2; [|exact Hts]. apply IH.
  - by repeat constructor.
Qed.

(** One Braintrust root step: what it emits first, what it does to the row
    objects, and that it keeps [tree] and the row objects in step. *)
Lemma braintrust_root_step (fuel : nat)
    (children : gmap string (list string)) (tree : gmap string nat)
    (store store' : list row) (root : string) (t : list event) :
  tree_ok tree store →
  Braintrust.replay_root fuel children tree store root = (Ret store', t) →
  (∃ i r md inp out rest,
     tree !! root = Some i ∧ store !! i = Some r ∧ row_id r = Some root
     ∧ metadata r = Some md
     ∧ t = Open None root ROOT_SPAN_NAME
           :: Attach root inp out (Some (<["model" := VStr DEFAULT_MODEL]> md))
           :: rest
     ∧ store' = tag_model i r md store)
  ∧ Forall attach_tagged t
  ∧ tree_ok tree store'.
Proof.
  intros Hok (i & r & md & inp & out & ts & Hn & Hi & Hmd & -> & Hts & ->)
    %braintrust_replay_root_Ret_inv.
  destruct (Hok root i Hn) as (r' & Hr' & Hid).
  assert (r' = r) as -> by congruence.
  split; [|split].
  - by exists i, r, md, inp, out, (concat ts ++ [Close root]).
  - constructor; [done|]. constructor; [apply lookup_insert_eq|].
    apply Forall_app. split; [|by repeat constructor].
    eapply Forall_concat_Forall2; [|exact Hts].
    intros c tc. apply log_child_span_attach_tagged.
  - by apply tag_model_tree_ok.
Qed.

Lemma braintrust_replay_roots_frame (fuel : nat) (batch : option Z)
    (children : gmap string (list string)) (tree : gmap string nat)
    (roots rest : list string) :
  rest ⊆ roots →
  ∀ idx store store' t,
    tree_ok tree store →
    Braintrust.replay_roots fuel batch children tree idx rest store
    = (Ret store', t) →
    tree_ok tree store'
    ∧ Forall attach_tagged t
    ∧ ∀ j r, store !! j = Some r → off_roots roots r → store' !! j = Some r.
Proof.
  induction rest as [|root rest IH]; intros Hsub idx store store' t Hok;
    cbn [Braintrust.replay_roots].
  - intros [= <- <-]. by repeat split.
  - intros (store1 & t1 & t2 & Hroot & H & ->)%bind_Ret_inv.
    apply bind_Ret_inv in H as ([] & tf & t3 & Hflush & H & ->).
    destruct (braintrust_root_step _ _ _ _ _ _ _ Hok Hroot)
      as ((i & r0 & md & inp & out & tl & Hn & Hi & _ & _ & _ & ->)
          & Htag1 & Hok1).
    assert (Hsub' : rest ⊆ roots).
    { intros x Hx. apply Hsub. by right. }
    destruct (IH Hsub' _ _ _ _ Hok1 H) as (Hok' & Htag3 & Hframe).
    split; [exact Hok'|]. split.
    + apply Forall_app. split; [exact Htag1|]. apply Forall_app.
      split; [|exact Htag3].
      destruct (flush_due batch idx);
        [apply emit_Ret_inv in Hflush as ->|injection Hflush as <-];
        by repeat constructor.
    + intros j r Hj Hoff. apply Hframe; [|exact Hoff].
      eapply tag_model_frame; try done. apply Hsub. by left.
Qed.

Lemma braintrust_replay_iterations_frame (fuel : nat) (a : args)
    (children : gmap string (list string)) (tree : gmap string nat)
    (roots : list string) :
  ∀ n i store store' t,
    tree_ok tree store →
    Braintrust.replay_iterations fuel a children tree roots n i store
    = (Ret store', t) →
    tree_ok tree store'
    ∧ Forall attach_tagged t
    ∧ ∀ j r, store !! j = Some r → off_roots roots r → store' !! j = Some r.
Proof.
  induction n as [|n IH]; intros i store store' t Hok;
    cbn [Braintrust.replay_iterations].
  - intros [= <- <-]. by repeat split.
  - intros (store1 & t1 & t2 & Hroots & H & ->)%bind_Ret_inv.
    apply bind_Ret_inv in H as ([] & ? & t3 & ->%emit_Ret_inv & H & ->).
    destruct (braintrust_replay_roots_frame fuel (batch_size a) children tree
                roots roots ltac:(done) _ _ _ _ Hok Hroots)
      as (Hok1 & Htag1 & Hframe1).
    destruct (IH _ _ _ _ Hok1 H) as (Hok' & Htag3 & Hframe3).
    split; [exact Hok'|]. split.
    + apply Forall_app. split; [exact Htag1|]. by constructor.
    + intros j r Hj Hoff. apply Hframe3; [|exact Hoff]. by apply Hframe1.
Qed.

Lemma braintrust_replay_frame (fuel : nat) (a : args)
    (tree : gmap string nat) (ix : index) (store' : list row)
    (t : list event) :
  tree_ok tree (ix_rows ix) →
  Braintrust.replay fuel a tree ix = (Ret store', t) →
  Forall attach_tagged t
  ∧ ∀ j r, ix_rows ix !! j = Some r → off_roots (ix_roots ix) r →
           store' !! j = Some r.
Proof.
  intros Hok. unfold Braintrust.replay.
  intros ([] & ? & ? & ->%emit_Ret_inv & H & ->)%bind_Ret_inv.
  apply bind_Ret_inv in H as ([] & ? & ? & ->%emit_Ret_inv & H & ->).
  apply bind_Ret_inv in H as (store1 & t1 & ? & H & H' & ->).
  apply bind_Ret_inv in H' as ([] & ? & ? & ->%emit_Ret_inv & H' & ->).
  apply bind_Ret_inv in H' as ([] & ? & ? & ->%emit_Ret_inv & [= <- <-] & ->).
  destruct (braintrust_replay_iterations_frame _ _ _ _ _ _ _ _ _ _ Hok H)
    as (_ & Htag & Hframe).
  split; [|exact Hframe].
  repeat (constructor; [done|]). apply Forall_app. split; [exact Htag|].
  by repeat constructor.
Qed.

(** ** Replay Engine: runs that return *)

Lemma succeeds_bind {A B} (m : W A) (k : A → W B) :
  succeeds m → (∀ a t, m = (Ret a, t) → succeeds (k a)) → succeeds (m ≫= k).
Proof.
  intros (a & t & ->) Hk. destruct (Hk a t eq_refl) as (b & t' & Hb).
  exists b, (t ++ t'). by rewrite bind_Ret, Hb.
Qed.

Lemma succeeds_mret {A} (a : A) : succeeds (mret a : W A).
Proof. by exists a, []. Qed.

Lemma succeeds_emit (ev : event) : succeeds (emit ev).
Proof. by exists tt, [ev]. Qed.

Lemma succeeds_getitem {A} (k : string) (o : option A) :
  is_Some o → succeeds (getitem k o).
Proof. intros [a ->]. apply succeeds_mret. Qed.

Lemma succeeds_with_span {A} (p : option string) (n name : string)
    (body : W A) :
  succeeds body → succeeds (Braintrust.with_span p n name body).
Proof. intros (a & t & ->). by eexists _, _. Qed.

Lemma succeeds_for_each {A} (body : A → W unit) (xs : list A) :
  (∀ x, x ∈ xs → succeeds (body x)) → succeeds (for_each body xs).
Proof.
  induction xs as [|x rest IH]; intros H; [apply succeeds_mret|].
  cbn [for_each]. apply succeeds_bind; [apply H; by left|].
  intros _ _ _. apply IH. intros y Hy. apply H. by right.
Qed.

Lemma succeeds_tree_get (tree : gmap string nat) (store : list row)
    (n : string) (i : nat) (r : row) :
  tree !! n = Some i → store !! i = Some r →
  tree_get tree store n = mret (i, r).
Proof. intros Hn Hi. unfold tree_get. by rewrite Hn, Hi. Qed.

Lemma log_child_span_succeeds (children : gmap string (list string))
    (tree : gmap string nat) (store : list row) (roots : list string) :
  acyclic children tree store →
  replayable children tree store roots →
  ∀ fuel (visited : gset string) p n,
    (∀ w, w ∈ visited → tc (edge children tree store) w n) →
    size (dom tree ∖ visited) < fuel →
    is_Some (tree !! n) →
    succeeds (Braintrust.log_child_span fuel p n children tree store).
Proof.
  intros Hacyc (Hrows & Hkids & _).
  induction fuel as [|fuel IH]; intros visited p n Hvis Hsize [i Hn]; [lia|].
  destruct (Hrows n i Hn)
    as (r & Hi & [sid Hsid] & (attrs & Hattrs & [name Hname]) & [inp Hinp]
        & [out Hout]).
  cbn [Braintrust.log_child_span].
  rewrite (succeeds_tree_get tree store n i r Hn Hi), bind_mret.
  rewrite Hattrs, getitem_Some, bind_mret, Hname, getitem_Some, bind_mret.
  apply succeeds_with_span.
  rewrite Hinp, getitem_Some, bind_mret, Hout, getitem_Some, bind_mret.
  apply succeeds_bind; [apply succeeds_emit|]. intros _ _ _.
  rewrite Hsid, getitem_Some, bind_mret.
  destruct (path_shrinks children tree store visited n fuel Hacyc Hvis
              ltac:(by eexists) Hsize) as [Hreach Hless].
  apply succeeds_for_each. intros c Hc.
  apply (IH (visited ∪ {[n]})); [|exact Hless|by eapply Hkids].
  apply Hreach. unfold kids_of. by rewrite Hn, Hi, Hsid.
Qed.

Lemma log_child_run_succeeds (children : gmap string (list string))
    (tree : gmap string nat) (store : list row) (roots : list string) :
  acyclic children tree store →
  replayable children tree store roots →
  ∀ fuel (visited : gset string) p n,
    (∀ w, w ∈ visited → tc (edge children tree store) w n) →
    size (dom tree ∖ visited) < fuel →
    is_Some (tree !! n) →
    succeeds (LangSmith.log_child_run fuel p n children tree store).
Proof.
  intros Hacyc (Hrows & Hkids & _).
  induction fuel as [|fuel IH]; intros visited p n Hvis Hsize [i Hn]; [lia|].
  destruct (Hrows n i Hn)
    as (r & Hi & [sid Hsid] & (attrs & Hattrs & [name Hname]) & [inp Hinp]
        & [out Hout]).
  cbn [LangSmith.log_child_run].
  rewrite (succeeds_tree_get tree store n i r Hn Hi), bind_mret.
  rewrite Hattrs, getitem_Some, bind_mret, Hname, getitem_Some, bind_mret.
  rewrite Hinp, getitem_Some, bind_mret, Hout, getitem_Some, bind_mret.
  apply succeeds_bind; [apply succeeds_emit|]. intros _ _ _.
  apply succeeds_bind; [apply succeeds_emit|]. intros _ _ _.
  rewrite Hsid, getitem_Some, bind_mret.
  destruct (path_shrinks children tree store visited n fuel Hacyc Hvis
              ltac:(by eexists) Hsize) as [Hreach Hless].
  apply succeeds_bind; [|intros; apply succeeds_emit].
  apply succeeds_for_each. intros c Hc.
  apply (IH (visited ∪ {[n]})); [|exact Hless|by eapply Hkids].
  apply Hreach. unfold kids_of. by rewrite Hn, Hi, Hsid.
Qed.

Lemma acyclic_tag_model (children : gmap string (list string))
    (tree : gmap string nat) (store : list row) (i : nat) (r : row)
    (md : gmap string value) :
  store !! i = Some r →
  acyclic children tree store →
  acyclic children tree (tag_model i r md store).
Proof.
  intros Hi Hacyc u Hu. apply (Hacyc u).
  apply (tc_congruence (λ x, x) (edge children tree store)) in Hu; [done|].
  intros x y. unfold edge. by rewrite (kids_of_tag_model _ _ _ _ _ _ _ Hi).
Qed.

Lemma replayable_tag_model (children : gmap string (list string))
    (tree : gmap string nat) (store : list row) (roots : list string)
    (i : nat) (r : row) (md : gmap string value) :
  store !! i = Some r →
  replayable children tree store roots →
  replayable children tree (tag_model i r md store) roots.
Proof.
  intros Hi (Hrows & Hkids & Hroots).
  assert (Hlook : ∀ j r', store !! j = Some r' →
            ∃ r'', tag_model i r md store !! j = Some r''
                   ∧ (emittable r' → emittable r'')
                   ∧ (is_Some (metadata r') → is_Some (metadata r''))).
  { intros j r' Hj. unfold tag_model.
    destruct (decide (i = j)) as [->|Hne].
    - rewrite list_lookup_insert_eq by by eapply lookup_lt_Some.
      assert (r' = r) as -> by congruence.
      eexists. split; [done|]. split; [done|]. by eexists.
    - rewrite list_lookup_insert_ne by done. by exists r'. }
  split; [|split; [exact Hkids|]].
  - intros k j Hk. destruct (Hrows k j Hk) as (r' & Hj & Hem).
    destruct (Hlook j r' Hj) as (r'' & Hj' & Hem' & _). exists r''. auto.
  - intros root Hroot. destruct (Hroots root Hroot) as (j & r' & Hn & Hj & Hmd).
    destruct (Hlook j r' Hj) as (r'' & Hj' & _ & Hmd'). exists j, r''. auto.
Qed.

Lemma braintrust_replay_root_succeeds (fuel : nat)
    (children : gmap string (list string)) (tree : gmap string nat)
    (store : list row) (roots : list string) (root : string) :
  acyclic children tree store →
  replayable children tree store roots →
  root ∈ roots →
  size tree < fuel →
  ∃ store' t,
    Braintrust.replay_root fuel children tree store root = (Ret store', t)
    ∧ acyclic children tree store'
    ∧ replayable children tree store' roots.
Proof.
  intros Hacyc Hrep Hroot Hfuel.
  destruct Hrep as (Hrows & Hkids & Hroots).
  destruct (Hroots root Hroot) as (i & r & Hn & Hi & [md Hmd]).
  destruct (Hrows root i Hn)
    as (r' & Hi' & [sid Hsid] & _ & [inp Hinp] & [out Hout]).
  assert (r' = r) as -> by congruence.
  pose proof (acyclic_tag_model children tree store i r md Hi Hacyc) as Hacyc'.
  pose proof (replayable_tag_model children tree store roots i r md Hi
                (conj Hrows (conj Hkids Hroots))) as Hrep'.
  assert (Hrun : succeeds
            (Braintrust.replay_root fuel children tree store root)).
  { unfold Braintrust.replay_root.
    rewrite (succeeds_tree_get tree store root i r Hn Hi), bind_mret.
    apply succeeds_with_span.
    rewrite Hmd, getitem_Some, bind_mret. cbn [input output span_id set_metadata].
    rewrite Hinp, getitem_Some, bind_mret, Hout, getitem_Some, bind_mret.
    apply succeeds_bind; [apply succeeds_emit|]. intros _ _ _.
    rewrite Hsid, getitem_Some, bind_mret.
    apply succeeds_bind; [|intros; apply succeeds_mret].
    apply succeeds_for_each. intros c Hc.
    apply (log_child_span_succeeds children tree (tag_model i r md store)
             roots Hacyc' Hrep' fuel ∅).
    - intros w Hw. by apply elem_of_empty in Hw.
    - by rewrite size_dom_minus_empty.
    - by eapply Hkids. }
  destruct Hrun as (store' & t & Hrun). exists store', t.
  split; [exact Hrun|].
  apply braintrust_replay_root_Ret_inv in Hrun
    as (i2 & r2 & md2 & _ & _ & _ & Hn2 & Hi2 & Hmd2 & -> & _).
  assert (i2 = i) as -> by congruence. assert (r2 = r) as -> by congruence.
  assert (md2 = md) as -> by congruence. done.
Qed.

Lemma langsmith_replay_root_succeeds (fuel : nat)
    (children : gmap string (list string)) (tree : gmap string nat)
    (store : list row) (roots : list string) (root : string) :
  acyclic children tree store →
  replayable children tree store roots →
  root ∈ roots →
  size tree < fuel →
  succeeds (LangSmith.replay_root fuel children tree store root).
Proof.
  intros Hacyc Hrep Hroot Hfuel.
  pose proof Hrep as (Hrows & Hkids & Hroots).
  destruct (Hroots root Hroot) as (i & r & Hn & Hi & [md Hmd]).
  destruct (Hrows root i Hn)
    as (r' & Hi' & [sid Hsid] & _ & [inp Hinp] & [out Hout]).
  assert (r' = r) as -> by congruence.
  unfold LangSmith.replay_root.
  rewrite (succeeds_tree_get tree store root i r Hn Hi), bind_mret.
  rewrite Hinp, getitem_Some, bind_mret, Hout, getitem_Some, bind_mret.
  rewrite Hmd, getitem_Some, bind_mret.
  apply succeeds_bind; [apply succeeds_emit|]. intros _ _ _.
  apply succeeds_bind; [apply succeeds_emit|]. intros _ _ _.
  rewrite Hsid, getitem_Some, bind_mret.
  apply succeeds_bind; [|intros; apply succeeds_emit].
  apply succeeds_for_each. intros c Hc.
  apply (log_child_run_succeeds children tree store roots Hacyc Hrep fuel ∅).
  - intros w Hw. by apply elem_of_empty in Hw.
  - by rewrite size_dom_minus_empty.
  - by eapply Hkids.
Qed.

Lemma succeeds_flush_due (batch : option Z) (idx : nat) :
  succeeds (if flush_due batch idx then emit Flush else mret tt).
Proof. destruct (flush_due batch idx); [apply succeeds_emit|apply succeeds_mret]. Qed.

Lemma braintrust_replay_roots_succeeds (fuel : nat) (batch : option Z)
    (children : gmap string (list string)) (tree : gmap string nat)
    (roots rest : list string) :
  size tree < fuel →
  rest ⊆ roots →
  ∀ idx store,
    acyclic children tree store →
    replayable children tree store roots →
    ∃ store' t,
      Braintrust.replay_roots fuel batch children tree idx rest store
      = (Ret store', t)
      ∧ acyclic children tree store'
      ∧ replayable children tree store' roots.
Proof.
  intros Hfuel. induction rest as [|root rest IH]; intros Hsub idx store Ha Hr.
  - by exists store, [].
  - destruct (braintrust_replay_root_succeeds fuel children tree store roots
                root Ha Hr ltac:(apply Hsub; by left) Hfuel)
      as (store1 & t1 & Hroot & Ha1 & Hr1).
    destruct (succeeds_flush_due batch idx) as ([] & tf & Hf).
    destruct (IH ltac:(intros x Hx; apply Hsub; by right) (S idx) store1 Ha1 Hr1)
      as (store' & t3 & Hrest & Ha' & Hr').
    exists store', (t1 ++ tf ++ t3). split; [|done].
    cbn [Braintrust.replay_roots].
    rewrite Hroot, bind_Ret, Hf, bind_Ret, Hrest. done.
Qed.


Lemma braintrust_replay_iterations_succeeds (fuel : nat) (a : args)
    (children : gmap string (list string)) (tree : gmap string nat)
    (roots : list string) :
  size tree < fuel →
  ∀ n i store,
    acyclic children tree store →
    replayable children tree store roots →
    succeeds (Braintrust.replay_iterations fuel a children tree roots n i
                store).
Proof.
  intros Hfuel. induction n as [|n IH]; intros i store Ha Hr.
  - apply succeeds_mret.
  - cbn [Braintrust.replay_iterations].
    destruct (braintrust_replay_roots_succeeds fuel (batch_size a) children
                tree roots roots Hfuel ltac:(done) 0 store Ha Hr)
      as (store1 & t1 & Hroots & Ha1 & Hr1).
    rewrite Hroots, bind_Ret.
    destruct (IH (S i) store1 Ha1 Hr1) as (s' & t' & Hrest).
    eexists _, _. by rewrite bind_emit, Hrest.
Qed.


(** On replayable, acyclic indexes a whole replay returns, in both scripts,
    once the recursion bound exceeds the size of the lookup tree. *)
Lemma braintrust_replay_succeeds (fuel : nat) (a : args)
    (tree : gmap string nat) (ix : index) :
  size tree < fuel →
  acyclic (ix_children ix) tree (ix_rows ix) →
  replayable (ix_children ix) tree (ix_rows ix) (ix_roots ix) →
  succeeds (Braintrust.replay fuel a tree ix).
Proof.
  intros Hfuel Ha Hr. unfold Braintrust.replay.
  apply succeeds_bind; [apply succeeds_emit|]. intros _ _ _.
  apply succeeds_bind; [apply succeeds_emit|]. intros _ _ _.
  apply succeeds_bind;
    [by apply braintrust_replay_iterations_succeeds|].
  intros store' _ _.
  apply succeeds_bind; [apply succeeds_emit|]. intros _ _ _.
  apply succeeds_bind; [apply succeeds_emit|]. intros _ _ _.
  apply succeeds_mret.
Qed.


Lemma chain_replayable :
  replayable chain_children chain_tree (ix_rows chain_index) ["A"].
Proof.
  assert (Hem : ∀ k sid ps, emittable (chain_row k sid ps)).
  { intros k sid ps. unfold emittable. cbn.
    split; [by eexists|]. split; [|split; by eexists].
    eexists. split; [done|]. by eexists. }
  split; [|split].
  - intros k j. unfold chain_tree.
    intros [[<- <-]|[_ H]]%lookup_insert_Some; [by eexists|].
    apply lookup_insert_Some in H as [[<- <-]|[_ H]]; [by eexists|].
    apply lookup_insert_Some in H as [[<- <-]|[_ H]]; [by eexists|].
    by rewrite lookup_empty in H.
  - intros sid c. unfold children_get, chain_children.
    destruct (decide (sid = "b")) as [->|Hb].
    { rewrite lookup_insert_eq. intros ->%list_elem_of_singleton. by eexists. }
    rewrite lookup_insert_ne by done.
    destruct (decide (sid = "a")) as [->|Ha].
    { rewrite lookup_insert_eq. intros ->%list_elem_of_singleton. by eexists. }
    rewrite lookup_insert_ne, lookup_empty by done. by intros ?%elem_of_nil.
  - intros root ->%list_elem_of_singleton.
    exists 0, (chain_row "A" "a" SpAbsent). repeat split; by eexists.
Qed.

(** Tree reconstruction on records that carry the key.  When every record
    carries an id and a [span_parents] key (holding null or a list),
    indexing with flatten off succeeds, identically in both scripts: [roots] lists, in input order,
    the ids of the records whose parent list is null or empty; [children[p]]
    lists, in input order, the id of each record once for each time it
    declares [p]; so a record with a non-empty parent list is under every
    parent it declares and, ids being unique, not in [roots]. *)
Lemma index_links_children_and_roots (rows : list row) :
  Forall (λ r, is_Some (row_id r) ∧ has_parents_key r) rows →
  ∃ ix,
    Braintrust.index_rows false rows = mret ix
    ∧ LangSmith.index_rows false rows = mret ix
    ∧ ix_roots ix
      = omap row_id (filter (λ r, declares_parents r = false) rows)
    ∧ (∀ p, children_get (ix_children ix) p = flat_map (links_to p) rows)
    ∧ (∀ r k ps p,
         r ∈ rows → row_id r = Some k → span_parents r = SpList ps →
         p ∈ ps → k ∈ children_get (ix_children ix) p)
    ∧ (∀ r k,
         r ∈ rows → row_id r = Some k → declares_parents r = false →
         k ∈ ix_roots ix)
    ∧ (NoDup (omap row_id rows) →
       ∀ r k,
         r ∈ rows → row_id r = Some k → declares_parents r = true →
         k ∉ ix_roots ix).
Proof.
  intros Hrows.
  destruct (index_from_links rows Hrows (mkIndex [] ∅ []))
    as (ix & Hix & Hroots & Hch).
  cbn [ix_roots ix_children app] in Hroots, Hch.
  exists ix. split; [|split; [exact Hix|split; [exact Hroots|]]].
  { unfold Braintrust.index_rows. rewrite index_from_agree; [exact Hix|].
    eapply Forall_impl; [exact Hrows|]. by intros r [_ ?]. }
  split; [|split; [|split]].
  - intros p. by rewrite Hch.
  - intros r k ps p Hr Hk Hsp Hp. rewrite Hch.
    apply list_elem_of_In, in_flat_map. exists r.
    split; [by apply list_elem_of_In|].
    apply list_elem_of_In. unfold links_to. rewrite Hk, Hsp.
    apply list_elem_of_fmap. exists p. split; [done|].
    by apply list_elem_of_filter.
  - intros r k Hr Hk Hd. rewrite Hroots. apply list_elem_of_omap.
    exists r. split; [|done]. by apply list_elem_of_filter.
  - intros Hnd r k Hr Hk Hd. rewrite Hroots.
    intros (r' & Hr' & Hk')%list_elem_of_omap.
    apply list_elem_of_filter in Hr' as [Hd' Hr'].
    assert (r = r') as <- by by eapply omap_id_unique.
    congruence.
Qed.

(** Three records, the third declaring two parents. *)
Lemma index_links_children_and_roots_witness :
  ∃ ix,
    Braintrust.index_rows false
      [sample_row "a" SpNull; sample_row "b" (SpList ["a"]);
       sample_row "c" (SpList ["a"; "b"])] = mret ix
    ∧ LangSmith.index_rows false
        [sample_row "a" SpNull; sample_row "b" (SpList ["a"]);
         sample_row "c" (SpList ["a"; "b"])] = mret ix
    ∧ ix_roots ix = ["a"]
    ∧ children_get (ix_children ix) "a" = ["b"; "c"]
    ∧ children_get (ix_children ix) "b" = ["c"].
Proof.
  destruct (index_links_children_and_roots
              [sample_row "a" SpNull; sample_row "b" (SpList ["a"]);
               sample_row "c" (SpList ["a"; "b"])])
    as (ix & Hbt & Hls & Hroots & Hch & _).
  - repeat constructor; simpl; try (by eexists); discriminate.
  - exists ix. split; [exact Hbt|]. split; [exact Hls|].
    split; [exact Hroots|]. split; apply Hch.
Defined.

(** * The claims *)




(** C2, as the code has it.  In the Braintrust script every root step sets
    the model tag in the metadata of the record that [tree] holds for the
    root id, and attaches that tagged metadata to the top-level span; over a
    whole run every metadata attached carries the tag and the records whose
    id is not a root id are left as they were.  The LangSmith script
    attaches the root's metadata as it stands and changes no record.  On
    replayable records with acyclic edges the Braintrust replay does
    complete, once the recursion bound exceeds the size of the lookup
    tree. *)
Theorem model_tag_only_on_braintrust_roots (fuel : nat) (a : args)
    (rows : list row) (tree : gmap string nat) (ix : index) :
  build_tree rows = mret tree →
  Braintrust.index_rows (flatten a) rows = mret ix →
  (∀ store store' root t,
     tree_ok tree store →
     Braintrust.replay_root fuel (ix_children ix) tree store root
     = (Ret store', t) →
     ∃ i r md inp out rest,
       tree !! root = Some i ∧ store !! i = Some r ∧ row_id r = Some root
       ∧ metadata r = Some md
       ∧ t = Open None root ROOT_SPAN_NAME
             :: Attach root inp out
                  (Some (<["model" := VStr DEFAULT_MODEL]> md))
             :: rest
       ∧ store' = tag_model i r md store)
  ∧ (∀ store' t,
       Braintrust.replay fuel a tree ix = (Ret store', t) →
       Forall attach_tagged t
       ∧ ∀ j r, ix_rows ix !! j = Some r → off_roots (ix_roots ix) r →
                store' !! j = Some r)
  ∧ (∀ children store root t,
       LangSmith.replay_root fuel children tree store root = (Ret tt, t) →
       ∃ i r md inp out rest,
         tree !! root = Some i ∧ store !! i = Some r ∧ metadata r = Some md
         ∧ t = Open None root ROOT_RUN_NAME :: Attach root inp out (Some md)
               :: rest)
  ∧ (acyclic (ix_children ix) tree (ix_rows ix) →
     replayable (ix_children ix) tree (ix_rows ix) (ix_roots ix) →
     size tree < fuel →
     succeeds (Braintrust.replay fuel a tree ix)).
Proof.
  intros Htree Hix.
  pose proof (braintrust_indexed_tree_ok _ _ _ _ Htree Hix) as Hok.
  split; [|split; [|split]];
    [| | |intros Hacyc Hrep Hfuel; by apply braintrust_replay_succeeds].
  - intros store store' root t Hok' H.
    by destruct (braintrust_root_step _ _ _ _ _ _ _ Hok' H) as (? & _).
  - intros store' t H. by apply (braintrust_replay_frame fuel a tree ix).
  - intros children store root t
      (i & r & md & inp & out & ts & Hn & Hi & Hmd & _ & ->)
      %langsmith_replay_root_Ret_inv.
    by exists i, r, md, inp, out, (concat ts ++ [Close root]).
Qed.

Lemma model_tag_only_on_braintrust_roots_witness :
  build_tree chain_rows = mret chain_tree
  ∧ Braintrust.index_rows false chain_rows = mret chain_index
  ∧ ∃ store' t,
      Braintrust.replay 2 (sample_args 1 None None) chain_tree chain_index
      = (Ret store', t)
      ∧ Forall attach_tagged t
      ∧ store' !! 0 = Some (set_metadata tagged (chain_row "A" "a" SpAbsent))
      ∧ store' !! 1 = Some (chain_row "B" "b" (SpList ["a"]))
      ∧ store' !! 2 = Some (chain_row "C" "c" (SpList ["b"])).
Proof.
  assert (Htree : build_tree chain_rows = mret chain_tree) by by vm_compute.
  assert (Hix : Braintrust.index_rows (flatten (sample_args 1 None None))
                  chain_rows = mret chain_index) by by vm_compute.
  split; [exact Htree|]. split; [exact Hix|].
  destruct (model_tag_only_on_braintrust_roots 2 (sample_args 1 None None)
              chain_rows chain_tree chain_index Htree Hix)
    as (_ & Hrun & _ & _).
  eexists _, _. split; [vm_compute; reflexivity|].
  edestruct Hrun as [Htag Hframe]; [vm_compute; reflexivity|].
  split; [exact Htag|]. split; [by vm_compute|].
  split; apply Hframe; try reflexivity;
    intros k [= <-]; vm_compute; by intros ?%list_elem_of_singleton.
Defined.

(** C2 as stated fails for the LangSmith script: it attaches the root's
    metadata with no model tag in it, where the Braintrust script attaches
    the tagged metadata. *)
Lemma langsmith_attaches_untagged_metadata :
  LangSmith.replay_root 1 ∅ flat_tree (ix_rows flat_index) "a"
  = (Ret tt,
     [Open None "a" ROOT_RUN_NAME; Attach "a" VNull VNull (Some ∅); Close "a"])
  ∧ (∅ : gmap string value) !! "model" = None
  ∧ ¬ Forall attach_tagged
        (snd (LangSmith.main sample_loads 1 two_iterations_env))
  ∧ Forall attach_tagged
      (snd (Braintrust.main sample_loads 1 two_iterations_env)).
Proof.
  split; [by vm_compute|]. split; [done|].
  rewrite braintrust_two_iterations, langsmith_two_iterations. cbn [snd].
  split.
  - intros H. do 7 apply Forall_cons in H as [_ H].
    by apply Forall_cons in H as [H _].
  - by repeat constructor.
Qed.

(** C3 at a record without a [span_parents] key, flatten off: the test
    [row["span_parents"] and len(row["span_parents"]) > 0] subscripts the
    key and raises [KeyError] in both scripts, where the claim places the
    record in [roots].  The same record with the key holding null is placed
    in [roots] by both, and the else branch of the LangSmith script, with
    its guard [if "span_parents" in row], provides for the absent key, as
    its flatten run shows. *)
Lemma absent_parents_key_raises :
  span_parents (sample_row "a" SpAbsent) = SpAbsent
  ∧ Braintrust.index_rows false [sample_row "a" SpAbsent]
    = (Raise (KeyError "span_parents"), [])
  ∧ LangSmith.index_rows false [sample_row "a" SpAbsent]
    = (Raise (KeyError "span_parents"), [])
  ∧ Braintrust.index_rows false [sample_row "a" SpNull]
    = mret (mkIndex [sample_row "a" SpAbsent] ∅ ["a"])
  ∧ LangSmith.index_rows false [sample_row "a" SpNull]
    = mret (mkIndex [sample_row "a" SpAbsent] ∅ ["a"])
  ∧ LangSmith.index_rows true [sample_row "a" SpAbsent]
    = mret (mkIndex [sample_row "a" SpAbsent] ∅ ["a"]).
Proof. by repeat split. Qed.

(** C4. A root replay that returns has emitted the root's tree depth-first:
    the root is opened and its payload attached, each child subtree is then
    emitted in full in child order, and the root is closed last, and so on
    below every child; the trace is well bracketed, every span being opened
    and closed inside its parent's span.  This holds in both scripts.  On
    replayable records with acyclic edges the replay of a root does return,
    once the recursion bound exceeds the size of the lookup tree. *)
Theorem replay_root_is_depth_first (fuel : nat)
    (children : gmap string (list string)) (tree : gmap string nat)
    (store : list row) (roots : list string) (root : string) :
  (∀ store' t,
     Braintrust.replay_root fuel children tree store root = (Ret store', t)
     ∨ LangSmith.replay_root fuel children tree store root = (Ret tt, t) →
     dfs (kids_of children tree store) None root t ∧ nested t)
  ∧ (acyclic children tree store →
     replayable children tree store roots →
     root ∈ roots →
     size tree < fuel →
     succeeds (Braintrust.replay_root fuel children tree store root)
     ∧ succeeds (LangSmith.replay_root fuel children tree store root)).
Proof.
  split.
  - intros store' t [H|H].
    + by eapply braintrust_replay_root_dfs.
    + by eapply langsmith_replay_root_dfs.
  - intros Ha Hr Hroot Hfuel. split.
    + destruct (braintrust_replay_root_succeeds fuel children tree store
                  roots root Ha Hr Hroot Hfuel) as (store' & t & H & _).
      by exists store', t.
    + by eapply langsmith_replay_root_succeeds.
Qed.

(** The chain A -> B -> C of the specification, indexed with flatten off and
    replayed by either script: open(A), open(B), open(C), close(C),
    close(B), close(A). *)
Lemma replay_root_is_depth_first_witness :
  build_tree chain_rows = mret chain_tree
  ∧ Braintrust.index_rows false chain_rows = mret chain_index
  ∧ LangSmith.index_rows false chain_rows = mret chain_index
  ∧ acyclic chain_children chain_tree (ix_rows chain_index)
  ∧ replayable chain_children chain_tree (ix_rows chain_index) ["A"]
  ∧ succeeds (Braintrust.replay_root 4 chain_children chain_tree
                (ix_rows chain_index) "A")
  ∧ ∃ store' t t',
      Braintrust.replay_root 4 chain_children chain_tree
        (ix_rows chain_index) "A" = (Ret store', t)
      ∧ LangSmith.replay_root 4 chain_children chain_tree
          (ix_rows chain_index) "A" = (Ret tt, t')
      ∧ boundaries t
        = [Open None "A" ROOT_SPAN_NAME; Open (Some "A") "B" "B";
           Open (Some "B") "C" "C";
           Close "C"; Close "B"; Close "A"]
      ∧ boundaries t'
        = [Open None "A" ROOT_RUN_NAME; Open (Some "A") "B" "B";
           Open (Some "B") "C" "C";
           Close "C"; Close "B"; Close "A"]
      ∧ dfs (kids_of chain_children chain_tree (ix_rows chain_index)) None "A" t
      ∧ nested t.
Proof.
  destruct (replay_root_is_depth_first 4 chain_children chain_tree
              (ix_rows chain_index) ["A"] "A") as [Hshape Hruns].
  split; [by vm_compute|]. split; [by vm_compute|]. split; [by vm_compute|].
  split; [exact chain_acyclic|]. split; [exact chain_replayable|].
  split.
  { apply Hruns; [exact chain_acyclic|exact chain_replayable| |].
    - by apply list_elem_of_singleton.
    - vm_compute. lia. }
  eexists _, _, _.
  split; [vm_compute; reflexivity|]. split; [vm_compute; reflexivity|].
  split; [by vm_compute|]. split; [by vm_compute|].
  eapply Hshape. left. vm_compute. reflexivity.
Defined.

(** C5 at a record without a [span_parents] key, flatten on: the Braintrust
    script raises [KeyError] at [del row["span_parents"]], where the
    LangSmith script tests for the key and makes the record a root. *)
Lemma braintrust_flatten_raises_without_key :
  Braintrust.index_rows true [sample_row "a" SpAbsent]
  = (Raise (KeyError "span_parents"), [])
  ∧ LangSmith.index_rows true [sample_row "a" SpAbsent]
    = mret (mkIndex [sample_row "a" SpAbsent] ∅ ["a"]).
Proof. by split. Qed.



(** C7, as the code has it.  Under an accepted command line, on a file that
    is read to its end and whose lines within the limit [json.loads] either
    accepts or rejects with [JSONDecodeError], the parse of either script
    returns normally: [rows] holds, in order, what the accepted lines
    loaded, one entry for each, and one warning is logged for each rejected
    line, and nothing else.  An entry is whatever value the line holds, a
    record or not.  When the parse raises, the exception is the one that
    [open] raised, that a [next] call on the file raised, or that
    [json.loads] raised on a line within the limit.  Each of the three
    does end the parse, with the entries parsed so far dropped: an
    exception of [json.loads] other than [JSONDecodeError], an exception
    of [open], and an exception of a [next] call; the handlers log a
    [FileNotFoundError] or [OSError] before it goes on to the caller and
    nothing for any other exception. *)
Theorem malformed_lines_are_skipped (json_loads : string → loads_result)
    (a : args) (lines : list string) :
  accepted a →
  (Forall (λ l, loads_raises json_loads l = false)
          (within_limit (limit a) lines) →
   ∃ rows warnings,
     braintrust_load_entries json_loads (limit a) (OpenReturns (iter_of lines))
     = (Ret rows, OpenFile TRACE_FILE :: warnings)
     ∧ langsmith_load_entries json_loads (limit a)
         (OpenReturns (iter_of lines))
       = (Ret rows, OpenFile TRACE_FILE :: warnings)
     ∧ rows = omap (loaded_entry json_loads) (within_limit (limit a) lines)
     ∧ length rows
       = length (filter (λ l, parses json_loads l = true)
                        (within_limit (limit a) lines))
     ∧ length warnings
       = length (filter (λ l, malformed json_loads l = true)
                        (within_limit (limit a) lines))
     ∧ Forall (λ ev, ∃ n, ev = LogWarning n) warnings)
  ∧ (∀ file ex t,
       braintrust_load_entries json_loads (limit a) file = (Raise ex, t)
       ∨ langsmith_load_entries json_loads (limit a) file = (Raise ex, t) →
       file = OpenRaises ex
       ∨ ∃ f, file = OpenReturns f
              ∧ (iter_end f = Some ex
                 ∨ ∃ l, l ∈ within_limit (limit a) (fetched f)
                        ∧ json_loads l = LoadsRaises ex))
  ∧ (∀ pre l post ex,
       lines = pre ++ l :: post →
       Forall (λ l, loads_raises json_loads l = false) pre →
       limit_reached (limit a) (length pre) = false →
       json_loads l = LoadsRaises ex →
       braintrust_load_entries json_loads (limit a)
         (OpenReturns (iter_of lines))
       = (Raise ex,
          OpenFile TRACE_FILE
          :: warnings_in json_loads 0 pre ++ Braintrust.read_handler ex)
       ∧ langsmith_load_entries json_loads (limit a)
           (OpenReturns (iter_of lines))
         = (Raise ex,
            OpenFile TRACE_FILE
            :: warnings_in json_loads 0 pre ++ LangSmith.read_handler ex))
  ∧ (∀ ex,
       braintrust_load_entries json_loads (limit a) (OpenRaises ex)
       = (Raise ex, OpenFile TRACE_FILE :: Braintrust.read_handler ex)
       ∧ langsmith_load_entries json_loads (limit a) (OpenRaises ex)
         = (Raise ex, OpenFile TRACE_FILE :: LangSmith.read_handler ex))
  ∧ (∀ pre ex,
       Forall (λ l, loads_raises json_loads l = false) pre →
       (∀ j, j < length pre → limit_reached (limit a) j = false) →
       braintrust_load_entries json_loads (limit a)
         (OpenReturns (iter_app pre (NextRaises ex)))
       = (Raise ex,
          OpenFile TRACE_FILE
          :: warnings_in json_loads 0 pre ++ Braintrust.read_handler ex)
       ∧ langsmith_load_entries json_loads (limit a)
           (OpenReturns (iter_app pre (NextRaises ex)))
         = (Raise ex,
            OpenFile TRACE_FILE
            :: warnings_in json_loads 0 pre ++ LangSmith.read_handler ex)).
Proof.
  intros Ha. split; [|split; [|split; [|split]]].
  - intros Hall.
    exists (omap (loaded_entry json_loads) (within_limit (limit a) lines)),
           (warnings_in json_loads 0 (within_limit (limit a) lines)).
    assert (Hread : open_and_read_entries json_loads (limit a)
                      (OpenReturns (iter_of lines))
                    = (Ret (omap (loaded_entry json_loads)
                                 (within_limit (limit a) lines)),
                       OpenFile TRACE_FILE
                       :: warnings_in json_loads 0
                            (within_limit (limit a) lines))).
    { unfold open_and_read_entries. rewrite bind_emit.
      by rewrite (read_entries_accepted json_loads a lines Ha Hall). }
    unfold braintrust_load_entries, langsmith_load_entries. rewrite Hread.
    split; [done|]. split; [done|]. split; [done|].
    split; [apply parsed_count_full|].
    split; [apply warned_count_full|apply warnings_in_are_warnings].
  - intros file ex t [H|H]; apply on_error_Raise_inv in H as [t' H];
      by eapply load_entries_Raise_inv.
  - intros pre l post ex -> Hpre Hlim Hl.
    assert (Hread : open_and_read_entries json_loads (limit a)
                      (OpenReturns (iter_of (pre ++ l :: post)))
                    = (Raise ex,
                       OpenFile TRACE_FILE :: warnings_in json_loads 0 pre)).
    { unfold open_and_read_entries, iter_of.
      rewrite bind_emit, iter_app_app.
      rewrite (read_entries_prefix _ _ _ _ Hpre 0 []), bind_Ret.
      - cbn [fst snd Nat.add iter_app read_entries]. rewrite Hlim, Hl.
        cbn. by rewrite app_nil_r.
      - intros j Hj. cbn [Nat.add].
        apply (limit_reached_mono _ (length pre)); [lia|done]. }
    unfold braintrust_load_entries, langsmith_load_entries. rewrite Hread.
    by cbn.
  - intros ex. by split.
  - intros pre ex Hpre Hlim.
    assert (Hread : open_and_read_entries json_loads (limit a)
                      (OpenReturns (iter_app pre (NextRaises ex)))
                    = (Raise ex,
                       OpenFile TRACE_FILE :: warnings_in json_loads 0 pre)).
    { unfold open_and_read_entries. rewrite bind_emit.
      rewrite (read_entries_prefix _ _ _ _ Hpre 0 [] Hlim), bind_Ret.
      cbn. by rewrite app_nil_r. }
    unfold braintrust_load_entries, langsmith_load_entries. rewrite Hread.
    by cbn.
Qed.

(** Two records and two malformed lines. *)
Lemma malformed_lines_are_skipped_witness :
  ∃ rows warnings,
    braintrust_load_entries sample_json_loads None
      (OpenReturns (iter_of ["a"; ""; "b"; ""]))
    = (Ret rows, OpenFile TRACE_FILE :: warnings)
    ∧ langsmith_load_entries sample_json_loads None
        (OpenReturns (iter_of ["a"; ""; "b"; ""]))
      = (Ret rows, OpenFile TRACE_FILE :: warnings)
    ∧ rows = [IsRecord (sample_row "a" SpNull);
              IsRecord (sample_row "b" SpNull)]
    ∧ length rows = 2
    ∧ length warnings = 2
    ∧ Forall (λ ev, ∃ n, ev = LogWarning n) warnings.
Proof.
  destruct (malformed_lines_are_skipped sample_json_loads
              (sample_args 1 None None) ["a"; ""; "b"; ""]) as [Hok _].
  - repeat split; simpl; intros; simplify_eq; lia.
  - destruct Hok as (rows & warnings & Hb & Hl & Hrows & Hn & Hm & Hw).
    + by vm_compute; repeat constructor.
    + exists rows, warnings. split; [exact Hb|]. split; [exact Hl|].
      split; [by rewrite Hrows; vm_compute|].
      split; [by rewrite Hn; vm_compute|].
      split; [by rewrite Hm; vm_compute|exact Hw].
Defined.

(** C7 as stated fails where it says that only a failure to open or read
    the file propagates.  On a file that opens and is read to its end, a
    line holding an integer of 4301 digits makes [json.loads] raise
    [ValueError], which neither script catches or logs: the run ends there,
    and the record parsed before is dropped.  A line holding the number 42
    is no record either; it is not skipped but appended to [rows], with no
    warning, and the lookup tree then raises [TypeError] on it. *)
Lemma parser_exception_ends_the_run :
  iter_end (iter_of ["a"; big_integer_line; "b"]) = None
  ∧ sample_json_loads big_integer_line = LoadsRaises ValueError
  ∧ braintrust_load_entries sample_json_loads None
      (OpenReturns (iter_of ["a"; big_integer_line; "b"]))
    = (Raise ValueError, [OpenFile TRACE_FILE])
  ∧ langsmith_load_entries sample_json_loads None
      (OpenReturns (iter_of ["a"; big_integer_line; "b"]))
    = (Raise ValueError, [OpenFile TRACE_FILE])
  ∧ braintrust_load_entries sample_json_loads None
      (OpenReturns (iter_of ["a"; "42"]))
    = (Ret [IsRecord (sample_row "a" SpNull); NotRecord (NoNum 42)],
       [OpenFile TRACE_FILE])
  ∧ langsmith_load_entries sample_json_loads None
      (OpenReturns (iter_of ["a"; "42"]))
    = (Ret [IsRecord (sample_row "a" SpNull); NotRecord (NoNum 42)],
       [OpenFile TRACE_FILE])
  ∧ build_tree_entries
      [IsRecord (sample_row "a" SpNull); NotRecord (NoNum 42)]
    = (Raise TypeError, []).
Proof. by vm_compute. Qed.

(** C8, as the code has it.  A non-positive iterations, limit or batch-size
    value is rejected (exit status 2) after the environment file is loaded
    and the trace file's existence is checked, and before the trace file is
    opened or the backend is contacted; when the trace file does not exist,
    the run ends at that check (exit status 1) and the command line is not
    validated at all. *)
Theorem non_positive_rejected_after_file_check
    (json_loads : string → option row) (fuel : nat) (e : env) :
  non_positive (argv e) →
  (trace_file_exists e = true →
   ∃ msg,
     Braintrust.main json_loads fuel e
     = (Raise (SystemExit 2),
        [LoadDotenv; PathExists TRACE_FILE; ParserError msg])
     ∧ LangSmith.main json_loads fuel e
       = (Raise (SystemExit 2),
          [LoadDotenv; PathExists TRACE_FILE; ParserError msg]))
  ∧ (trace_file_exists e = false →
     Braintrust.main json_loads fuel e = missing_file_exit
     ∧ LangSmith.main json_loads fuel e = missing_file_exit).
Proof.
  intros Hbad. split; intros Hex.
  - destruct (validate_rejected (argv e) Hbad) as [msg Hv]. exists msg.
    unfold Braintrust.main, LangSmith.main.
    rewrite !bind_emit, (check_trace_file_exists e Hex), !bind_Ret, Hv.
    by rewrite !bind_Raise.
  - unfold Braintrust.main, LangSmith.main.
    rewrite !bind_emit, (check_trace_file_missing e Hex).
    by rewrite !bind_Raise.
Qed.

Lemma non_positive_rejected_after_file_check_witness :
  non_positive (sample_args 1 (Some 0%Z) None)
  ∧ ∃ msg,
      Braintrust.main sample_loads 0
        (mkEnv true (sample_args 1 (Some 0%Z) None) true (Opened Eof))
      = (Raise (SystemExit 2),
         [LoadDotenv; PathExists TRACE_FILE; ParserError msg])
      ∧ LangSmith.main sample_loads 0
          (mkEnv true (sample_args 1 (Some 0%Z) None) true (Opened Eof))
        = (Raise (SystemExit 2),
           [LoadDotenv; PathExists TRACE_FILE; ParserError msg]).
Proof.
  assert (Hbad : non_positive (sample_args 1 (Some 0%Z) None)).
  { right; left. exists 0%Z. split; [reflexivity|lia]. }
  split; [exact Hbad|].
  destruct (non_positive_rejected_after_file_check sample_loads 0
              (mkEnv true (sample_args 1 (Some 0%Z) None) true (Opened Eof))
              Hbad) as [Hpresent _].
  by apply Hpresent.
Defined.

(** C8 as stated fails: with [-n 0] and the trace file present, both scripts
    load the environment file and check the trace file before they reject
    the command line; with the trace file missing they exit with status 1 at
    that check and never reject the command line. *)
Lemma non_positive_not_rejected_before_io :
  non_positive (sample_args 0 None None)
  ∧ Braintrust.main sample_loads 0
      (mkEnv true (sample_args 0 None None) true (Opened Eof))
    = (Raise (SystemExit 2),
       [LoadDotenv; PathExists TRACE_FILE;
        ParserError "iterations must be at least 1"])
  ∧ ¬ rejected_before_io
        (Braintrust.main sample_loads 0
           (mkEnv true (sample_args 0 None None) true (Opened Eof)))
  ∧ ¬ rejected_before_io
        (LangSmith.main sample_loads 0
           (mkEnv true (sample_args 0 None None) true (Opened Eof)))
  ∧ Braintrust.main sample_loads 0
      (mkEnv false (sample_args 0 None None) true (Opened Eof))
    = missing_file_exit
  ∧ LangSmith.main sample_loads 0
      (mkEnv false (sample_args 0 None None) true (Opened Eof))
    = missing_file_exit.
Proof.
  assert (Hno : ∀ msg0, ¬ rejected_before_io
            (Raise (SystemExit 2),
             [LoadDotenv; PathExists TRACE_FILE; ParserError msg0])).
  { intros msg0 (msg & t & Heq & Hall).
    injection Heq as Heq.
    change [LoadDotenv; PathExists TRACE_FILE; ParserError msg0]
      with ([LoadDotenv; PathExists TRACE_FILE] ++ [ParserError msg0]) in Heq.
    apply app_inj_tail in Heq as [<- _].
    by apply Forall_cons in Hall as [Hio _]. }
  split; [left; simpl; lia|].
  split; [reflexivity|]. split; [apply Hno|]. split; [apply Hno|].
  split; reflexivity.
Qed.

(** C9. When the parent-to-child edge relation is acyclic, the recursive
    emission returns (normally or by raising) from every node and every
    root, in both scripts, as soon as the recursion bound exceeds the number
    of entries of the lookup tree.  Acyclicity is needed: there is no cycle
    guard, and on a record registered as its own child the recursion
    exhausts every bound. *)
Theorem emission_terminates_when_acyclic
    (children : gmap string (list string)) (tree : gmap string nat)
    (store : list row) (fuel : nat) (p n : string) :
  acyclic children tree store →
  size tree < fuel →
  fst (Braintrust.log_child_span fuel p n children tree store) ≠ OutOfFuel
  ∧ fst (LangSmith.log_child_run fuel p n children tree store) ≠ OutOfFuel
  ∧ fst (Braintrust.replay_root fuel children tree store n) ≠ OutOfFuel
  ∧ fst (LangSmith.replay_root fuel children tree store n) ≠ OutOfFuel
  ∧ ∀ bound,
      fst (Braintrust.log_child_span bound "x" "x" loop_children loop_tree
             loop_rows) = OutOfFuel
      ∧ fst (LangSmith.log_child_run bound "x" "x" loop_children loop_tree
               loop_rows) = OutOfFuel.
Proof.
  intros Hacyc Hfuel. rewrite <- size_dom_minus_empty in Hfuel.
  assert (Hbt : ∀ store2 q c,
            (∀ m, kids_of children tree store2 m
                  = kids_of children tree store m) →
            fst (Braintrust.log_child_span fuel q c children tree store2)
            ≠ OutOfFuel).
  { intros store2 q c Hk.
    eapply (log_child_span_returns children tree store store2 Hacyc Hk fuel ∅);
      [set_solver|exact Hfuel]. }
  assert (Hls : ∀ q c,
            fst (LangSmith.log_child_run fuel q c children tree store)
                     ≠ OutOfFuel).
  { intros q c.
    eapply (log_child_run_returns children tree store Hacyc fuel ∅);
      [set_solver|exact Hfuel]. }
  split; [by apply Hbt|]. split; [apply Hls|].
  split; [|split; [|exact cyclic_emission_never_returns]].
  - unfold Braintrust.replay_root.
    apply bind_returns; [apply tree_get_returns|].
    intros [i r] t (Hn & Hi & _)%tree_get_Ret_inv.
    apply with_span_returns.
    apply bind_returns; [apply getitem_returns|]. intros md _ _.
    apply bind_returns; [apply getitem_returns|]. intros inp _ _.
    apply bind_returns; [apply getitem_returns|]. intros out _ _.
    apply bind_returns; [done|]. intros _ _ _.
    apply bind_returns; [apply getitem_returns|]. intros sid _ _.
    apply bind_returns; [|done].
    apply for_each_returns. intros c _. apply Hbt. intros m.
    by apply (kids_of_tag_model children tree store i r md m).
  - unfold LangSmith.replay_root.
    apply bind_returns; [apply tree_get_returns|]. intros [i r] _ _.
    apply bind_returns; [apply getitem_returns|]. intros inp _ _.
    apply bind_returns; [apply getitem_returns|]. intros out _ _.
    apply bind_returns; [apply getitem_returns|]. intros md _ _.
    apply bind_returns; [done|]. intros _ _ _.
    apply bind_returns; [done|]. intros _ _ _.
    apply bind_returns; [apply getitem_returns|]. intros sid _ _.
    apply bind_returns; [|done].
    apply for_each_returns. intros c _. apply Hls.
Qed.

Lemma emission_terminates_when_acyclic_witness :
  acyclic chain_children chain_tree (ix_rows chain_index)
  ∧ size chain_tree < 4
  ∧ fst (Braintrust.log_child_span 4 "A" "B" chain_children chain_tree
           (ix_rows chain_index)) ≠ OutOfFuel
  ∧ fst (LangSmith.log_child_run 4 "A" "B" chain_children chain_tree
           (ix_rows chain_index)) ≠ OutOfFuel
  ∧ fst (Braintrust.replay_root 4 chain_children chain_tree
           (ix_rows chain_index) "B") ≠ OutOfFuel
  ∧ fst (LangSmith.replay_root 4 chain_children chain_tree
           (ix_rows chain_index) "B") ≠ OutOfFuel.
Proof.
  split; [exact chain_acyclic|].
  assert (Hsize : size chain_tree < 4) by (vm_compute; lia).
  split; [exact Hsize|].
  destruct (emission_terminates_when_acyclic chain_children chain_tree
              (ix_rows chain_index) 4 "A" "B" chain_acyclic Hsize)
    as (H1 & H2 & H3 & H4 & _).
  done.
Defined.

(** C10. On a parsed record list in which every record carries a
    [span_parents] key, the indexing loops of the two scripts give the same
    result for either flatten policy: the same roots, the same children
    mapping, the same row objects afterwards, or the same exception. *)
Theorem index_rows_agree (flatten : bool) (rows : list row) :
  Forall has_parents_key rows →
  Braintrust.index_rows flatten rows = LangSmith.index_rows flatten rows.
Proof. intros H. by apply index_from_agree. Qed.

Lemma index_rows_agree_witness :
  Braintrust.index_rows false
    [sample_row "a" SpNull; sample_row "b" (SpList ["a"])]
  = LangSmith.index_rows false
      [sample_row "a" SpNull; sample_row "b" (SpList ["a"])].
Proof.
  apply (index_rows_agree false
           [sample_row "a" SpNull; sample_row "b" (SpList ["a"])]).
  repeat constructor; unfold has_parents_key; simpl; discriminate.
Defined.

(** * Further properties of the scripts *)

(** ** Tree Indexer: outcome of one step *)

Lemma bind_raise {A B} (e : exn) (k : A → W B) : raise e ≫= k = raise e.
Proof. reflexivity. Qed.

Lemma register_child_lookup (p k : string)
    (children : gmap string (list string)) (q : string) :
  register_child p k children !! q
  = if decide (q = p) then Some (children_get children p ++ [k])
    else children !! q.
Proof.
  unfold children_get, register_child.
  destruct (decide (q = p)) as [->|Hne].
  - rewrite lookup_alter_eq. destruct (children !! p) as [l|] eqn:Hp.
    + by rewrite Hp.
    + by rewrite lookup_insert_eq.
  - rewrite lookup_alter_ne by done.
    destruct (children !! p); [done|]. by rewrite lookup_insert_ne.
Qed.

Lemma no_empty_list_register (ps : list string) (k : string) :
  ∀ children,
    no_empty_list children →
    no_empty_list (foldl (λ c p, register_child p k c) children ps).
Proof.
  induction ps as [|p ps IH]; intros children Hc; [done|]. cbn [foldl].
  apply IH. intros q l. rewrite register_child_lookup.
  destruct (decide (q = p)) as [->|_]; [|apply Hc].
  intros [= <-]. by destruct (children_get children p).
Qed.

Lemma langsmith_index_row_inv (flatten : bool) (r : row) (ix ix' : index)
    (t : list event) :
  LangSmith.index_row flatten r ix = (Ret ix', t) →
  t = [] ∧ (flatten = false → has_parents_key r) ∧ index_step flatten r ix ix'.
Proof.
  unfold has_parents_key, index_step, indexed_row, becomes_root,
    declares_parents, parents_list, LangSmith.index_row, declared_parents.
  destruct r as [k sid sp attrs inp out md]; cbn [span_parents row_id].
  destruct flatten; cbn [orb negb].
  - rewrite bind_mret. destruct k as [k|]; [|by destruct sp].
    destruct sp; cbn; intros [= <- <-]; (split; [done|]);
      (split; [done|]); by exists k.
  - destruct sp as [| |[|p ps]].
    + rewrite bind_raise. discriminate.
    + rewrite bind_mret. destruct k as [k|]; [|discriminate].
      cbn. intros [= <- <-]. split; [done|]. split; [done|]. by exists k.
    + rewrite bind_mret. destruct k as [k|]; [|discriminate].
      cbn. intros [= <- <-]. split; [done|]. split; [done|]. by exists k.
    + rewrite bind_mret. destruct k as [k|]; [|discriminate].
      erewrite register_parents_with_id by done. rewrite bind_mret.
      intros [= <- <-]. split; [done|]. split; [done|]. exists k.
      cbn. by rewrite app_nil_r.
Qed.

Lemma braintrust_index_row_inv (flatten : bool) (r : row) (ix ix' : index)
    (t : list event) :
  Braintrust.index_row flatten r ix = (Ret ix', t) →
  t = [] ∧ has_parents_key r ∧ index_step flatten r ix ix'.
Proof.
  intros H.
  assert (Hkey : has_parents_key r).
  { unfold has_parents_key. intros Habs. revert H.
    unfold Braintrust.index_row, declared_parents. rewrite Habs.
    destruct flatten; [rewrite bind_mret|]; by rewrite bind_raise. }
  rewrite (index_row_agree flatten r ix Hkey) in H.
  apply langsmith_index_row_inv in H as (-> & _ & H). done.
Qed.

Lemma index_outcome_langsmith (flatten : bool) (r : row) (ix : index) :
  is_Some (row_id r) → (flatten = false → has_parents_key r) →
  succeeds (LangSmith.index_row flatten r ix).
Proof.
  unfold has_parents_key, LangSmith.index_row, declared_parents.
  destruct r as [k sid sp attrs inp out md]; cbn [span_parents row_id].
  intros [k' ->] Hkey. destruct flatten.
  - rewrite bind_mret. destruct sp; by eexists _, _.
  - specialize (Hkey eq_refl). destruct sp as [| |[|p ps]]; [done|..].
    + rewrite bind_mret. by eexists _, _.
    + rewrite bind_mret. by eexists _, _.
    + rewrite bind_mret. erewrite register_parents_with_id by done.
      rewrite bind_mret. by eexists _, _.
Qed.

Lemma langsmith_index_from_inv (flatten : bool) (rows : list row) :
  ∀ ix ix' t,
    LangSmith.index_from flatten rows ix = (Ret ix', t) →
    t = []
    ∧ Forall (λ r, is_Some (row_id r) ∧ (flatten = false → has_parents_key r))
             rows
    ∧ ix_rows ix' = ix_rows ix ++ (indexed_row flatten <$> rows)
    ∧ ix_roots ix'
      = ix_roots ix
        ++ omap row_id (filter (λ r, becomes_root flatten r = true) rows)
    ∧ (no_empty_list (ix_children ix) → no_empty_list (ix_children ix'))
    ∧ (flatten = true → ix_children ix' = ix_children ix).
Proof.
  induction rows as [|r rest IH]; intros ix ix' t; cbn [LangSmith.index_from].
  - intros [= <- <-]. rewrite !app_nil_r. by repeat split.
  - intros (ix1 & t1 & t2 & Hrow & Hrest & ->)%bind_Ret_inv.
    apply langsmith_index_row_inv in Hrow
      as (-> & Hkey & k & Hk & Hrows & Hroots & Hch).
    destruct (IH _ _ _ Hrest) as (-> & Hall & Hrows' & Hroots' & Hne & Hfl).
    split; [done|]. split; [constructor; [by split; [eexists|]|done]|].
    split; [by rewrite Hrows', Hrows, <- app_assoc|]. split; [|split].
    + rewrite Hroots', Hroots, <- app_assoc. f_equal.
      destruct (becomes_root flatten r) eqn:Hroot.
      * rewrite filter_cons_True by done. cbn. by rewrite Hk.
      * rewrite filter_cons_False by (by rewrite Hroot). done.
    + intros Hix. apply Hne. rewrite Hch.
      destruct (becomes_root flatten r); [done|].
      by apply no_empty_list_register.
    + intros ->. rewrite (Hfl eq_refl), Hch. done.
Qed.

Lemma braintrust_index_from_keys (flatten : bool) (rows : list row) :
  ∀ ix ix' t,
    Braintrust.index_from flatten rows ix = (Ret ix', t) →
    Forall has_parents_key rows.
Proof.
  induction rows as [|r rest IH]; intros ix ix' t; cbn [Braintrust.index_from];
    [constructor|].
  intros (ix1 & t1 & t2 & Hrow & Hrest & ->)%bind_Ret_inv.
  apply braintrust_index_row_inv in Hrow as (_ & Hkey & _).
  constructor; [done|]. by eapply IH.
Qed.

Lemma langsmith_index_from_succeeds (flatten : bool) (rows : list row) :
  Forall (λ r, is_Some (row_id r) ∧ (flatten = false → has_parents_key r))
         rows →
  ∀ ix, succeeds (LangSmith.index_from flatten rows ix).
Proof.
  induction 1 as [|r rest [Hid Hkey] _ IH]; intros ix.
  - apply succeeds_mret.
  - cbn [LangSmith.index_from]. apply succeeds_bind.
    + by apply index_outcome_langsmith.
    + intros ix1 _ _. apply IH.
Qed.

Lemma index_row_raises (flatten : bool) (r : row) (ix : index) (o : outcome index)
    (t : list event) :
  LangSmith.index_row flatten r ix = (o, t)
  ∨ Braintrust.index_row flatten r ix = (o, t) →
  t = []
  ∧ o ≠ OutOfFuel
  ∧ ∀ e, o = Raise e → e = KeyError "id" ∨ e = KeyError "span_parents".
Proof.
  unfold LangSmith.index_row, Braintrust.index_row, declared_parents.
  destruct r as [k sid sp attrs inp out md]; cbn [span_parents row_id].
  assert (Hreg : ∀ ps c, register_parents
                          (mkRow k sid sp attrs inp out md) ps c
                        = match ps, k with
                          | [], _ => mret c
                          | _ :: _, None => raise (KeyError "id")
                          | _ :: _, Some k' =>
                              mret (foldl (λ c p, register_child p k' c) c ps)
                          end).
  { intros ps c. destruct k as [k'|].
    - erewrite register_parents_with_id by done. by destruct ps.
    - by destruct ps. }
  intros [H|H]; revert H;
    destruct flatten, sp as [| |[|p ps]], k as [k|];
    rewrite ?bind_mret, ?bind_raise, ?Hreg, ?bind_mret, ?bind_raise;
    cbn; intros [= <- <-];
    (split; [done|]); (split; [done|]); intros e [= <-]; auto.
Qed.

Lemma index_from_raises (flatten : bool) (rows : list row) :
  ∀ ix o t,
    LangSmith.index_from flatten rows ix = (o, t)
    ∨ Braintrust.index_from flatten rows ix = (o, t) →
    t = []
    ∧ o ≠ OutOfFuel
    ∧ ∀ e, o = Raise e → e = KeyError "id" ∨ e = KeyError "span_parents".
Proof.
  induction rows as [|r rest IH]; intros ix o t;
    cbn [LangSmith.index_from Braintrust.index_from].
  - intros [[= <- <-]|[= <- <-]]; by repeat split.
  - intros [H|H].
    + destruct (LangSmith.index_row flatten r ix) as [o1 t1] eqn:Hrow.
      destruct (index_row_raises flatten r ix o1 t1 (or_introl Hrow))
        as (-> & Hfuel & Hexn).
      destruct o1 as [ix1|e|]; [|injection H as <- <-; auto|done].
      rewrite bind_Ret in H. cbn [app] in H.
      apply (IH ix1). left. by rewrite <- H, <- surjective_pairing.
    + destruct (Braintrust.index_row flatten r ix) as [o1 t1] eqn:Hrow.
      destruct (index_row_raises flatten r ix o1 t1 (or_intror Hrow))
        as (-> & Hfuel & Hexn).
      destruct o1 as [ix1|e|]; [|injection H as <- <-; auto|done].
      rewrite bind_Ret in H. cbn [app] in H.
      apply (IH ix1). right. by rewrite <- H, <- surjective_pairing.
Qed.

Lemma braintrust_index_from_inv (flatten : bool) (rows : list row)
    (ix ix' : index) (t : list event) :
  Braintrust.index_from flatten rows ix = (Ret ix', t) →
  Forall has_parents_key rows
  ∧ LangSmith.index_from flatten rows ix = (Ret ix', t).
Proof.
  intros H. pose proof (braintrust_index_from_keys _ _ _ _ _ H) as Hkeys.
  split; [done|]. by rewrite <- index_from_agree.
Qed.

Lemma filter_becomes_root_true (rows : list row) :
  filter (λ r, becomes_root true r = true) rows = rows.
Proof.
  induction rows as [|r rest IH]; [done|].
  rewrite filter_cons_True by done. by rewrite IH.
Qed.

(** What either indexing loop has built when it returns. *)
Lemma index_rows_inv (flatten : bool) (rows : list row) (ix : index)
    (t : list event) :
  Braintrust.index_rows flatten rows = (Ret ix, t)
  ∨ LangSmith.index_rows flatten rows = (Ret ix, t) →
  t = []
  ∧ Forall (λ r, is_Some (row_id r) ∧ (flatten = false → has_parents_key r))
           rows
  ∧ ix_rows ix = indexed_row flatten <$> rows
  ∧ ix_roots ix
    = omap row_id (filter (λ r, becomes_root flatten r = true) rows)
  ∧ no_empty_list (ix_children ix)
  ∧ (flatten = true → ix_children ix = ∅)
  ∧ (flatten = false →
     ∀ p, children_get (ix_children ix) p = flat_map (links_to p) rows).
Proof.
  intros H.
  assert (Hls : LangSmith.index_rows flatten rows = (Ret ix, t)).
  { destruct H as [H|H]; [|done].
    by apply braintrust_index_from_inv in H as [_ H]. }
  clear H. unfold LangSmith.index_rows in Hls.
  pose proof (langsmith_index_from_inv _ _ _ _ _ Hls)
    as (-> & Hall & Hrows & Hroots & Hne & Hfl).
  cbn in Hrows, Hroots, Hne, Hfl.
  split; [done|]. split; [done|]. split; [done|]. split; [done|].
  split; [by apply Hne; intros p l; rewrite lookup_empty|].
  split; [done|]. intros -> p.
  destruct (index_from_links rows) with (ix := mkIndex [] ∅ [])
    as (ix2 & Hix2 & _ & Hch).
  { eapply Forall_impl; [exact Hall|]. intros r [? Hk]. split; [done|auto]. }
  rewrite Hls in Hix2. injection Hix2 as <-.
  rewrite Hch. cbn. unfold children_get. by rewrite lookup_empty.
Qed.

Lemma links_to_elem (p c : string) (r : row) :
  c ∈ links_to p r ↔ row_id r = Some c ∧ p ∈ parents_list r.
Proof.
  unfold links_to, parents_list.
  destruct (row_id r) as [k|], (span_parents r) as [| |ps];
    try (split;
         [ by intros ?%elem_of_nil
         | intros [H1 H2]; first [discriminate | by apply elem_of_nil in H2] ]).
  rewrite list_elem_of_fmap. split.
  - intros (q & -> & Hq). apply list_elem_of_filter in Hq as [-> Hq]. done.
  - intros [[= ->] Hp]. exists p. split; [done|].
    by apply list_elem_of_filter.
Qed.

Lemma children_get_nonempty (children : gmap string (list string))
    (p : string) :
  no_empty_list children →
  is_Some (children !! p) ↔ children_get children p ≠ [].
Proof.
  intros Hne. unfold children_get. destruct (children !! p) as [l|] eqn:Hl.
  - cbn. split; [intros _; by eapply Hne|by eexists].
  - cbn. split; [by intros [? ?]|done].
Qed.

(** ** Lookup tree: which record an id addresses *)

Lemma build_tree_from_total (rows : list row) :
  ∀ i tree0,
    (Forall (λ r, is_Some (row_id r)) rows
     ∧ ∃ tree, build_tree_from i rows tree0 = (Ret tree, []))
    ∨ (¬ Forall (λ r, is_Some (row_id r)) rows
       ∧ build_tree_from i rows tree0 = (Raise (KeyError "id"), [])).
Proof.
  induction rows as [|r rest IH]; intros i tree0; cbn [build_tree_from].
  - left. split; [constructor|by eexists].
  - destruct (row_id r) as [k|] eqn:Hk.
    + rewrite getitem_Some, bind_mret.
      destruct (IH (S i) (<[k:=i]> tree0)) as [[Hall Hret]|[Hnot Hraise]].
      * left. split; [constructor; [by rewrite Hk|done]|done].
      * right. split; [|done]. intros Hall. apply Hnot.
        by apply Forall_cons in Hall as [_ ?].
    + right. split; [|done]. intros Hall.
      apply Forall_cons in Hall as [[? Hid] _]. by rewrite Hk in Hid.
Qed.

Lemma build_tree_from_last (rows : list row) :
  ∀ i tree0 tree t,
    build_tree_from i rows tree0 = (Ret tree, t) →
    ∀ k,
      (tree !! k = tree0 !! k ∧ ∀ r, r ∈ rows → row_id r ≠ Some k)
      ∨ ∃ j r,
          tree !! k = Some (i + j) ∧ rows !! j = Some r ∧ row_id r = Some k
          ∧ ∀ j' r', j < j' → rows !! j' = Some r' → row_id r' ≠ Some k.
Proof.
  induction rows as [|r rest IH]; intros i tree0 tree t; cbn [build_tree_from].
  - intros [= <- <-] k. left. split; [done|]. by intros r ?%elem_of_nil.
  - intros (k0 & t1 & t2 & [Hk0 ->]%getitem_Ret_inv & Hrest & ->)%bind_Ret_inv k.
    destruct (IH _ _ _ _ Hrest k) as [[Hlook Hnone]|(j & r' & Hlook & Hj & Hid & Hlast)].
    + destruct (decide (k = k0)) as [->|Hne].
      * right. exists 0, r. rewrite Hlook, lookup_insert_eq, Nat.add_0_r.
        split; [done|]. split; [done|]. split; [done|].
        intros [|j'] r' Hlt Hj'; [lia|]. apply Hnone.
        by eapply list_elem_of_lookup_2.
      * left. rewrite Hlook, lookup_insert_ne by done. split; [done|].
        intros r' [->|Hin]%elem_of_cons; [congruence|by apply Hnone].
    + right. exists (S j), r'. rewrite Hlook. split; [f_equal; lia|].
      split; [done|]. split; [done|].
      intros [|j'] r'' Hlt Hj'; [lia|]. apply (Hlast j'); [lia|done].
Qed.

Lemma build_tree_lookup (rows : list row) (tree : gmap string nat)
    (t : list event) (k : string) (j : nat) :
  build_tree rows = (Ret tree, t) →
  tree !! k = Some j
  ↔ ∃ r, rows !! j = Some r ∧ row_id r = Some k
         ∧ ∀ j' r', j < j' → rows !! j' = Some r' → row_id r' ≠ Some k.
Proof.
  intros H. destruct (build_tree_from_last _ _ _ _ _ H k)
    as [[Hlook Hnone]|(j0 & r & Hlook & Hj & Hid & Hlast)].
  - rewrite Hlook, lookup_empty. split; [done|].
    intros (r & Hr & Hid & _). exfalso. eapply Hnone; [|done].
    by eapply list_elem_of_lookup_2.
  - rewrite Hlook. cbn. split.
    + intros [= <-]. by exists r.
    + intros (r' & Hr' & Hid' & Hlast'). f_equal.
      destruct (Nat.lt_trichotomy j0 j) as [Hlt|[->|Hlt]]; [|done|].
      * exfalso. by eapply (Hlast j r').
      * exfalso. by eapply (Hlast' j0 r).
Qed.

Lemma build_tree_dom (rows : list row) (tree : gmap string nat)
    (t : list event) (k : string) :
  build_tree rows = (Ret tree, t) →
  is_Some (tree !! k) ↔ ∃ r, r ∈ rows ∧ row_id r = Some k.
Proof.
  intros H. destruct (build_tree_from_last _ _ _ _ _ H k)
    as [[Hlook Hnone]|(j0 & r & Hlook & Hj & Hid & Hlast)].
  - rewrite Hlook, lookup_empty. split; [by intros [? ?]|].
    intros (r & Hr & Hid). exfalso. by eapply Hnone.
  - rewrite Hlook. split; [|by eexists]. intros _. exists r.
    split; [by eapply list_elem_of_lookup_2|done].
Qed.

(** X1. The lookup tree is built exactly when every record carries an id;
    a record without one ends the run with [KeyError "id"], nothing logged.
    When two records share an id the later one replaces the earlier: an id
    addresses the last record that carries it. *)
Theorem lookup_tree_keeps_last_record (rows : list row) :
  (succeeds (build_tree rows) ↔ Forall (λ r, is_Some (row_id r)) rows)
  ∧ (build_tree rows = (Raise (KeyError "id"), [])
     ↔ ¬ Forall (λ r, is_Some (row_id r)) rows)
  ∧ ∀ tree t,
      build_tree rows = (Ret tree, t) →
      t = []
      ∧ ∀ k j,
          tree !! k = Some j
          ↔ ∃ r, rows !! j = Some r ∧ row_id r = Some k
                 ∧ ∀ j' r', j < j' → rows !! j' = Some r' →
                            row_id r' ≠ Some k.
Proof.
  unfold build_tree at 1 2.
  destruct (build_tree_from_total rows 0 ∅) as [[Hall [tree Hret]]|[Hnot Hraise]].
  - split; [|split].
    + split; [done|]. intros _. by exists tree, [].
    + rewrite Hret. split; [done|]. by intros [].
    + intros tree' t H. split.
      * unfold build_tree in H. rewrite Hret in H. by injection H as _ <-.
      * intros k j. by eapply build_tree_lookup.
  - split; [|split].
    + rewrite Hraise. split; [by intros (? & ? & ?)|done].
    + by rewrite Hraise.
    + intros tree t H. unfold build_tree in H. by rewrite Hraise in H.
Qed.

(** ** Tree Indexer: outcome of the whole loop *)

Lemma row_id_indexed_row (flatten : bool) (r : row) :
  row_id (indexed_row flatten r) = row_id r.
Proof. unfold indexed_row. by destruct (becomes_root flatten r). Qed.

Lemma index_root_ids (flatten : bool) (rows : list row) (k : string) :
  k ∈ omap row_id (filter (λ r, becomes_root flatten r = true) rows)
  ↔ ∃ r, r ∈ rows ∧ becomes_root flatten r = true ∧ row_id r = Some k.
Proof.
  rewrite list_elem_of_omap. split.
  - intros (r & [Hroot Hr]%list_elem_of_filter & Hid). by exists r.
  - intros (r & Hr & Hroot & Hid). exists r. split; [|done].
    by apply list_elem_of_filter.
Qed.

(** X2. The indexing loop returns exactly when every record carries an id
    and a [span_parents] key; the LangSmith script, which tests for the key
    before deleting it, does without the key when flatten is on.  Otherwise
    the loop ends the run with [KeyError] on ["id"] or ["span_parents"]; it
    logs nothing either way. *)
Theorem index_succeeds_exactly (flatten : bool) (rows : list row) :
  (succeeds (LangSmith.index_rows flatten rows)
   ↔ Forall (λ r, is_Some (row_id r) ∧ (flatten = false → has_parents_key r))
            rows)
  ∧ (succeeds (Braintrust.index_rows flatten rows)
     ↔ Forall (λ r, is_Some (row_id r) ∧ has_parents_key r) rows)
  ∧ ∀ o t,
      LangSmith.index_rows flatten rows = (o, t)
      ∨ Braintrust.index_rows flatten rows = (o, t) →
      t = []
      ∧ o ≠ OutOfFuel
      ∧ ∀ e, o = Raise e → e = KeyError "id" ∨ e = KeyError "span_parents".
Proof.
  split; [|split].
  - split.
    + intros (ix & t & H).
      by destruct (index_rows_inv flatten rows ix t (or_intror H))
        as (_ & Hall & _).
    + intros Hall. by apply langsmith_index_from_succeeds.
  - split.
    + intros (ix & t & H).
      pose proof (braintrust_index_from_keys _ _ _ _ _ H) as Hkeys.
      destruct (index_rows_inv flatten rows ix t (or_introl H))
        as (_ & Hall & _).
      apply Forall_forall. intros r Hr. split.
      * by eapply (proj1 (Forall_forall _ _) Hall).
      * by eapply (proj1 (Forall_forall _ _) Hkeys).
    + intros Hall. unfold Braintrust.index_rows.
      rewrite index_from_agree
        by (eapply Forall_impl; [exact Hall|]; by intros r [_ ?]).
      apply langsmith_index_from_succeeds.
      eapply Forall_impl; [exact Hall|]. intros r [? ?]. by split.
  - intros o t H. by eapply index_from_raises.
Qed.

(** X3. When the indexing loop of either script returns, the row objects
    stand where they stood and differ from the parsed records in one key
    only: a record made a root has lost its [span_parents] key and its id is
    in [roots]; any other record still holds its non-empty parent list.  No
    row object is left with a null or empty [span_parents]. *)
Theorem index_keeps_row_objects_in_place (flatten : bool) (rows : list row)
    (ix : index) (t : list event) :
  Braintrust.index_rows flatten rows = (Ret ix, t)
  ∨ LangSmith.index_rows flatten rows = (Ret ix, t) →
  length (ix_rows ix) = length rows
  ∧ ∀ j r0,
      rows !! j = Some r0 →
      ∃ r k,
        ix_rows ix !! j = Some r
        ∧ row_id r0 = Some k ∧ row_id r = Some k
        ∧ span_id r = span_id r0
        ∧ span_attributes r = span_attributes r0
        ∧ input r = input r0 ∧ output r = output r0
        ∧ metadata r = metadata r0
        ∧ ((span_parents r = SpAbsent ∧ k ∈ ix_roots ix
            ∧ becomes_root flatten r0 = true)
           ∨ (flatten = false ∧ r = r0
              ∧ ∃ p ps, span_parents r = SpList (p :: ps))).
Proof.
  intros H.
  destruct (index_rows_inv flatten rows ix t H)
    as (_ & Hall & Hrows & Hroots & _).
  split; [by rewrite Hrows, length_fmap|].
  intros j r0 Hj.
  assert (Hin : r0 ∈ rows) by by eapply list_elem_of_lookup_2.
  destruct (proj1 (Forall_forall _ _) Hall r0 Hin) as [[k Hk] _].
  exists (indexed_row flatten r0), k.
  split; [by rewrite Hrows, list_lookup_fmap, Hj|].
  split; [done|]. split; [by rewrite row_id_indexed_row|].
  unfold indexed_row. destruct (becomes_root flatten r0) eqn:Hroot.
  - cbn. repeat (split; [done|]). left. split; [done|]. split; [|done].
    rewrite Hroots. apply index_root_ids. by exists r0.
  - repeat (split; [done|]). right.
    unfold becomes_root, declares_parents in Hroot.
    destruct flatten; [done|]. split; [done|]. split; [done|].
    destruct (span_parents r0) as [| |[|p ps]]; try done. by exists p, ps.
Qed.

Lemma index_keeps_row_objects_in_place_witness :
  length (ix_rows chain_index) = length chain_rows
  ∧ ix_rows chain_index !! 0 = Some (chain_row "A" "a" SpAbsent).
Proof.
  split.
  - by apply (index_keeps_row_objects_in_place false chain_rows chain_index
                []); left.
  - reflexivity.
Defined.

Lemma index_children_ids (flatten : bool) (rows : list row) (ix : index)
    (t : list event) :
  Braintrust.index_rows flatten rows = (Ret ix, t)
  ∨ LangSmith.index_rows flatten rows = (Ret ix, t) →
  ∀ p c, c ∈ children_get (ix_children ix) p
         ↔ flatten = false
           ∧ ∃ r, r ∈ rows ∧ row_id r = Some c ∧ p ∈ parents_list r.
Proof.
  intros H.
  destruct (index_rows_inv flatten rows ix t H)
    as (_ & Hall & _ & _ & Hne & Hon & Hoff).
  intros p c. destruct flatten.
  - rewrite (Hon eq_refl). unfold children_get. rewrite lookup_empty. cbn.
    split; [by intros ?%elem_of_nil|by intros [? _]].
  - rewrite (Hoff eq_refl), list_elem_of_In, in_flat_map. split.
    + intros (r & Hr%list_elem_of_In & Hc%list_elem_of_In).
      apply links_to_elem in Hc as [? ?]. split; [done|]. by exists r.
    + intros [_ (r & Hr & Hid & Hp)]. exists r.
      rewrite <- !list_elem_of_In. split; [done|]. by apply links_to_elem.
Qed.

(** X4. When the indexing loop of either script returns, [children] has a
    key exactly for the span ids that some record declares as a parent (with
    flatten on it has none), no key holds an empty list, and the ids under a
    key are the ids of the records that declare it. *)
Theorem children_hold_declared_parents (flatten : bool) (rows : list row)
    (ix : index) (t : list event) :
  Braintrust.index_rows flatten rows = (Ret ix, t)
  ∨ LangSmith.index_rows flatten rows = (Ret ix, t) →
  no_empty_list (ix_children ix)
  ∧ (∀ p, is_Some (ix_children ix !! p)
          ↔ flatten = false ∧ ∃ r, r ∈ rows ∧ p ∈ parents_list r)
  ∧ (∀ p c, c ∈ children_get (ix_children ix) p
            ↔ flatten = false
              ∧ ∃ r, r ∈ rows ∧ row_id r = Some c ∧ p ∈ parents_list r).
Proof.
  intros H.
  destruct (index_rows_inv flatten rows ix t H)
    as (_ & Hall & _ & _ & Hne & _).
  pose proof (index_children_ids flatten rows ix t H) as Hkids.
  split; [done|]. split; [|done].
  intros p. rewrite children_get_nonempty by done. split.
  - intros Hp. destruct (children_get (ix_children ix) p) as [|c l] eqn:Hl;
      [done|].
    assert (Hc : c ∈ children_get (ix_children ix) p)
      by (rewrite Hl; apply elem_of_cons; by left).
    apply Hkids in Hc as [? (r & ? & ? & ?)]. split; [done|]. by exists r.
  - intros [Hf (r & Hr & Hp)].
    destruct (proj1 (Forall_forall _ _) Hall r Hr) as [[k Hk] _].
    assert (Hc : k ∈ children_get (ix_children ix) p).
    { apply Hkids. split; [done|]. by exists r. }
    intros Hnil. rewrite Hnil in Hc. by apply elem_of_nil in Hc.
Qed.

Lemma children_hold_declared_parents_witness :
  no_empty_list chain_children
  ∧ (is_Some (chain_children !! "a")
     ↔ false = false ∧ ∃ r, r ∈ chain_rows ∧ "a" ∈ parents_list r).
Proof.
  destruct (children_hold_declared_parents false chain_rows chain_index [])
    as (Hne & Hkeys & _); [by left|].
  split; [exact Hne|exact (Hkeys "a")].
Defined.

(** X5. Lookups by id never miss.  Once the lookup tree and the index are
    built from the same records, every id in [roots] and every id registered
    in [children] is a key of the lookup tree, and the row object found
    carries that id: [tree[root]] and [tree[node_id]] cannot raise. *)
Theorem lookups_never_miss (flatten : bool) (rows : list row)
    (tree : gmap string nat) (ix : index) (t0 t : list event) :
  build_tree rows = (Ret tree, t0) →
  Braintrust.index_rows flatten rows = (Ret ix, t)
  ∨ LangSmith.index_rows flatten rows = (Ret ix, t) →
  tree_ok tree (ix_rows ix)
  ∧ (∀ root, root ∈ ix_roots ix →
       ∃ j r, tree_get tree (ix_rows ix) root = mret (j, r)
              ∧ row_id r = Some root)
  ∧ (∀ p c, c ∈ children_get (ix_children ix) p →
       ∃ j r, tree_get tree (ix_rows ix) c = mret (j, r)
              ∧ row_id r = Some c).
Proof.
  intros Htree H.
  destruct (index_rows_inv flatten rows ix t H)
    as (_ & Hall & Hrows & Hroots & _).
  pose proof (index_children_ids flatten rows ix t H) as Hkids.
  assert (Hok : tree_ok tree (ix_rows ix)).
  { eapply tree_ok_same_ids; [|by eapply build_tree_ok].
    rewrite Hrows, <- list_fmap_compose. apply list_fmap_ext.
    intros i r _. apply row_id_indexed_row. }
  assert (Hget : ∀ k, (∃ r, r ∈ rows ∧ row_id r = Some k) →
            ∃ j r, tree_get tree (ix_rows ix) k = mret (j, r)
                   ∧ row_id r = Some k).
  { intros k Hk. apply (build_tree_dom rows tree t0 k Htree) in Hk as [j Hj].
    destruct (Hok k j Hj) as (r & Hr & Hid). exists j, r.
    split; [by apply succeeds_tree_get|done]. }
  split; [done|]. split.
  - intros root Hroot. apply Hget. rewrite Hroots in Hroot.
    apply index_root_ids in Hroot as (r & ? & _ & ?). by exists r.
  - intros p c Hc. apply Hget. apply Hkids in Hc as [_ (r & ? & ? & _)].
    by exists r.
Qed.

Lemma lookups_never_miss_witness :
  ∃ j r, tree_get chain_tree (ix_rows chain_index) "C" = mret (j, r)
         ∧ row_id r = Some "C".
Proof.
  destruct (lookups_never_miss false chain_rows chain_tree chain_index [] [])
    as (_ & _ & Hkids); [reflexivity|by left|].
  apply (Hkids "b" "C"). vm_compute. apply elem_of_cons. by left.
Defined.

(** ** Traces of computations, whatever their outcome *)

Lemma trace_bind {A B} (P : event → Prop) (m : W A) (k : A → W B) :
  Forall P (snd m) →
  (∀ a, fst m = Ret a → Forall P (snd (k a))) →
  Forall P (snd (m ≫= k)).
Proof.
  intros Hm Hk. rewrite snd_bind. apply Forall_app. split; [done|].
  destruct (fst m) as [a|e|]; [by apply Hk|constructor..].
Qed.

Lemma trace_getitem {A} (P : event → Prop) (k : string) (o : option A) :
  Forall P (snd (getitem k o)).
Proof. destruct o; constructor. Qed.

Lemma trace_tree_get (P : event → Prop) (tree : gmap string nat)
    (store : list row) (n : string) :
  Forall P (snd (tree_get tree store n)).
Proof.
  unfold tree_get. destruct (tree !! n) as [i|]; [|constructor].
  destruct (store !! i); constructor.
Qed.

Lemma trace_emit (P : event → Prop) (ev : event) :
  P ev → Forall P (snd (emit ev)).
Proof. intros H. by constructor. Qed.

Lemma trace_for_each {A} (P : event → Prop) (body : A → W unit)
    (xs : list A) :
  (∀ x, x ∈ xs → Forall P (snd (body x))) →
  Forall P (snd (for_each body xs)).
Proof.
  induction xs as [|x rest IH]; intros H; cbn [for_each]; [constructor|].
  apply trace_bind.
  - apply H, elem_of_cons. by left.
  - intros _ _. apply IH. intros y Hy. apply H, elem_of_cons. by right.
Qed.

Lemma snd_with_span {A} (p : option string) (n name : string) (body : W A) :
  snd (Braintrust.with_span p n name body)
  = Open p n name
    :: snd body ++ match fst body with
                  | OutOfFuel => []
                  | _ => [Close n]
                  end.
Proof.
  unfold Braintrust.with_span. destruct body as [[a|e|] t]; cbn;
    [done|done|by rewrite app_nil_r].
Qed.

Lemma trace_with_span {A} (P : event → Prop) (p : option string)
    (n name : string) (body : W A) :
  P (Open p n name) → P (Close n) → Forall P (snd body) →
  Forall P (snd (Braintrust.with_span p n name body)).
Proof.
  intros Ho Hc Hb. rewrite snd_with_span. constructor; [done|].
  apply Forall_app. split; [done|].
  destruct (fst body); by repeat constructor.
Qed.

Lemma tree_get_fst_inv (tree : gmap string nat) (store : list row)
    (n : string) (i : nat) (r : row) :
  fst (tree_get tree store n) = Ret (i, r) →
  tree !! n = Some i ∧ store !! i = Some r.
Proof.
  unfold tree_get. destruct (tree !! n) as [j|]; [|done].
  destruct (store !! j) as [r'|] eqn:Hr; [|done]. cbn. by intros [= <- <-].
Qed.

Lemma getitem_fst_inv {A} (k : string) (o : option A) (a : A) :
  fst (getitem k o) = Ret a → o = Some a.
Proof. destruct o; cbn; [by intros [= <-]|done]. Qed.

Lemma kids_of_lookup (children : gmap string (list string))
    (tree : gmap string nat) (store : list row) (n : string) (i : nat)
    (r : row) (sid : string) :
  tree !! n = Some i → store !! i = Some r → span_id r = Some sid →
  kids_of children tree store n = children_get children sid.
Proof. intros Hn Hi Hsid. unfold kids_of. by rewrite Hn, Hi, Hsid. Qed.

(** The emission below a child sends child events only, whether it returns,
    raises or runs on. *)
Lemma log_child_span_child_events (children : gmap string (list string))
    (tree : gmap string nat) (store : list row) :
  ∀ fuel p n,
    Forall (λ ev, is_child_event ev = true)
           (snd (Braintrust.log_child_span fuel p n children tree store)).
Proof.
  induction fuel as [|fuel IH]; intros p n; cbn [Braintrust.log_child_span];
    [constructor|].
  apply trace_bind; [apply trace_tree_get|]. intros [i r] _.
  apply trace_bind; [apply trace_getitem|]. intros attrs _.
  apply trace_bind; [apply trace_getitem|]. intros name _.
  apply trace_with_span; [done..|].
  apply trace_bind; [apply trace_getitem|]. intros inp _.
  apply trace_bind; [apply trace_getitem|]. intros out _.
  apply trace_bind; [by apply trace_emit|]. intros _ _.
  apply trace_bind; [apply trace_getitem|]. intros sid _.
  apply trace_for_each. intros c _. apply IH.
Qed.

Lemma log_child_run_child_events (children : gmap string (list string))
    (tree : gmap string nat) (store : list row) :
  ∀ fuel p n,
    Forall (λ ev, is_child_event ev = true)
           (snd (LangSmith.log_child_run fuel p n children tree store)).
Proof.
  induction fuel as [|fuel IH]; intros p n; cbn [LangSmith.log_child_run];
    [constructor|].
  apply trace_bind; [apply trace_tree_get|]. intros [i r] _.
  apply trace_bind; [apply trace_getitem|]. intros attrs _.
  apply trace_bind; [apply trace_getitem|]. intros name _.
  apply trace_bind; [apply trace_getitem|]. intros inp _.
  apply trace_bind; [apply trace_getitem|]. intros out _.
  apply trace_bind; [by apply trace_emit|]. intros _ _.
  apply trace_bind; [by apply trace_emit|]. intros _ _.
  apply trace_bind; [apply trace_getitem|]. intros sid _.
  apply trace_bind; [|intros _ _; by apply trace_emit].
  apply trace_for_each. intros c _. apply IH.
Qed.

(** ** Reads that log nothing *)

Lemma silent_bind {A B} (Q : W B → Prop) (m : W A) (k : A → W B) :
  snd m = [] →
  fst m ≠ OutOfFuel →
  (∀ e, Q (Raise e, [])) →
  (∀ a, fst m = Ret a → Q (k a)) →
  Q (m ≫= k).
Proof.
  destruct m as [[a|e|] t]; cbn; intros -> Hfuel Hraise Hret; [| |done].
  - rewrite bind_Ret. cbn. rewrite <- surjective_pairing. by apply Hret.
  - rewrite bind_Raise. apply Hraise.
Qed.

Lemma snd_getitem {A} (k : string) (o : option A) : snd (getitem k o) = [].
Proof. by destruct o. Qed.

Lemma snd_tree_get (tree : gmap string nat) (store : list row) (n : string) :
  snd (tree_get tree store n) = [].
Proof.
  unfold tree_get. destruct (tree !! n) as [i|]; [|done].
  by destruct (store !! i).
Qed.

Ltac silent_read :=
  apply silent_bind;
  [ first [apply snd_getitem | apply snd_tree_get]
  | first [apply getitem_returns | apply tree_get_returns]
  | |].

(** ** Counting the events of a trace *)

Lemma count_events_app (f : event → bool) (t1 t2 : list event) :
  count_events f (t1 ++ t2) = count_events f t1 + count_events f t2.
Proof. unfold count_events. by rewrite filter_app, length_app. Qed.

Lemma count_events_cons (f : event → bool) (ev : event) (t : list event) :
  count_events f (ev :: t) = (if f ev then 1 else 0) + count_events f t.
Proof.
  unfold count_events. destruct (f ev) eqn:Hf.
  - by rewrite filter_cons_True.
  - rewrite filter_cons_False; [done|]. by rewrite Hf.
Qed.

Lemma count_events_none (f : event → bool) (t : list event) :
  Forall (λ ev, f ev = false) t → count_events f t = 0.
Proof.
  induction 1 as [|ev t Hev _ IH]; [done|].
  by rewrite count_events_cons, Hev, IH.
Qed.

Lemma nested_balanced (t : list event) :
  nested t → count_events is_close t = count_events is_open t.
Proof.
  induction 1 as [|n inp out md rest _ IH|p n name body rest _ IHb _ IHr].
  - done.
  - by rewrite !count_events_cons.
  - rewrite !count_events_cons, !count_events_app, !count_events_cons.
    cbn. lia.
Qed.

(** ** Braintrust: a span is closed however its block is left *)

Lemma closes_bind {A B} (m : W A) (k : A → W B) :
  closes_what_it_opens m → (∀ a, closes_what_it_opens (k a)) →
  closes_what_it_opens (m ≫= k).
Proof.
  unfold closes_what_it_opens. rewrite fst_bind, snd_bind.
  intros Hm Hk Hfuel. destruct (fst m) as [a|e|] eqn:Hfst; [| |done].
  - apply nested_app; [by apply Hm|by apply Hk].
  - rewrite app_nil_r. by apply Hm.
Qed.

Lemma closes_raise {A} (e : exn) :
  closes_what_it_opens ((Raise e, []) : W A).
Proof. intros _. constructor. Qed.

Lemma closes_for_each {A} (body : A → W unit) (xs : list A) :
  (∀ x, x ∈ xs → closes_what_it_opens (body x)) →
  closes_what_it_opens (for_each body xs).
Proof.
  induction xs as [|x rest IH]; intros H; cbn [for_each].
  - intros _. constructor.
  - apply closes_bind; [apply H, elem_of_cons; by left|].
    intros _. apply IH. intros y Hy. apply H, elem_of_cons. by right.
Qed.

Lemma closes_with_span {A} (p : option string) (n name : string)
    (body : W A) :
  closes_what_it_opens body →
  closes_what_it_opens (Braintrust.with_span p n name body).
Proof.
  unfold closes_what_it_opens. rewrite fst_with_span, snd_with_span.
  intros Hb Hfuel. specialize (Hb Hfuel).
  destruct (fst body); [| |done];
    apply (nested_span p n name (snd body) []); by try constructor.
Qed.

Lemma closes_attach {B} (n : string) (inp out : value)
    (md : option (gmap string value)) (k : unit → W B) :
  closes_what_it_opens (k tt) →
  closes_what_it_opens (emit (Attach n inp out md) ≫= k).
Proof.
  unfold closes_what_it_opens. rewrite bind_emit. cbn [fst snd].
  intros Hk Hfuel. constructor. by apply Hk.
Qed.

Lemma log_child_span_closes (children : gmap string (list string))
    (tree : gmap string nat) (store : list row) :
  ∀ fuel p n,
    closes_what_it_opens
      (Braintrust.log_child_span fuel p n children tree store).
Proof.
  induction fuel as [|fuel IH]; intros p n; cbn [Braintrust.log_child_span];
    [by intros ?|].
  silent_read; [intros; apply closes_raise|]. intros [i r] _.
  silent_read; [intros; apply closes_raise|]. intros attrs _.
  silent_read; [intros; apply closes_raise|]. intros name _.
  apply closes_with_span.
  silent_read; [intros; apply closes_raise|]. intros inp _.
  silent_read; [intros; apply closes_raise|]. intros out _.
  apply closes_attach.
  silent_read; [intros; apply closes_raise|]. intros sid _.
  apply closes_for_each. intros c _. apply IH.
Qed.

Lemma braintrust_replay_root_closes (fuel : nat)
    (children : gmap string (list string)) (tree : gmap string nat)
    (store : list row) (root : string) :
  closes_what_it_opens
    (Braintrust.replay_root fuel children tree store root).
Proof.
  unfold Braintrust.replay_root.
  silent_read; [intros; apply closes_raise|]. intros [i r] _.
  apply closes_with_span.
  silent_read; [intros; apply closes_raise|]. intros md _.
  silent_read; [intros; apply closes_raise|]. intros inp _.
  silent_read; [intros; apply closes_raise|]. intros out _.
  apply closes_attach.
  silent_read; [intros; apply closes_raise|]. intros sid _.
  apply closes_bind; [|intros _ _; constructor].
  apply closes_for_each. intros c _. apply log_child_span_closes.
Qed.

(** ** LangSmith: a run is ended only when its loop returns *)

Lemma never_overcloses_bind {A B} (m : W A) (k : A → W B) :
  never_overcloses m → (∀ a, never_overcloses (k a)) →
  never_overcloses (m ≫= k).
Proof.
  unfold never_overcloses. rewrite fst_bind, snd_bind.
  intros [Hle Heq] Hk. destruct (fst m) as [a|e|] eqn:Hfst.
  - destruct (Hk a) as [Hle' Heq']. specialize (Heq a eq_refl).
    rewrite !count_events_app. split; [lia|].
    intros b Hb. specialize (Heq' b Hb). lia.
  - rewrite app_nil_r. by split.
  - rewrite app_nil_r. by split.
Qed.

Lemma never_overcloses_for_each {A} (body : A → W unit) (xs : list A) :
  (∀ x, x ∈ xs → never_overcloses (body x)) →
  never_overcloses (for_each body xs).
Proof.
  induction xs as [|x rest IH]; intros H; cbn [for_each]; [by split|].
  apply never_overcloses_bind; [apply H, elem_of_cons; by left|].
  intros _. apply IH. intros y Hy. apply H, elem_of_cons. by right.
Qed.

(** A run opened, its payload attached, further work done, the run ended:
    the shape of both [log_child_run] and the root step. *)
Lemma run_block (p : option string) (n name : string) (inp out : value)
    (md : option (gmap string value)) (sid : option string)
    (loop : string → W unit) :
  (∀ s, never_overcloses (loop s)) →
  let m := emit (Open p n name);; emit (Attach n inp out md);;
           s ← getitem "span_id" sid; loop s;; emit (Close n) in
  never_overcloses m ∧ leaves_open_on_raise m.
Proof.
  intros Hloop m. subst m. rewrite !bind_emit. cbn [fst snd].
  destruct sid as [s|].
  - rewrite getitem_Some, bind_mret.
    destruct (Hloop s) as [Hle Heq]. revert Hle Heq.
    unfold never_overcloses, leaves_open_on_raise.
    rewrite fst_bind, snd_bind. cbn [fst snd].
    destruct (fst (loop s)) as [[]|e|]; intros Hle Heq; unfold emit;
      cbn [fst snd];
      rewrite ?app_nil_r, !count_events_cons, ?count_events_app,
        ?count_events_cons; cbn.
    + specialize (Heq tt eq_refl). split; [split; [lia|intros; lia]|done].
    + split; [split; [lia|done]|]. intros _ _. right. lia.
    + split; [split; [lia|done]|done].
  - cbn [getitem]. rewrite bind_raise.
    unfold never_overcloses, leaves_open_on_raise, raise. cbn [fst snd].
    rewrite !count_events_cons. cbn.
    split; [split; [lia|done]|]. intros _ _. right. lia.
Qed.

Lemma log_child_run_open (children : gmap string (list string))
    (tree : gmap string nat) (store : list row) :
  ∀ fuel p n,
    never_overcloses (LangSmith.log_child_run fuel p n children tree store)
    ∧ leaves_open_on_raise
        (LangSmith.log_child_run fuel p n children tree store).
Proof.
  induction fuel as [|fuel IH]; intros p n; cbn [LangSmith.log_child_run];
    [by split|].
  set (Q := λ m : W unit, never_overcloses m ∧ leaves_open_on_raise m).
  change (Q (tree_get tree store n ≫= λ '(_, child_row),
             attrs ← getitem "span_attributes" (span_attributes child_row);
             name ← getitem "name" (attr_name attrs);
             inp ← getitem "input" (input child_row);
             out ← getitem "output" (output child_row);
             emit (Open (Some p) n name);;
             emit (Attach n inp out None);;
             sid ← getitem "span_id" (span_id child_row);
             for_each
               (λ child_id,
                  LangSmith.log_child_run fuel n child_id children tree store)
               (children_get children sid);;
             emit (Close n))).
  assert (Hraise : ∀ e, Q (Raise e, [])).
  { intros e. split; [by split|]. intros ? _. by left. }
  silent_read; [done|]. intros [i r] _.
  silent_read; [done|]. intros attrs _.
  silent_read; [done|]. intros name _.
  silent_read; [done|]. intros inp _.
  silent_read; [done|]. intros out _.
  apply (run_block (Some p) n name inp out None (span_id r)
           (λ s, for_each
                   (λ child_id,
                      LangSmith.log_child_run fuel n child_id children tree
                        store)
                   (children_get children s))).
  intros s. apply never_overcloses_for_each. intros c _. apply IH.
Qed.

Lemma langsmith_replay_root_open (fuel : nat)
    (children : gmap string (list string)) (tree : gmap string nat)
    (store : list row) (root : string) :
  never_overcloses (LangSmith.replay_root fuel children tree store root)
  ∧ leaves_open_on_raise
      (LangSmith.replay_root fuel children tree store root).
Proof.
  unfold LangSmith.replay_root.
  set (Q := λ m : W unit, never_overcloses m ∧ leaves_open_on_raise m).
  change (Q (tree_get tree store root ≫= λ '(_, r),
             inp ← getitem "input" (input r);
             out ← getitem "output" (output r);
             md ← getitem "metadata" (metadata r);
             emit (Open None root ROOT_RUN_NAME);;
             emit (Attach root inp out (Some md));;
             sid ← getitem "span_id" (span_id r);
             for_each
               (λ child_id,
                  LangSmith.log_child_run fuel root child_id children tree
                    store)
               (children_get children sid);;
             emit (Close root))).
  assert (Hraise : ∀ e, Q (Raise e, [])).
  { intros e. split; [by split|]. intros ? _. by left. }
  silent_read; [done|]. intros [i r] _.
  silent_read; [done|]. intros inp _.
  silent_read; [done|]. intros out _.
  silent_read; [done|]. intros md _.
  apply (run_block None root ROOT_RUN_NAME inp out (Some md) (span_id r)
           (λ s, for_each
                   (λ child_id,
                      LangSmith.log_child_run fuel root child_id children
                        tree store)
                   (children_get children s))).
  intros s. apply never_overcloses_for_each. intros c _.
  apply log_child_run_open.
Qed.

(** ** Spans and runs when the emission raises *)

(** X6. In the Braintrust script a span is closed however its [with] block
    is left: whenever the emission of a child or of a root ends, by
    returning or by raising from any depth, the trace is well bracketed and
    as many spans are closed as were opened.  A root whose record lacks
    [span_id] is an instance: its span is opened, the payload attached, and
    the span closed before the [KeyError] leaves the block. *)
Theorem braintrust_closes_spans_on_error (fuel : nat)
    (children : gmap string (list string)) (tree : gmap string nat)
    (store : list row) (p n : string) :
  (∀ o t,
     Braintrust.log_child_span fuel p n children tree store = (o, t) →
     o ≠ OutOfFuel →
     nested t ∧ count_events is_close t = count_events is_open t)
  ∧ (∀ o t,
       Braintrust.replay_root fuel children tree store n = (o, t) →
       o ≠ OutOfFuel →
       nested t ∧ count_events is_close t = count_events is_open t)
  ∧ (∀ i r inp out md,
       tree !! n = Some i → store !! i = Some r →
       input r = Some inp → output r = Some out → metadata r = Some md →
       span_id r = None →
       Braintrust.replay_root fuel children tree store n
       = (Raise (KeyError "span_id"),
          [Open None n ROOT_SPAN_NAME;
           Attach n inp out (Some (<["model" := VStr DEFAULT_MODEL]> md));
           Close n])).
Proof.
  split; [|split].
  - intros o t H Hfuel.
    pose proof (log_child_span_closes children tree store fuel p n) as Hc.
    unfold closes_what_it_opens in Hc. rewrite H in Hc.
    split; [|apply nested_balanced]; by apply Hc.
  - intros o t H Hfuel.
    pose proof (braintrust_replay_root_closes fuel children tree store n)
      as Hc.
    unfold closes_what_it_opens in Hc. rewrite H in Hc.
    split; [|apply nested_balanced]; by apply Hc.
  - intros i r inp out md Hn Hi Hinp Hout Hmd Hsid.
    unfold Braintrust.replay_root.
    rewrite (succeeds_tree_get _ _ _ _ _ Hn Hi), bind_mret, Hmd.
    cbn [getitem set_metadata input output span_id].
    rewrite bind_mret, Hinp, Hout, Hsid. cbn [getitem].
    by rewrite !bind_mret, bind_emit, bind_raise.
Qed.

(** X7. In the LangSmith script a run is ended and posted only when the loop
    over its children returns: when the emission of a child or of a root
    raises after it has created a run, fewer runs have been ended than were
    created, so at least the run it was in is never posted.  A root whose
    record lacks [span_id] is an instance: its run is created and then
    abandoned. *)
Theorem langsmith_leaves_runs_open_on_error (fuel : nat)
    (children : gmap string (list string)) (tree : gmap string nat)
    (store : list row) (p n : string) :
  (∀ e t,
     LangSmith.log_child_run fuel p n children tree store = (Raise e, t)
     ∨ LangSmith.replay_root fuel children tree store n = (Raise e, t) →
     t = [] ∨ count_events is_close t < count_events is_open t)
  ∧ (∀ o t,
       LangSmith.log_child_run fuel p n children tree store = (o, t)
       ∨ LangSmith.replay_root fuel children tree store n = (o, t) →
       count_events is_close t ≤ count_events is_open t)
  ∧ (∀ i r inp out md,
       tree !! n = Some i → store !! i = Some r →
       input r = Some inp → output r = Some out → metadata r = Some md →
       span_id r = None →
       LangSmith.replay_root fuel children tree store n
       = (Raise (KeyError "span_id"),
          [Open None n ROOT_RUN_NAME; Attach n inp out (Some md)])).
Proof.
  destruct (log_child_run_open children tree store fuel p n)
    as [[Hle _] Hopen].
  destruct (langsmith_replay_root_open fuel children tree store n)
    as [[Hle' _] Hopen'].
  split; [|split].
  - intros e t [H|H].
    + specialize (Hopen e). rewrite H in Hopen. by apply Hopen.
    + specialize (Hopen' e). rewrite H in Hopen'. by apply Hopen'.
  - intros o t [H|H]; [by rewrite H in Hle|by rewrite H in Hle'].
  - intros i r inp out md Hn Hi Hinp Hout Hmd Hsid.
    unfold LangSmith.replay_root.
    rewrite (succeeds_tree_get _ _ _ _ _ Hn Hi), bind_mret, Hinp, Hout, Hmd,
      Hsid.
    cbn [getitem]. by rewrite !bind_mret, !bind_emit, bind_raise.
Qed.

(** ** Which records a replay reaches *)

Lemma log_child_span_opened_under (kids : string → list string)
    (roots : list string) (children : gmap string (list string))
    (tree : gmap string nat) (store : list row) :
  (∀ n, kids_of children tree store n = kids n) →
  ∀ fuel p n,
    n ∈ kids p →
    (∃ root, root ∈ roots ∧ rtc (λ a b, b ∈ kids a) root p) →
    Forall (opened_under kids roots)
           (snd (Braintrust.log_child_span fuel p n children tree store)).
Proof.
  intros Hkids. induction fuel as [|fuel IH]; intros p n Hn Hp;
    cbn [Braintrust.log_child_span]; [constructor|].
  apply trace_bind; [apply trace_tree_get|].
  intros [i r] [Hi Hr]%tree_get_fst_inv.
  apply trace_bind; [apply trace_getitem|]. intros attrs _.
  apply trace_bind; [apply trace_getitem|]. intros name _.
  apply trace_with_span; [done..|].
  apply trace_bind; [apply trace_getitem|]. intros inp _.
  apply trace_bind; [apply trace_getitem|]. intros out _.
  apply trace_bind; [by apply trace_emit|]. intros _ _.
  apply trace_bind; [apply trace_getitem|]. intros sid Hsid%getitem_fst_inv.
  apply trace_for_each. intros c Hc. apply IH.
  - by rewrite <- Hkids, (kids_of_lookup _ _ _ _ _ _ _ Hi Hr Hsid).
  - destruct Hp as (root & Hroot & Hreach). exists root. split; [done|].
    eapply rtc_r; [exact Hreach|done].
Qed.

Lemma log_child_run_opened_under (roots : list string)
    (children : gmap string (list string)) (tree : gmap string nat)
    (store : list row) :
  ∀ fuel p n,
    n ∈ kids_of children tree store p →
    (∃ root, root ∈ roots ∧ rtc (edge children tree store) root p) →
    Forall (opened_under (kids_of children tree store) roots)
           (snd (LangSmith.log_child_run fuel p n children tree store)).
Proof.
  induction fuel as [|fuel IH]; intros p n Hn Hp;
    cbn [LangSmith.log_child_run]; [constructor|].
  apply trace_bind; [apply trace_tree_get|].
  intros [i r] [Hi Hr]%tree_get_fst_inv.
  apply trace_bind; [apply trace_getitem|]. intros attrs _.
  apply trace_bind; [apply trace_getitem|]. intros name _.
  apply trace_bind; [apply trace_getitem|]. intros inp _.
  apply trace_bind; [apply trace_getitem|]. intros out _.
  apply trace_bind; [by apply trace_emit|]. intros _ _.
  apply trace_bind; [by apply trace_emit|]. intros _ _.
  apply trace_bind; [apply trace_getitem|]. intros sid Hsid%getitem_fst_inv.
  apply trace_bind; [|intros _ _; by apply trace_emit].
  apply trace_for_each. intros c Hc. apply IH.
  - by rewrite (kids_of_lookup _ _ _ _ _ _ _ Hi Hr Hsid).
  - destruct Hp as (root & Hroot & Hreach). exists root. split; [done|].
    eapply rtc_r; [exact Hreach|done].
Qed.

Lemma braintrust_replay_root_opened_under (kids : string → list string)
    (roots : list string) (fuel : nat)
    (children : gmap string (list string)) (tree : gmap string nat)
    (store : list row) (root : string) :
  (∀ n, kids_of children tree store n = kids n) →
  root ∈ roots →
  Forall (opened_under kids roots)
         (snd (Braintrust.replay_root fuel children tree store root)).
Proof.
  intros Hkids Hroot. unfold Braintrust.replay_root.
  apply trace_bind; [apply trace_tree_get|].
  intros [i r] [Hi Hr]%tree_get_fst_inv.
  apply trace_with_span; [done..|].
  apply trace_bind; [apply trace_getitem|]. intros md _.
  apply trace_bind; [apply trace_getitem|]. intros inp _.
  apply trace_bind; [apply trace_getitem|]. intros out _.
  apply trace_bind; [by apply trace_emit|]. intros _ _.
  apply trace_bind; [apply trace_getitem|]. intros sid Hsid%getitem_fst_inv.
  apply trace_bind; [|intros _ _; constructor].
  apply trace_for_each. intros c Hc.
  apply log_child_span_opened_under.
  - intros n. rewrite <- Hkids. by apply (kids_of_tag_model _ _ _ _ _ md).
  - by rewrite <- Hkids, (kids_of_lookup _ _ _ _ _ _ _ Hi Hr Hsid).
  - exists root. split; [done|]. apply rtc_refl.
Qed.

Lemma langsmith_replay_root_opened_under (roots : list string) (fuel : nat)
    (children : gmap string (list string)) (tree : gmap string nat)
    (store : list row) (root : string) :
  root ∈ roots →
  Forall (opened_under (kids_of children tree store) roots)
         (snd (LangSmith.replay_root fuel children tree store root)).
Proof.
  intros Hroot. unfold LangSmith.replay_root.
  apply trace_bind; [apply trace_tree_get|].
  intros [i r] [Hi Hr]%tree_get_fst_inv.
  apply trace_bind; [apply trace_getitem|]. intros inp _.
  apply trace_bind; [apply trace_getitem|]. intros out _.
  apply trace_bind; [apply trace_getitem|]. intros md _.
  apply trace_bind; [by apply trace_emit|]. intros _ _.
  apply trace_bind; [by apply trace_emit|]. intros _ _.
  apply trace_bind; [apply trace_getitem|]. intros sid Hsid%getitem_fst_inv.
  apply trace_bind; [|intros _ _; by apply trace_emit].
  apply trace_for_each. intros c Hc.
  apply log_child_run_opened_under.
  - by rewrite (kids_of_lookup _ _ _ _ _ _ _ Hi Hr Hsid).
  - exists root. split; [done|]. apply rtc_refl.
Qed.

Lemma braintrust_replay_root_kids (fuel : nat)
    (children : gmap string (list string)) (tree : gmap string nat)
    (store store' : list row) (root : string) :
  fst (Braintrust.replay_root fuel children tree store root) = Ret store' →
  ∀ n, kids_of children tree store' n = kids_of children tree store n.
Proof.
  intros H n.
  destruct (Braintrust.replay_root fuel children tree store root)
    as [o t] eqn:Hrun.
  cbn in H. subst o.
  apply braintrust_replay_root_Ret_inv
    in Hrun as (i & r & md & _ & _ & _ & _ & Hr & _ & -> & _).
  by apply kids_of_tag_model.
Qed.

Lemma trace_flush_due (P : event → Prop) (batch : option Z) (idx : nat) :
  P Flush →
  Forall P (snd (if flush_due batch idx then emit Flush else mret tt : W unit)).
Proof. intros H. destruct (flush_due batch idx); by repeat constructor. Qed.

Lemma braintrust_replay_roots_opened_under (kids : string → list string)
    (roots : list string) (fuel : nat) (batch : option Z)
    (children : gmap string (list string)) (tree : gmap string nat)
    (rest : list string) :
  rest ⊆ roots →
  ∀ idx store,
    (∀ n, kids_of children tree store n = kids n) →
    Forall (opened_under kids roots)
           (snd (Braintrust.replay_roots fuel batch children tree idx rest
                   store))
    ∧ ∀ store',
        fst (Braintrust.replay_roots fuel batch children tree idx rest store)
        = Ret store' →
        ∀ n, kids_of children tree store' n = kids n.
Proof.
  induction rest as [|root rest IH]; intros Hsub idx store Hkids;
    cbn [Braintrust.replay_roots].
  - split; [constructor|]. cbn. by intros store' [= <-].
  - assert (Hroot : root ∈ roots) by (apply Hsub, elem_of_cons; by left).
    assert (Hrest : rest ⊆ roots).
    { intros x Hx. apply Hsub, elem_of_cons. by right. }
    split.
    + apply trace_bind;
        [by apply braintrust_replay_root_opened_under|].
      intros store1 H1. apply trace_bind; [by apply trace_flush_due|].
      intros _ _. apply IH; [done|]. intros n.
      by rewrite (braintrust_replay_root_kids _ _ _ _ _ _ H1).
    + intros store'. rewrite fst_bind.
      destruct (fst (Braintrust.replay_root fuel children tree store root))
        as [store1| |] eqn:H1; [|done..].
      rewrite fst_bind.
      replace (fst (if flush_due batch idx then emit Flush
                    else mret tt : W unit))
        with (Ret tt : outcome unit) by by destruct (flush_due batch idx).
      apply IH; [done|]. intros n.
      by rewrite (braintrust_replay_root_kids _ _ _ _ _ _ H1).
Qed.

Lemma langsmith_replay_roots_opened_under (roots : list string)
    (fuel : nat) (batch : option Z) (children : gmap string (list string))
    (tree : gmap string nat) (store : list row) (rest : list string) :
  rest ⊆ roots →
  ∀ idx,
    Forall (opened_under (kids_of children tree store) roots)
           (snd (LangSmith.replay_roots fuel batch children tree store idx
                   rest)).
Proof.
  induction rest as [|root rest IH]; intros Hsub idx;
    cbn [LangSmith.replay_roots]; [constructor|].
  apply trace_bind.
  - apply langsmith_replay_root_opened_under, Hsub, elem_of_cons. by left.
  - intros _ _. apply trace_bind; [by apply trace_flush_due|].
    intros _ _. apply IH. intros x Hx. apply Hsub, elem_of_cons. by right.
Qed.

Lemma braintrust_replay_opened_under (fuel : nat) (a : args)
    (tree : gmap string nat) (ix : index) :
  Forall (opened_under (kids_of (ix_children ix) tree (ix_rows ix))
                       (ix_roots ix))
         (snd (Braintrust.replay fuel a tree ix)).
Proof.
  unfold Braintrust.replay.
  apply trace_bind; [by apply trace_emit|]. intros _ _.
  apply trace_bind; [by apply trace_emit|]. intros _ _.
  apply trace_bind.
  - set (kids := kids_of (ix_children ix) tree (ix_rows ix)).
    assert (Hkids : ∀ n, kids_of (ix_children ix) tree (ix_rows ix) n = kids n)
      by done.
    clearbody kids. revert Hkids. generalize (ix_rows ix) as store.
    generalize 0 as i.
    induction (Z.to_nat (iterations a)) as [|n IH]; intros i store Hkids;
      cbn [Braintrust.replay_iterations]; [constructor|].
    destruct (braintrust_replay_roots_opened_under kids (ix_roots ix) fuel
                (batch_size a) (ix_children ix) tree (ix_roots ix)
                (reflexivity _) 0 store Hkids) as [Htrace Hstore].
    apply trace_bind; [done|]. intros store' Hret.
    apply trace_bind; [by apply trace_emit|]. intros _ _.
    apply IH. by apply Hstore.
  - intros store _. apply trace_bind; [by apply trace_emit|]. intros _ _.
    apply trace_bind; [by apply trace_emit|]. intros _ _. constructor.
Qed.

Lemma langsmith_replay_opened_under (fuel : nat) (a : args)
    (tree : gmap string nat) (ix : index) :
  Forall (opened_under (kids_of (ix_children ix) tree (ix_rows ix))
                       (ix_roots ix))
         (snd (LangSmith.replay fuel a tree ix)).
Proof.
  unfold LangSmith.replay.
  apply trace_bind; [by apply trace_emit|]. intros _ _.
  apply trace_bind; [by apply trace_emit|]. intros _ _.
  apply trace_bind; [|intros _ _; by apply trace_emit].
  generalize 0 as i.
  induction (Z.to_nat (iterations a)) as [|n IH]; intros i;
    cbn [LangSmith.replay_iterations]; [constructor|].
  apply trace_bind;
    [by apply langsmith_replay_roots_opened_under|]. intros _ _.
  apply trace_bind; [by apply trace_emit|]. intros _ _.
  apply trace_bind; [by apply trace_emit|]. intros _ _. apply IH.
Qed.

(** X8. A replay opens spans for nothing but what the index links to a
    root, whether it completes, raises or runs on: a top-level span is for
    an id in [roots]; a span under a parent is for an id registered in
    [children] under that parent's span id, and the parent is reachable
    from a root.  A record whose declared parents match no replayed
    record's span id is never sent. *)
Theorem only_linked_records_are_replayed (fuel : nat) (a : args)
    (tree : gmap string nat) (ix : index) :
  Forall (opened_under (kids_of (ix_children ix) tree (ix_rows ix))
                       (ix_roots ix))
         (snd (Braintrust.replay fuel a tree ix)
          ++ snd (LangSmith.replay fuel a tree ix))
  ∧ ∀ p n name,
      Open p n name ∈ snd (Braintrust.replay fuel a tree ix)
      ∨ Open p n name ∈ snd (LangSmith.replay fuel a tree ix) →
      ∃ root,
        root ∈ ix_roots ix
        ∧ rtc (edge (ix_children ix) tree (ix_rows ix)) root n.
Proof.
  assert (H : Forall (opened_under (kids_of (ix_children ix) tree (ix_rows ix))
                       (ix_roots ix))
         (snd (Braintrust.replay fuel a tree ix)
          ++ snd (LangSmith.replay fuel a tree ix))).
  { apply Forall_app. split;
      [apply braintrust_replay_opened_under
      |apply langsmith_replay_opened_under]. }
  split; [done|]. intros p n name Hin.
  assert (Hev : opened_under (kids_of (ix_children ix) tree (ix_rows ix))
                  (ix_roots ix) (Open p n name)).
  { eapply (proj1 (Forall_forall _ _) H), elem_of_app. exact Hin. }
  destruct p as [u|]; cbn in Hev.
  - destruct Hev as [Hn (root & Hroot & Hreach)]. exists root.
    split; [done|]. eapply rtc_r; [exact Hreach|exact Hn].
  - exists n. split; [done|]. apply rtc_refl.
Qed.

(** ** Counting top-level spans and flush requests *)

Lemma count_snd_bind {A B} (f : event → bool) (m : W A) (k : A → W B) :
  count_events f (snd (m ≫= k))
  = count_events f (snd m)
    + match fst m with
      | Ret a => count_events f (snd (k a))
      | _ => 0
      end.
Proof.
  rewrite snd_bind, count_events_app. by destruct (fst m).
Qed.

Lemma child_event_not_top (ev : event) :
  is_child_event ev = true → is_top_open ev = false.
Proof. by destruct ev as [| | | | | | | | | | |[?|]| | |]. Qed.

Lemma child_event_not_flush (ev : event) :
  is_child_event ev = true → is_flush ev = false.
Proof. by destruct ev as [| | | | | | | | | | |[?|]| | |]. Qed.

(** The events of a root step: one top-level open, the payload, and child
    events. *)
Lemma braintrust_replay_root_events (fuel : nat)
    (children : gmap string (list string)) (tree : gmap string nat)
    (store : list row) (root : string) :
  snd (Braintrust.replay_root fuel children tree store root) = []
  ∨ ∃ rest,
      snd (Braintrust.replay_root fuel children tree store root)
      = Open None root ROOT_SPAN_NAME :: rest
      ∧ Forall (λ ev, is_top_open ev = false ∧ is_flush ev = false) rest.
Proof.
  unfold Braintrust.replay_root.
  destruct (tree_get tree store root) as [[[i r]|e|] t0] eqn:Hget.
  - assert (t0 = []) as -> by (by rewrite <- (snd_tree_get tree store root),
                                 Hget).
    rewrite bind_Ret. cbn [fst snd app]. right. rewrite snd_with_span.
    eexists. split; [done|]. apply Forall_app. split.
    + apply trace_bind; [apply trace_getitem|]. intros md _.
      apply trace_bind; [apply trace_getitem|]. intros inp _.
      apply trace_bind; [apply trace_getitem|]. intros out _.
      apply trace_bind; [by apply trace_emit|]. intros _ _.
      apply trace_bind; [apply trace_getitem|]. intros sid _.
      apply trace_bind; [|intros _ _; constructor].
      apply trace_for_each. intros c _.
      eapply Forall_impl; [apply log_child_span_child_events|].
      intros ev Hev.
      split; [by apply child_event_not_top|by apply child_event_not_flush].
    + match goal with |- context [match ?o with _ => _ end] =>
        destruct o end; by repeat constructor.
  - left. rewrite bind_Raise. cbn.
    by rewrite <- (snd_tree_get tree store root), Hget.
  - left. rewrite bind_OutOfFuel. cbn.
    by rewrite <- (snd_tree_get tree store root), Hget.
Qed.

Lemma langsmith_replay_root_events (fuel : nat)
    (children : gmap string (list string)) (tree : gmap string nat)
    (store : list row) (root : string) :
  snd (LangSmith.replay_root fuel children tree store root) = []
  ∨ ∃ rest,
      snd (LangSmith.replay_root fuel children tree store root)
      = Open None root ROOT_RUN_NAME :: rest
      ∧ Forall (λ ev, is_top_open ev = false ∧ is_flush ev = false) rest.
Proof.
  unfold LangSmith.replay_root.
  set (Q := λ m : W unit,
         snd m = []
         ∨ ∃ rest, snd m = Open None root ROOT_RUN_NAME :: rest
                   ∧ Forall (λ ev, is_top_open ev = false
                                   ∧ is_flush ev = false) rest).
  change (Q (tree_get tree store root ≫= λ '(_, r),
             inp ← getitem "input" (input r);
             out ← getitem "output" (output r);
             md ← getitem "metadata" (metadata r);
             emit (Open None root ROOT_RUN_NAME);;
             emit (Attach root inp out (Some md));;
             sid ← getitem "span_id" (span_id r);
             for_each
               (λ child_id,
                  LangSmith.log_child_run fuel root child_id children tree
                    store)
               (children_get children sid);;
             emit (Close root))).
  assert (Hraise : ∀ e, Q ((Raise e, []) : W unit)) by (intros e; by left).
  silent_read; [done|]. intros [i r] _.
  silent_read; [done|]. intros inp _.
  silent_read; [done|]. intros out _.
  silent_read; [done|]. intros md _.
  right. rewrite bind_emit. cbn [fst snd]. eexists. split; [done|].
  apply trace_bind; [by apply trace_emit|]. intros _ _.
  apply trace_bind; [apply trace_getitem|]. intros sid _.
  apply trace_bind; [|intros _ _; by apply trace_emit].
  apply trace_for_each. intros c _.
  eapply Forall_impl; [apply log_child_run_child_events|].
  intros ev Hev.
  split; [by apply child_event_not_top|by apply child_event_not_flush].
Qed.

Lemma count_events_none_and (t : list event) :
  Forall (λ ev, is_top_open ev = false ∧ is_flush ev = false) t →
  count_events is_top_open t = 0 ∧ count_events is_flush t = 0.
Proof.
  intros H. split; apply count_events_none;
    (eapply Forall_impl; [exact H|]); by intros ev [? ?].
Qed.

Lemma braintrust_replay_root_counts (fuel : nat)
    (children : gmap string (list string)) (tree : gmap string nat)
    (store : list row) (root : string) :
  count_events is_flush
    (snd (Braintrust.replay_root fuel children tree store root)) = 0
  ∧ ∀ store',
      fst (Braintrust.replay_root fuel children tree store root) = Ret store' →
      count_events is_top_open
        (snd (Braintrust.replay_root fuel children tree store root)) = 1.
Proof.
  destruct (braintrust_replay_root_events fuel children tree store root)
    as [Hnil|(rest & Hev & [Htop Hflush]%count_events_none_and)].
  - rewrite Hnil. split; [done|]. intros store' Hret. exfalso.
    destruct (Braintrust.replay_root fuel children tree store root)
      as [o t] eqn:Hrun.
    cbn in Hnil, Hret. subst.
    by apply braintrust_replay_root_Ret_inv
      in Hrun as (? & ? & ? & ? & ? & ? & ? & ? & ? & ? & ? & ?).
  - rewrite Hev, !count_events_cons, Htop, Hflush. done.
Qed.

Lemma langsmith_replay_root_counts (fuel : nat)
    (children : gmap string (list string)) (tree : gmap string nat)
    (store : list row) (root : string) :
  count_events is_flush
    (snd (LangSmith.replay_root fuel children tree store root)) = 0
  ∧ (fst (LangSmith.replay_root fuel children tree store root) = Ret tt →
     count_events is_top_open
       (snd (LangSmith.replay_root fuel children tree store root)) = 1).
Proof.
  destruct (langsmith_replay_root_events fuel children tree store root)
    as [Hnil|(rest & Hev & [Htop Hflush]%count_events_none_and)].
  - rewrite Hnil. split; [done|]. intros Hret. exfalso.
    destruct (LangSmith.replay_root fuel children tree store root)
      as [o t] eqn:Hrun.
    cbn in Hnil, Hret. subst.
    by apply langsmith_replay_root_Ret_inv
      in Hrun as (? & ? & ? & ? & ? & ? & ? & ? & ? & ? & ?).
  - rewrite Hev, !count_events_cons, Htop, Hflush. done.
Qed.

Lemma braintrust_replay_roots_counts (fuel : nat) (batch : option Z)
    (children : gmap string (list string)) (tree : gmap string nat)
    (roots : list string) :
  ∀ idx store,
    (batch = None →
     count_events is_flush
       (snd (Braintrust.replay_roots fuel batch children tree idx roots
               store)) = 0)
    ∧ ∀ store',
        fst (Braintrust.replay_roots fuel batch children tree idx roots store)
        = Ret store' →
        count_events is_top_open
          (snd (Braintrust.replay_roots fuel batch children tree idx roots
                  store))
        = length roots.
Proof.
  induction roots as [|root rest IH]; intros idx store;
    cbn [Braintrust.replay_roots]; [done|].
  destruct (braintrust_replay_root_counts fuel children tree store root)
    as [Hflush Htop].
  split.
  - intros ->. rewrite count_snd_bind, Hflush.
    destruct (fst (Braintrust.replay_root fuel children tree store root))
      as [store1| |]; [|done..].
    rewrite count_snd_bind. cbn [flush_due fst snd].
    by apply (IH (S idx) store1).
  - intros store'. rewrite fst_bind, count_snd_bind.
    destruct (fst (Braintrust.replay_root fuel children tree store root))
      as [store1| |] eqn:H1; [|done..].
    rewrite (Htop store1 eq_refl), fst_bind, count_snd_bind.
    destruct (flush_due batch idx); unfold emit; cbn [fst snd mret W_ret];
      rewrite ?count_events_cons; cbn [is_top_open];
      intros H; by rewrite (proj2 (IH (S idx) store1) store' H).
Qed.

Lemma langsmith_replay_roots_counts (fuel : nat) (batch : option Z)
    (children : gmap string (list string)) (tree : gmap string nat)
    (store : list row) (roots : list string) :
  ∀ idx,
    (batch = None →
     count_events is_flush
       (snd (LangSmith.replay_roots fuel batch children tree store idx
               roots)) = 0)
    ∧ (fst (LangSmith.replay_roots fuel batch children tree store idx roots)
       = Ret tt →
       count_events is_top_open
         (snd (LangSmith.replay_roots fuel batch children tree store idx
                 roots))
       = length roots).
Proof.
  induction roots as [|root rest IH]; intros idx;
    cbn [LangSmith.replay_roots]; [done|].
  destruct (langsmith_replay_root_counts fuel children tree store root)
    as [Hflush Htop].
  split.
  - intros ->. rewrite count_snd_bind, Hflush.
    destruct (fst (LangSmith.replay_root fuel children tree store root))
      as [[]| |]; [|done..].
    rewrite count_snd_bind. cbn [flush_due fst snd].
    by apply (IH (S idx)).
  - rewrite fst_bind, count_snd_bind.
    destruct (fst (LangSmith.replay_root fuel children tree store root))
      as [[]| |] eqn:H1; [|done..].
    rewrite (Htop eq_refl), fst_bind, count_snd_bind.
    destruct (flush_due batch idx); unfold emit; cbn [fst snd mret W_ret];
      rewrite ?count_events_cons; cbn [is_top_open];
      intros H; by rewrite (proj2 (IH (S idx)) H).
Qed.

Lemma braintrust_replay_iterations_counts (fuel : nat) (a : args)
    (children : gmap string (list string)) (tree : gmap string nat)
    (roots : list string) :
  ∀ n i store,
    (batch_size a = None →
     count_events is_flush
       (snd (Braintrust.replay_iterations fuel a children tree roots n i
               store)) = 0)
    ∧ ∀ store',
        fst (Braintrust.replay_iterations fuel a children tree roots n i
               store) = Ret store' →
        count_events is_top_open
          (snd (Braintrust.replay_iterations fuel a children tree roots n i
                  store))
        = n * length roots.
Proof.
  induction n as [|n IH]; intros i store;
    cbn [Braintrust.replay_iterations]; [done|].
  destruct (braintrust_replay_roots_counts fuel (batch_size a) children tree
              roots 0 store) as [Hflush Htop].
  split.
  - intros Hb. rewrite count_snd_bind, (Hflush Hb).
    destruct (fst (Braintrust.replay_roots fuel (batch_size a) children tree
                     0 roots store)) as [store1| |]; [|done..].
    rewrite bind_emit. cbn [fst snd]. rewrite count_events_cons.
    by apply (IH (S i) store1).
  - intros store'. rewrite fst_bind, count_snd_bind.
    destruct (fst (Braintrust.replay_roots fuel (batch_size a) children tree
                     0 roots store)) as [store1| |] eqn:H1; [|done..].
    rewrite (Htop store1 eq_refl), bind_emit. cbn [fst snd].
    rewrite count_events_cons. cbn [is_top_open].
    intros H. rewrite (proj2 (IH (S i) store1) store' H). lia.
Qed.

Lemma langsmith_replay_iterations_counts (fuel : nat) (a : args)
    (children : gmap string (list string)) (tree : gmap string nat)
    (store : list row) (roots : list string) :
  ∀ n i,
    fst (LangSmith.replay_iterations fuel a children tree store roots n i)
    = Ret tt →
    (batch_size a = None →
     count_events is_flush
       (snd (LangSmith.replay_iterations fuel a children tree store roots n
               i)) = n)
    ∧ count_events is_top_open
        (snd (LangSmith.replay_iterations fuel a children tree store roots n
                i))
      = n * length roots.
Proof.
  induction n as [|n IH]; intros i;
    cbn [LangSmith.replay_iterations]; [done|].
  destruct (langsmith_replay_roots_counts fuel (batch_size a) children tree
              store roots 0) as [Hflush Htop].
  rewrite fst_bind, !count_snd_bind.
  destruct (fst (LangSmith.replay_roots fuel (batch_size a) children tree
                   store 0 roots)) as [[]| |] eqn:H1; [|done..].
  rewrite (Htop eq_refl), !bind_emit. unfold emit. cbn [fst snd].
  rewrite !count_events_cons. cbn [is_top_open is_flush count_events filter
                                   list_filter length].
  intros H. destruct (IH (S i) H) as [Hf Ht]. split.
  - intros Hb. rewrite (Hflush Hb), (Hf Hb). lia.
  - rewrite Ht. lia.
Qed.

Lemma top_ids_cons (ev : event) (t : list event) :
  top_ids (ev :: t)
  = match ev with
    | Open None n _ => [n]
    | _ => []
    end ++ top_ids t.
Proof. by destruct ev as [| | | | | | | | | | |[?|]| | |]. Qed.

Lemma top_ids_snd_bind {A B} (m : W A) (k : A → W B) :
  top_ids (snd (m ≫= k))
  = top_ids (snd m)
    ++ match fst m with
       | Ret a => top_ids (snd (k a))
       | _ => []
       end.
Proof.
  rewrite snd_bind. unfold top_ids. rewrite omap_app. by destruct (fst m).
Qed.

Lemma top_ids_none (t : list event) :
  Forall (λ ev, is_top_open ev = false ∧ is_flush ev = false) t →
  top_ids t = [].
Proof.
  induction 1 as [|ev t [Hev _] _ IH]; [done|].
  unfold top_ids in *. cbn [omap list_omap]. rewrite IH.
  by destruct ev as [| | | | | | | | | | |[?|]| | |].
Qed.

Lemma braintrust_replay_root_top_ids (fuel : nat)
    (children : gmap string (list string)) (tree : gmap string nat)
    (store store' : list row) (root : string) :
  fst (Braintrust.replay_root fuel children tree store root) = Ret store' →
  top_ids (snd (Braintrust.replay_root fuel children tree store root))
  = [root].
Proof.
  intros Hret.
  destruct (braintrust_replay_root_events fuel children tree store root)
    as [Hnil|(rest & Hev & Hrest%top_ids_none)].
  - exfalso.
    destruct (Braintrust.replay_root fuel children tree store root)
      as [o t] eqn:Hrun.
    cbn in Hnil, Hret. subst.
    by apply braintrust_replay_root_Ret_inv
      in Hrun as (? & ? & ? & ? & ? & ? & ? & ? & ? & ? & ? & ?).
  - rewrite Hev. unfold top_ids in *. cbn [omap list_omap]. by rewrite Hrest.
Qed.

Lemma langsmith_replay_root_top_ids (fuel : nat)
    (children : gmap string (list string)) (tree : gmap string nat)
    (store : list row) (root : string) :
  fst (LangSmith.replay_root fuel children tree store root) = Ret tt →
  top_ids (snd (LangSmith.replay_root fuel children tree store root))
  = [root].
Proof.
  intros Hret.
  destruct (langsmith_replay_root_events fuel children tree store root)
    as [Hnil|(rest & Hev & Hrest%top_ids_none)].
  - exfalso.
    destruct (LangSmith.replay_root fuel children tree store root)
      as [o t] eqn:Hrun.
    cbn in Hnil, Hret. subst.
    by apply langsmith_replay_root_Ret_inv
      in Hrun as (? & ? & ? & ? & ? & ? & ? & ? & ? & ? & ?).
  - rewrite Hev. unfold top_ids in *. cbn [omap list_omap]. by rewrite Hrest.
Qed.

Lemma braintrust_replay_roots_top_ids (fuel : nat) (batch : option Z)
    (children : gmap string (list string)) (tree : gmap string nat)
    (roots : list string) :
  ∀ idx store store',
    fst (Braintrust.replay_roots fuel batch children tree idx roots store)
    = Ret store' →
    top_ids (snd (Braintrust.replay_roots fuel batch children tree idx roots
                    store))
    = roots.
Proof.
  induction roots as [|root rest IH]; intros idx store store';
    cbn [Braintrust.replay_roots]; [done|].
  rewrite fst_bind, top_ids_snd_bind.
  destruct (fst (Braintrust.replay_root fuel children tree store root))
    as [store1| |] eqn:H1; [|done..].
  rewrite (braintrust_replay_root_top_ids _ _ _ _ _ _ H1).
  rewrite fst_bind, top_ids_snd_bind.
  destruct (flush_due batch idx); unfold emit; cbn [fst snd mret W_ret];
    intros H; by rewrite (IH (S idx) store1 store' H).
Qed.

Lemma langsmith_replay_roots_top_ids (fuel : nat) (batch : option Z)
    (children : gmap string (list string)) (tree : gmap string nat)
    (store : list row) (roots : list string) :
  ∀ idx,
    fst (LangSmith.replay_roots fuel batch children tree store idx roots)
    = Ret tt →
    top_ids (snd (LangSmith.replay_roots fuel batch children tree store idx
                    roots))
    = roots.
Proof.
  induction roots as [|root rest IH]; intros idx;
    cbn [LangSmith.replay_roots]; [done|].
  rewrite fst_bind, top_ids_snd_bind.
  destruct (fst (LangSmith.replay_root fuel children tree store root))
    as [[]| |] eqn:H1; [|done..].
  rewrite (langsmith_replay_root_top_ids _ _ _ _ _ H1).
  rewrite fst_bind, top_ids_snd_bind.
  destruct (flush_due batch idx); unfold emit; cbn [fst snd mret W_ret];
    intros H; by rewrite (IH (S idx) H).
Qed.

Lemma braintrust_replay_iterations_top_ids (fuel : nat) (a : args)
    (children : gmap string (list string)) (tree : gmap string nat)
    (roots : list string) :
  ∀ n i store store',
    fst (Braintrust.replay_iterations fuel a children tree roots n i store)
    = Ret store' →
    top_ids (snd (Braintrust.replay_iterations fuel a children tree roots n
                    i store))
    = concat (replicate n roots).
Proof.
  induction n as [|n IH]; intros i store store';
    cbn [Braintrust.replay_iterations]; [done|].
  rewrite fst_bind, top_ids_snd_bind.
  destruct (fst (Braintrust.replay_roots fuel (batch_size a) children tree 0
                   roots store)) as [store1| |] eqn:H1; [|done..].
  rewrite (braintrust_replay_roots_top_ids _ _ _ _ _ _ _ _ H1).
  rewrite bind_emit. cbn [fst snd replicate concat].
  intros H. by rewrite <- (IH (S i) store1 store' H).
Qed.

Lemma langsmith_replay_iterations_top_ids (fuel : nat) (a : args)
    (children : gmap string (list string)) (tree : gmap string nat)
    (store : list row) (roots : list string) :
  ∀ n i,
    fst (LangSmith.replay_iterations fuel a children tree store roots n i)
    = Ret tt →
    top_ids (snd (LangSmith.replay_iterations fuel a children tree store
                    roots n i))
    = concat (replicate n roots).
Proof.
  induction n as [|n IH]; intros i;
    cbn [LangSmith.replay_iterations]; [done|].
  rewrite fst_bind, top_ids_snd_bind.
  destruct (fst (LangSmith.replay_roots fuel (batch_size a) children tree
                   store 0 roots)) as [[]| |] eqn:H1; [|done..].
  rewrite (langsmith_replay_roots_top_ids _ _ _ _ _ _ _ H1).
  rewrite !bind_emit. cbn [fst snd replicate concat].
  intros H. by rewrite <- (IH (S i) H).
Qed.

(** X9. A replay that completes has opened the top-level spans of the roots
    in the order of [roots], once per iteration, in either script: no root
    is skipped or replayed twice in an iteration, [iterations * len(roots)]
    top-level spans are opened in all, and no child is ever opened at top
    level. *)
Theorem one_top_level_span_per_root_and_iteration (fuel : nat) (a : args)
    (tree : gmap string nat) (ix : index) :
  (∀ store' t,
     Braintrust.replay fuel a tree ix = (Ret store', t) →
     top_ids t = concat (replicate (Z.to_nat (iterations a)) (ix_roots ix))
     ∧ count_events is_top_open t
       = Z.to_nat (iterations a) * length (ix_roots ix))
  ∧ (∀ t,
       LangSmith.replay fuel a tree ix = (Ret tt, t) →
       top_ids t = concat (replicate (Z.to_nat (iterations a)) (ix_roots ix))
       ∧ count_events is_top_open t
         = Z.to_nat (iterations a) * length (ix_roots ix)).
Proof.
  split.
  - intros store' t H.
    assert (Ht : t = snd (Braintrust.replay fuel a tree ix)) by by rewrite H.
    assert (Ho : fst (Braintrust.replay fuel a tree ix) = Ret store')
      by by rewrite H.
    rewrite Ht. clear H Ht. revert Ho. unfold Braintrust.replay.
    rewrite !bind_emit. cbn [fst snd]. rewrite !count_events_cons.
    cbn [is_top_open]. rewrite fst_bind, count_snd_bind.
    rewrite !top_ids_cons. cbn [app].
    rewrite top_ids_snd_bind.
    destruct (fst (Braintrust.replay_iterations fuel a (ix_children ix) tree
                     (ix_roots ix) (Z.to_nat (iterations a)) 0 (ix_rows ix)))
      as [store1| |] eqn:H1; [|done..].
    rewrite (proj2 (braintrust_replay_iterations_counts _ _ _ _ _ _ _ _)
               store1 H1).
    rewrite (braintrust_replay_iterations_top_ids _ _ _ _ _ _ _ _ _ H1).
    rewrite !bind_emit. cbn [fst snd]. rewrite !count_events_cons. cbn.
    intros _. split; [by rewrite app_nil_r|lia].
  - intros t H.
    assert (Ht : t = snd (LangSmith.replay fuel a tree ix)) by by rewrite H.
    assert (Ho : fst (LangSmith.replay fuel a tree ix) = Ret tt)
      by by rewrite H.
    rewrite Ht. clear H Ht. revert Ho. unfold LangSmith.replay.
    rewrite !bind_emit. cbn [fst snd]. rewrite !count_events_cons.
    cbn [is_top_open]. rewrite fst_bind, count_snd_bind.
    rewrite !top_ids_cons. cbn [app].
    rewrite top_ids_snd_bind.
    destruct (fst (LangSmith.replay_iterations fuel a (ix_children ix) tree
                     (ix_rows ix) (ix_roots ix) (Z.to_nat (iterations a)) 0))
      as [[]| |] eqn:H1; [|done..].
    destruct (langsmith_replay_iterations_counts _ _ _ _ _ _ _ _ H1)
      as [_ Htop].
    rewrite Htop, (langsmith_replay_iterations_top_ids _ _ _ _ _ _ _ _ H1).
    unfold emit. cbn [fst snd]. rewrite !count_events_cons.
    cbn. intros _. split; [by rewrite app_nil_r|lia].
Qed.

(** X10. Without a batch size no flush is requested inside an iteration.
    The Braintrust script then requests a single flush, after the last
    iteration, and none at all when the replay raises; the LangSmith script
    requests one flush per completed iteration. *)
Theorem without_batch_size_no_flush_inside_iteration (fuel : nat) (a : args)
    (tree : gmap string nat) (ix : index) :
  batch_size a = None →
  (∀ o t,
     Braintrust.replay fuel a tree ix = (o, t) →
     count_events is_flush t = match o with Ret _ => 1 | _ => 0 end)
  ∧ (∀ store idx t,
       snd (Braintrust.replay_roots fuel (batch_size a) (ix_children ix) tree
              idx (ix_roots ix) store) = t
       ∨ snd (LangSmith.replay_roots fuel (batch_size a) (ix_children ix) tree
                store idx (ix_roots ix)) = t →
       count_events is_flush t = 0)
  ∧ (∀ t,
       LangSmith.replay fuel a tree ix = (Ret tt, t) →
       count_events is_flush t = Z.to_nat (iterations a)).
Proof.
  intros Hb. split; [|split].
  - intros o t H.
    assert (Ht : t = snd (Braintrust.replay fuel a tree ix)) by by rewrite H.
    assert (Ho : o = fst (Braintrust.replay fuel a tree ix)) by by rewrite H.
    rewrite Ht, Ho. clear H Ht Ho. unfold Braintrust.replay.
    rewrite !bind_emit. cbn [fst snd]. rewrite !count_events_cons.
    cbn [is_flush]. rewrite fst_bind, count_snd_bind.
    rewrite (proj1 (braintrust_replay_iterations_counts _ _ _ _ _ _ _ _) Hb).
    destruct (fst (Braintrust.replay_iterations fuel a (ix_children ix) tree
                     (ix_roots ix) (Z.to_nat (iterations a)) 0 (ix_rows ix)))
      as [store1| |]; [|done..].
    rewrite !bind_emit. by cbn.
  - intros store idx t [<-|<-].
    + by apply braintrust_replay_roots_counts.
    + by apply langsmith_replay_roots_counts.
  - intros t H.
    assert (Ht : t = snd (LangSmith.replay fuel a tree ix)) by by rewrite H.
    assert (Ho : fst (LangSmith.replay fuel a tree ix) = Ret tt)
      by by rewrite H.
    rewrite Ht. clear H Ht. revert Ho. unfold LangSmith.replay.
    rewrite !bind_emit. cbn [fst snd]. rewrite !count_events_cons.
    cbn [is_flush]. rewrite fst_bind, count_snd_bind.
    destruct (fst (LangSmith.replay_iterations fuel a (ix_children ix) tree
                     (ix_rows ix) (ix_roots ix) (Z.to_nat (iterations a)) 0))
      as [[]| |] eqn:H1; [|done..].
    destruct (langsmith_replay_iterations_counts _ _ _ _ _ _ _ _ H1)
      as [Hflush _].
    rewrite (Hflush Hb). unfold emit. cbn [fst snd].
    rewrite !count_events_cons. cbn. intros _. lia.
Qed.

Lemma without_batch_size_no_flush_inside_iteration_witness :
  count_events is_flush
    (snd (LangSmith.replay 4 (sample_args 2 None None) chain_tree
            chain_index)) = 2.
Proof.
  destruct (without_batch_size_no_flush_inside_iteration 4
              (sample_args 2 None None) chain_tree chain_index eq_refl)
    as (_ & _ & Hl).
  apply Hl. vm_compute. reflexivity.
Defined.

(** ** Flattened replay *)

Lemma length_omap_ids (rows : list row) :
  Forall (λ r, is_Some (row_id r)) rows →
  length (omap row_id rows) = length rows.
Proof.
  induction 1 as [|r rest [k Hk] _ IH]; [done|].
  cbn. rewrite Hk. cbn. by f_equal.
Qed.

Lemma kids_of_empty (tree : gmap string nat) (store : list row) (n : string) :
  kids_of ∅ tree store n = [].
Proof.
  unfold kids_of. destruct (tree !! n) as [i|]; [|done].
  destruct (store !! i) as [r|]; [|done]. by destruct (span_id r).
Qed.

Lemma flat_replay_root_returns (fuel : nat) (tree : gmap string nat)
    (store : list row) (root : string) :
  fst (Braintrust.replay_root fuel ∅ tree store root) ≠ OutOfFuel
  ∧ fst (LangSmith.replay_root fuel ∅ tree store root) ≠ OutOfFuel.
Proof.
  split.
  - unfold Braintrust.replay_root.
    apply bind_returns; [apply tree_get_returns|]. intros [i r] ? _.
    apply with_span_returns.
    apply bind_returns; [apply getitem_returns|]. intros md ? _.
    apply bind_returns; [apply getitem_returns|]. intros inp ? _.
    apply bind_returns; [apply getitem_returns|]. intros out ? _.
    apply bind_returns; [done|]. intros _ ? _.
    apply bind_returns; [apply getitem_returns|]. intros sid ? _.
    apply bind_returns; [|done]. apply for_each_returns.
    intros c Hc. by apply elem_of_nil in Hc.
  - unfold LangSmith.replay_root.
    apply bind_returns; [apply tree_get_returns|]. intros [i r] ? _.
    apply bind_returns; [apply getitem_returns|]. intros inp ? _.
    apply bind_returns; [apply getitem_returns|]. intros out ? _.
    apply bind_returns; [apply getitem_returns|]. intros md ? _.
    apply bind_returns; [done|]. intros _ ? _.
    apply bind_returns; [done|]. intros _ ? _.
    apply bind_returns; [apply getitem_returns|]. intros sid ? _.
    apply bind_returns; [|done]. apply for_each_returns.
    intros c Hc. by apply elem_of_nil in Hc.
Qed.

(** X11. With flatten on, when the indexing loop of either script returns,
    every record is a root, in input order, and nothing is registered as a
    child; the replay of a root then sends that record alone (one top-level
    span with its payload, no child span) and cannot recurse, whatever the
    records declare as parents. *)
Theorem flatten_replays_each_record_alone (rows : list row) (ix : index)
    (t : list event) :
  Braintrust.index_rows true rows = (Ret ix, t)
  ∨ LangSmith.index_rows true rows = (Ret ix, t) →
  ix_children ix = ∅
  ∧ ix_roots ix = omap row_id rows
  ∧ length (ix_roots ix) = length rows
  ∧ ∀ fuel tree store root,
      fst (Braintrust.replay_root fuel (ix_children ix) tree store root)
      ≠ OutOfFuel
      ∧ fst (LangSmith.replay_root fuel (ix_children ix) tree store root)
        ≠ OutOfFuel
      ∧ (∀ store' t',
           Braintrust.replay_root fuel (ix_children ix) tree store root
           = (Ret store', t') →
           ∃ inp out md,
             t' = [Open None root ROOT_SPAN_NAME; Attach root inp out md;
                   Close root])
      ∧ (∀ t',
           LangSmith.replay_root fuel (ix_children ix) tree store root
           = (Ret tt, t') →
           ∃ inp out md,
             t' = [Open None root ROOT_RUN_NAME; Attach root inp out md;
                   Close root]).
Proof.
  intros H.
  destruct (index_rows_inv true rows ix t H)
    as (_ & Hall & _ & Hroots & _ & Hon & _).
  rewrite filter_becomes_root_true in Hroots. rewrite (Hon eq_refl), Hroots.
  split; [done|]. split; [done|]. split.
  { apply length_omap_ids. eapply Forall_impl; [exact Hall|].
    by intros r [? _]. }
  intros fuel tree store root.
  destruct (flat_replay_root_returns fuel tree store root) as [Hb Hl].
  split; [done|]. split; [done|]. split.
  - intros store' t' Hrun.
    apply braintrust_replay_root_Ret_inv
      in Hrun as (i & r & md & inp & out & ts & _ & _ & _ & _ & Hts & ->).
    rewrite kids_of_empty in Hts. apply Forall2_nil_inv_l in Hts as ->.
    by eexists _, _, _.
  - intros t' Hrun.
    apply langsmith_replay_root_Ret_inv
      in Hrun as (i & r & md & inp & out & ts & _ & _ & _ & Hts & ->).
    rewrite kids_of_empty in Hts. apply Forall2_nil_inv_l in Hts as ->.
    by eexists _, _, _.
Qed.

Lemma flatten_replays_each_record_alone_witness :
  ix_roots (mkIndex (indexed_row true <$> chain_rows) ∅ ["A"; "B"; "C"])
  = omap row_id chain_rows.
Proof.
  by apply (flatten_replays_each_record_alone chain_rows
              (mkIndex (indexed_row true <$> chain_rows) ∅ ["A"; "B"; "C"])
              []); left.
Defined.

(** ** The model tag is written once *)

(** X12. Tagging is idempotent: replaying a root of the Braintrust script
    again, on the row objects the first replay left behind, sends the same
    events and leaves the row objects as they are.  So iterations after the
    first change no record. *)
Theorem braintrust_root_replay_is_idempotent (fuel : nat)
    (children : gmap string (list string)) (tree : gmap string nat)
    (store store' : list row) (root : string) (t : list event) :
  Braintrust.replay_root fuel children tree store root = (Ret store', t) →
  Braintrust.replay_root fuel children tree store' root = (Ret store', t).
Proof.
  intros H.
  destruct (braintrust_replay_root_Ret_inv _ _ _ _ _ _ _ H)
    as (i & r & md & inp & out & ts & Hn & Hi & Hmd & -> & _).
  rewrite <- H. unfold Braintrust.replay_root, tag_model.
  assert (Hlt : i < length store) by by eapply lookup_lt_Some.
  rewrite (succeeds_tree_get _ _ _ _ _ Hn Hi), bind_mret.
  rewrite (succeeds_tree_get _ _ _ _ _ Hn
             (list_lookup_insert_eq store i _ Hlt)), bind_mret.
  rewrite Hmd. cbn [metadata set_metadata getitem].
  rewrite !bind_mret. cbn [input output span_id span_attributes row_id
                           span_parents set_metadata].
  by rewrite insert_insert_eq, list_insert_insert_eq.
Qed.

Lemma braintrust_root_replay_is_idempotent_witness :
  Braintrust.replay_root 4 chain_children chain_tree
    (tag_model 0 (chain_row "A" "a" SpAbsent) ∅ (ix_rows chain_index)) "A"
  = Braintrust.replay_root 4 chain_children chain_tree
      (ix_rows chain_index) "A".
Proof.
  rewrite (braintrust_root_replay_is_idempotent 4 chain_children chain_tree
             (ix_rows chain_index)
             (tag_model 0 (chain_row "A" "a" SpAbsent) ∅
                (ix_rows chain_index))
             "A"
             (snd (Braintrust.replay_root 4 chain_children chain_tree
                     (ix_rows chain_index) "A"))).
  - vm_compute. reflexivity.
  - vm_compute. reflexivity.
Defined.

(** ** The scripts from start to end *)

Lemma accepted_or_non_positive (a : args) : accepted a ∨ non_positive a.
Proof.
  unfold accepted, non_positive.
  destruct (Z.le_gt_cases 1 (iterations a)) as [Hn|Hn]; [|right; left; lia].
  destruct (limit a) as [l|] eqn:Hl.
  - destruct (Z.le_gt_cases 1 l) as [Hl1|Hl1].
    + destruct (batch_size a) as [b|] eqn:Hb.
      * destruct (Z.le_gt_cases 1 b) as [Hb1|Hb1].
        -- left. split; [done|]. split; by intros ? [= <-].
        -- right. right. right. exists b. split; [done|lia].
      * left. split; [done|]. split; [by intros ? [= <-]|done].
    + right. right. left. exists l. split; [done|lia].
  - destruct (batch_size a) as [b|] eqn:Hb.
    + destruct (Z.le_gt_cases 1 b) as [Hb1|Hb1].
      * left. split; [done|]. split; [done|by intros ? [= <-]].
      * right. right. right. exists b. split; [done|lia].
    + left. by split.
Qed.

Lemma validate_args_cases (a : args) :
  (accepted a ∧ validate_args a = (Ret tt, []))
  ∨ (non_positive a
     ∧ ∃ msg, validate_args a = (Raise (SystemExit 2), [ParserError msg])).
Proof.
  destruct (accepted_or_non_positive a) as [Ha|Ha].
  - left. split; [done|]. by apply validate_accepted.
  - right. split; [done|]. by apply validate_rejected.
Qed.

Lemma check_trace_file_cases (e : env) :
  (trace_file_exists e = true
   ∧ check_trace_file e = (Ret tt, [PathExists TRACE_FILE]))
  ∨ (trace_file_exists e = false
     ∧ ∃ t, check_trace_file e = (Raise (SystemExit 1), t)
            ∧ Forall (λ ev, is_sink ev = false) t).
Proof.
  destruct (trace_file_exists e) eqn:He.
  - left. split; [done|]. by apply check_trace_file_exists.
  - right. split; [done|]. eexists. split;
      [by apply check_trace_file_missing|]. by repeat constructor.
Qed.

Lemma login_cases (e : env) :
  (login_ok e = true ∧ Braintrust.login e = (Ret tt, [Login]))
  ∨ (login_ok e = false
     ∧ Braintrust.login e
       = (Raise LoginError,
          [Login; LogError "Failed to authenticate with Braintrust";
           LogError "Ensure BRAINTRUST_API_KEY is set in your environment"])).
Proof.
  unfold Braintrust.login. destruct (login_ok e); [left|right]; done.
Qed.

Lemma read_rows_trace (json_loads : string → option row)
    (limit : option Z) (f : stream) :
  ∀ i acc,
    Forall (λ ev, ∃ n, ev = LogWarning n)
           (snd (read_rows json_loads limit i f acc)).
Proof.
  induction f as [|line rest IH|]; intros i acc; cbn [read_rows];
    [constructor| |constructor].
  destruct (limit_reached limit i); [constructor|].
  destruct (json_loads line); [apply IH|].
  rewrite bind_emit. cbn [snd]. constructor; [by eexists|apply IH].
Qed.

Lemma open_and_read_cases (json_loads : string → option row)
    (limit : option Z) (file : open_result) :
  (∃ rows warnings,
     open_and_read json_loads limit file
     = (Ret rows, OpenFile TRACE_FILE :: warnings)
     ∧ Forall (λ ev, ∃ n, ev = LogWarning n) warnings)
  ∨ (∃ ex warnings,
       open_and_read json_loads limit file
       = (Raise ex, OpenFile TRACE_FILE :: warnings)
       ∧ Forall (λ ev, ∃ n, ev = LogWarning n) warnings
       ∧ open_or_read_fails file = true
       ∧ (ex = FileNotFoundError ↔ file = OpenFileNotFound)
       ∧ (ex = OSError ↔ file ≠ OpenFileNotFound)).
Proof.
  unfold open_and_read. rewrite bind_emit.
  destruct file as [| |f]; cbn [fst snd].
  - right. exists FileNotFoundError, []. by repeat split.
  - right. exists OSError, []. by repeat split.
  - pose proof (read_rows_trace json_loads limit f 0 []) as Htrace.
    destruct (read_rows json_loads limit 0 f []) as [[rows|ex|] t] eqn:Hread;
      cbn [fst snd] in *.
    + left. by exists rows, t.
    + right. exists ex, t.
      destruct (read_rows_outcome _ _ _ _ _ _ _ Hread) as [_ Hex].
      destruct (Hex ex eq_refl) as [-> Hfails]. by repeat split.
    + by destruct (read_rows_outcome _ _ _ _ _ _ _ Hread) as [? _].
Qed.

Lemma warnings_not_sink (t : list event) :
  Forall (λ ev, ∃ n, ev = LogWarning n) t →
  Forall (λ ev, is_sink ev = false) t.
Proof. intros H. eapply Forall_impl; [exact H|]. by intros ev [n ->]. Qed.

(** Both scripts read the file in the same way: the same records or the
    same exception, and after a failure one more line in the log. *)
Lemma load_rows_cases (json_loads : string → option row) (e : env) :
  (∃ rows t,
     Braintrust.load_rows json_loads e = (Ret rows, t)
     ∧ LangSmith.load_rows json_loads e = (Ret rows, t)
     ∧ open_and_read json_loads (limit (argv e)) (trace_file e) = (Ret rows, t)
     ∧ Forall (λ ev, is_sink ev = false) t)
  ∨ (∃ ex t msg,
       Braintrust.load_rows json_loads e = (Raise ex, t ++ [LogError msg])
       ∧ LangSmith.load_rows json_loads e
         = (Raise ex, t ++ [LogError "Failed to read trace file"])
       ∧ Forall (λ ev, is_sink ev = false) t
       ∧ open_or_read_fails (trace_file e) = true
       ∧ (ex = FileNotFoundError ∧ trace_file e = OpenFileNotFound
          ∧ msg = "Trace file not found at data/big_traces.jsonl"
          ∨ ex = OSError ∧ trace_file e ≠ OpenFileNotFound
            ∧ msg = "Failed to read trace file")).
Proof.
  unfold Braintrust.load_rows, LangSmith.load_rows.
  destruct (open_and_read_cases json_loads (limit (argv e)) (trace_file e))
    as [(rows & w & Hread & Hw)|(ex & w & Hread & Hw & Hfails & Hnf & Hos)].
  - left. exists rows, (OpenFile TRACE_FILE :: w). rewrite Hread.
    split; [done|]. split; [done|]. split; [done|].
    constructor; [done|by apply warnings_not_sink].
  - right. rewrite Hread. unfold on_error.
    destruct (trace_file e) as [| |f] eqn:Hfile.
    + assert (ex = FileNotFoundError) as -> by by apply Hnf.
      exists FileNotFoundError, (OpenFile TRACE_FILE :: w),
        "Trace file not found at data/big_traces.jsonl".
      split; [done|]. split; [done|].
      split; [constructor; [done|by apply warnings_not_sink]|].
      split; [done|]. by left.
    + assert (ex = OSError) as -> by by apply Hos.
      exists OSError, (OpenFile TRACE_FILE :: w), "Failed to read trace file".
      split; [done|]. split; [done|].
      split; [constructor; [done|by apply warnings_not_sink]|].
      split; [done|]. by right.
    + assert (ex = OSError) as -> by by apply Hos.
      exists OSError, (OpenFile TRACE_FILE :: w), "Failed to read trace file".
      split; [done|]. split; [done|].
      split; [constructor; [done|by apply warnings_not_sink]|].
      split; [done|]. by right.
Qed.

Lemma build_tree_cases (rows : list row) :
  (∃ tree, build_tree rows = (Ret tree, []))
  ∨ build_tree rows = (Raise (KeyError "id"), []).
Proof.
  destruct (build_tree_from_total rows 0 ∅) as [[_ Hret]|[_ Hraise]];
    [by left|by right].
Qed.

Lemma index_rows_cases (flatten : bool) (rows : list row) :
  ((∃ ix, Braintrust.index_rows flatten rows = (Ret ix, []))
   ∨ ∃ k, Braintrust.index_rows flatten rows = (Raise (KeyError k), []))
  ∧ ((∃ ix, LangSmith.index_rows flatten rows = (Ret ix, []))
     ∨ ∃ k, LangSmith.index_rows flatten rows = (Raise (KeyError k), [])).
Proof.
  split.
  - destruct (Braintrust.index_rows flatten rows) as [o t] eqn:H.
    destruct (index_from_raises flatten rows _ o t (or_intror H))
      as (-> & Hfuel & Hex).
    destruct o as [ix|ex|]; [left; (by exists ix)| |done].
    right. destruct (Hex ex eq_refl) as [-> | ->]; by eexists.
  - destruct (LangSmith.index_rows flatten rows) as [o t] eqn:H.
    destruct (index_from_raises flatten rows _ o t (or_introl H))
      as (-> & Hfuel & Hex).
    destruct o as [ix|ex|]; [left; (by exists ix)| |done].
    right. destruct (Hex ex eq_refl) as [-> | ->]; by eexists.
Qed.

(** How a run of the Braintrust script goes, stage by stage. *)
Lemma braintrust_main_cases (json_loads : string → option row) (fuel : nat)
    (e : env) :
  (trace_file_exists e = false
   ∧ Braintrust.main json_loads fuel e = missing_file_exit)
  ∨ (trace_file_exists e = true ∧ non_positive (argv e)
     ∧ ∃ msg,
         Braintrust.main json_loads fuel e
         = (Raise (SystemExit 2),
            [LoadDotenv; PathExists TRACE_FILE; ParserError msg]))
  ∨ (trace_file_exists e = true ∧ accepted (argv e) ∧ login_ok e = false
     ∧ Braintrust.main json_loads fuel e
       = (Raise LoginError,
          [LoadDotenv; PathExists TRACE_FILE; Login;
           LogError "Failed to authenticate with Braintrust";
           LogError "Ensure BRAINTRUST_API_KEY is set in your environment"]))
  ∨ (trace_file_exists e = true ∧ accepted (argv e) ∧ login_ok e = true
     ∧ ((∃ ex t,
           Braintrust.load_rows json_loads e = (Raise ex, t)
           ∧ (ex = FileNotFoundError ∨ ex = OSError)
           ∧ open_or_read_fails (trace_file e) = true
           ∧ Forall (λ ev, is_sink ev = false) t
           ∧ Braintrust.main json_loads fuel e
             = (Raise ex, [LoadDotenv; PathExists TRACE_FILE; Login] ++ t))
        ∨ ∃ rows t,
            Braintrust.load_rows json_loads e = (Ret rows, t)
            ∧ Forall (λ ev, is_sink ev = false) t
            ∧ ((build_tree rows = (Raise (KeyError "id"), [])
                ∧ Braintrust.main json_loads fuel e
                  = (Raise (KeyError "id"),
                     [LoadDotenv; PathExists TRACE_FILE; Login] ++ t))
               ∨ ∃ tree,
                   build_tree rows = (Ret tree, [])
                   ∧ ((∃ k,
                         Braintrust.index_rows (flatten (argv e)) rows
                         = (Raise (KeyError k), [])
                         ∧ Braintrust.main json_loads fuel e
                           = (Raise (KeyError k),
                              [LoadDotenv; PathExists TRACE_FILE; Login]
                              ++ t))
                      ∨ ∃ ix,
                          Braintrust.index_rows (flatten (argv e)) rows
                          = (Ret ix, [])
                          ∧ snd (Braintrust.main json_loads fuel e)
                            = [LoadDotenv; PathExists TRACE_FILE; Login]
                              ++ t
                              ++ snd (Braintrust.replay fuel (argv e) tree ix)
                          ∧ fst (Braintrust.main json_loads fuel e)
                            = match fst (Braintrust.replay fuel (argv e) tree
                                           ix) with
                              | Ret _ => Ret tt
                              | Raise ex => Raise ex
                              | OutOfFuel => OutOfFuel
                              end)))).
Proof.
  unfold Braintrust.main. rewrite bind_emit.
  destruct (check_trace_file_cases e)
    as [[Hex Hcheck]|[Hex (t0 & Hcheck & _)]].
  2: { left. split; [done|].
       rewrite (check_trace_file_missing e Hex), bind_Raise. done. }
  right. rewrite Hcheck, bind_Ret. cbn [fst snd app].
  destruct (validate_args_cases (argv e)) as [[Hacc Hval]|[Hnp [msg Hval]]].
  2: { left. split; [done|]. split; [done|]. exists msg.
       by rewrite Hval, bind_Raise. }
  right. rewrite Hval, bind_Ret. cbn [fst snd app].
  destruct (login_cases e) as [[Hok Hlogin]|[Hok Hlogin]].
  2: { left. split; [done|]. split; [done|]. split; [done|].
       by rewrite Hlogin, bind_Raise. }
  right. split; [done|]. split; [done|]. split; [done|].
  rewrite Hlogin, bind_Ret. cbn [fst snd app].
  destruct (load_rows_cases json_loads e)
    as [(rows & t & Hload & _ & _ & Hsink)
       |(ex & t & msg & Hload & _ & Hsink & Hfails & Hex')].
  2: { left. exists ex, (t ++ [LogError msg]).
       split; [done|]. split; [by destruct Hex' as [[? _]|[? _]]; [left|right]|].
       split; [done|].
       split; [apply Forall_app; split; [done|by repeat constructor]|].
       by rewrite Hload, bind_Raise. }
  right. exists rows, t. split; [done|]. split; [done|].
  rewrite Hload, bind_Ret. cbn [fst snd app].
  destruct (build_tree_cases rows) as [[tree Htree]|Htree].
  2: { left. split; [done|]. rewrite Htree, bind_Raise. cbn.
       by rewrite app_nil_r. }
  right. exists tree. split; [done|]. rewrite Htree, bind_Ret.
  cbn [fst snd app].
  destruct (proj1 (index_rows_cases (flatten (argv e)) rows))
    as [[ix Hix]|[k Hix]].
  2: { left. exists k. split; [done|]. rewrite Hix, bind_Raise. cbn.
       by rewrite app_nil_r. }
  right. exists ix. split; [done|]. rewrite Hix, bind_Ret.
  cbn [fst snd app]. rewrite fst_bind, snd_bind.
  split.
  - do 3 f_equal. destruct (fst (Braintrust.replay fuel (argv e) tree ix));
      by rewrite ?app_nil_r.
  - by destruct (fst (Braintrust.replay fuel (argv e) tree ix)).
Qed.

(** How a run of the LangSmith script goes, stage by stage. *)
Lemma langsmith_main_cases (json_loads : string → option row) (fuel : nat)
    (e : env) :
  (trace_file_exists e = false
   ∧ LangSmith.main json_loads fuel e = missing_file_exit)
  ∨ (trace_file_exists e = true ∧ non_positive (argv e)
     ∧ ∃ msg,
         LangSmith.main json_loads fuel e
         = (Raise (SystemExit 2),
            [LoadDotenv; PathExists TRACE_FILE; ParserError msg]))
  ∨ (trace_file_exists e = true ∧ accepted (argv e)
     ∧ ((∃ ex t,
           LangSmith.load_rows json_loads e = (Raise ex, t)
           ∧ (ex = FileNotFoundError ∨ ex = OSError)
           ∧ open_or_read_fails (trace_file e) = true
           ∧ Forall (λ ev, is_sink ev = false) t
           ∧ LangSmith.main json_loads fuel e
             = (Raise ex,
                [LoadDotenv; PathExists TRACE_FILE; SetEnviron] ++ t))
        ∨ ∃ rows t,
            LangSmith.load_rows json_loads e = (Ret rows, t)
            ∧ Forall (λ ev, is_sink ev = false) t
            ∧ ((build_tree rows = (Raise (KeyError "id"), [])
                ∧ LangSmith.main json_loads fuel e
                  = (Raise (KeyError "id"),
                     [LoadDotenv; PathExists TRACE_FILE; SetEnviron] ++ t))
               ∨ ∃ tree,
                   build_tree rows = (Ret tree, [])
                   ∧ ((∃ k,
                         LangSmith.index_rows (flatten (argv e)) rows
                         = (Raise (KeyError k), [])
                         ∧ LangSmith.main json_loads fuel e
                           = (Raise (KeyError k),
                              [LoadDotenv; PathExists TRACE_FILE; SetEnviron]
                              ++ t))
                      ∨ ∃ ix,
                          LangSmith.index_rows (flatten (argv e)) rows
                          = (Ret ix, [])
                          ∧ snd (LangSmith.main json_loads fuel e)
                            = [LoadDotenv; PathExists TRACE_FILE; SetEnviron]
                              ++ t
                              ++ snd (LangSmith.replay fuel (argv e) tree ix)
                          ∧ fst (LangSmith.main json_loads fuel e)
                            = fst (LangSmith.replay fuel (argv e) tree
                                     ix))))).
Proof.
  unfold LangSmith.main. rewrite bind_emit.
  destruct (check_trace_file_cases e)
    as [[Hex Hcheck]|[Hex (t0 & Hcheck & _)]].
  2: { left. split; [done|].
       rewrite (check_trace_file_missing e Hex), bind_Raise. done. }
  right. rewrite Hcheck, bind_Ret. cbn [fst snd app].
  destruct (validate_args_cases (argv e)) as [[Hacc Hval]|[Hnp [msg Hval]]].
  2: { left. split; [done|]. split; [done|]. exists msg.
       by rewrite Hval, bind_Raise. }
  right. split; [done|]. split; [done|].
  rewrite Hval, bind_Ret, bind_emit. cbn [fst snd app].
  destruct (load_rows_cases json_loads e)
    as [(rows & t & _ & Hload & _ & Hsink)
       |(ex & t & msg & _ & Hload & Hsink & Hfails & Hex')].
  2: { left. exists ex, (t ++ [LogError "Failed to read trace file"]).
       split; [done|]. split; [by destruct Hex' as [[? _]|[? _]]; [left|right]|].
       split; [done|].
       split; [apply Forall_app; split; [done|by repeat constructor]|].
       by rewrite Hload, bind_Raise. }
  right. exists rows, t. split; [done|]. split; [done|].
  rewrite Hload, bind_Ret. cbn [fst snd app].
  destruct (build_tree_cases rows) as [[tree Htree]|Htree].
  2: { left. split; [done|]. rewrite Htree, bind_Raise. cbn.
       by rewrite app_nil_r. }
  right. exists tree. split; [done|]. rewrite Htree, bind_Ret.
  cbn [fst snd app].
  destruct (proj2 (index_rows_cases (flatten (argv e)) rows))
    as [[ix Hix]|[k Hix]].
  2: { left. exists k. split; [done|]. rewrite Hix, bind_Raise. cbn.
       by rewrite app_nil_r. }
  right. exists ix. split; [done|]. rewrite Hix, bind_Ret.
  by cbn [fst snd app].
Qed.

Lemma sink_not_in (t : list event) (ev : event) :
  Forall (λ ev, is_sink ev = false) t → is_sink ev = true → ev ∉ t.
Proof.
  intros Hall Hev Hin.
  pose proof (proj1 (Forall_forall _ _) Hall ev Hin) as Hno. cbn in Hno.
  congruence.
Qed.

Lemma sink_in_stage (pre t rest : list event) (ev : event) :
  Forall (λ ev, is_sink ev = false) pre →
  Forall (λ ev, is_sink ev = false) t →
  is_sink ev = true →
  ev ∈ pre ++ t ++ rest → ev ∈ rest.
Proof.
  intros Hpre Ht Hev [Hin|[Hin|Hin]%elem_of_app]%elem_of_app; [| |done].
  - by destruct (sink_not_in pre ev).
  - by destruct (sink_not_in t ev).
Qed.

(** X14. Nothing is sent before the whole file is read and indexed.  If a
    run of either script opens a span, attaches a payload, closes a span or
    requests a flush, then the trace file existed, the command line was
    accepted, (for Braintrust) the login succeeded, the file was read to the
    end or to the limit without a failure, and the lookup tree and the index
    were built from all its records; what was sent was sent by the replay
    of that index. *)
Theorem nothing_sent_before_index_is_built (json_loads : string → option row)
    (fuel : nat) (e : env) (ev : event) :
  is_sink ev = true →
  (ev ∈ snd (Braintrust.main json_loads fuel e) →
   trace_file_exists e = true ∧ accepted (argv e) ∧ login_ok e = true
   ∧ ∃ rows t tree ix,
       Braintrust.load_rows json_loads e = (Ret rows, t)
       ∧ build_tree rows = (Ret tree, [])
       ∧ Braintrust.index_rows (flatten (argv e)) rows = (Ret ix, [])
       ∧ ev ∈ snd (Braintrust.replay fuel (argv e) tree ix))
  ∧ (ev ∈ snd (LangSmith.main json_loads fuel e) →
     trace_file_exists e = true ∧ accepted (argv e)
     ∧ ∃ rows t tree ix,
         LangSmith.load_rows json_loads e = (Ret rows, t)
         ∧ build_tree rows = (Ret tree, [])
         ∧ LangSmith.index_rows (flatten (argv e)) rows = (Ret ix, [])
         ∧ ev ∈ snd (LangSmith.replay fuel (argv e) tree ix)).
Proof.
  intros Hev. split.
  - intros Hin.
    destruct (braintrust_main_cases json_loads fuel e)
      as [[Hno Hm]|[(Hex & Hnp & msg & Hm)|[(Hex & Hacc & Hlog & Hm)
         |(Hex & Hacc & Hlog
           & [(ex' & t' & _ & Hcause & Hfails & Hsink & Hm)
             |(rows & t' & Hload & Hsink
               & [[_ Hm]|(tree & Htree
                   & [(k & _ & Hm)|(ix & Hix & Hsnd & _)])])])]]].
    + rewrite Hm in Hin. exfalso.
      eapply (sink_not_in _ ev); [|done|exact Hin]. by repeat constructor.
    + rewrite Hm in Hin. exfalso.
      eapply (sink_not_in _ ev); [|done|exact Hin]. by repeat constructor.
    + rewrite Hm in Hin. exfalso.
      eapply (sink_not_in _ ev); [|done|exact Hin]. by repeat constructor.
    + rewrite Hm in Hin. exfalso.
      eapply (sink_not_in _ ev); [|done|exact Hin].
      apply Forall_app. split; [by repeat constructor|done].
    + rewrite Hm in Hin. exfalso.
      eapply (sink_not_in _ ev); [|done|exact Hin].
      apply Forall_app. split; [by repeat constructor|done].
    + rewrite Hm in Hin. exfalso.
      eapply (sink_not_in _ ev); [|done|exact Hin].
      apply Forall_app. split; [by repeat constructor|done].
    + split; [done|]. split; [done|]. split; [done|].
      exists rows, t', tree, ix. split; [done|]. split; [done|].
      split; [done|]. rewrite Hsnd in Hin.
      eapply sink_in_stage; [| |done|exact Hin]; [by repeat constructor|done].
  - intros Hin.
    destruct (langsmith_main_cases json_loads fuel e)
      as [[Hno Hm]|[(Hex & Hnp & msg & Hm)
         |(Hex & Hacc
           & [(ex' & t' & _ & Hcause & Hfails & Hsink & Hm)
             |(rows & t' & Hload & Hsink
               & [[_ Hm]|(tree & Htree
                   & [(k & _ & Hm)|(ix & Hix & Hsnd & _)])])])]].
    + rewrite Hm in Hin. exfalso.
      eapply (sink_not_in _ ev); [|done|exact Hin]. by repeat constructor.
    + rewrite Hm in Hin. exfalso.
      eapply (sink_not_in _ ev); [|done|exact Hin]. by repeat constructor.
    + rewrite Hm in Hin. exfalso.
      eapply (sink_not_in _ ev); [|done|exact Hin].
      apply Forall_app. split; [by repeat constructor|done].
    + rewrite Hm in Hin. exfalso.
      eapply (sink_not_in _ ev); [|done|exact Hin].
      apply Forall_app. split; [by repeat constructor|done].
    + rewrite Hm in Hin. exfalso.
      eapply (sink_not_in _ ev); [|done|exact Hin].
      apply Forall_app. split; [by repeat constructor|done].
    + split; [done|]. split; [done|].
      exists rows, t', tree, ix. split; [done|]. split; [done|].
      split; [done|]. rewrite Hsnd in Hin.
      eapply sink_in_stage; [| |done|exact Hin]; [by repeat constructor|done].
Qed.

Lemma nothing_sent_before_index_is_built_witness :
  trace_file_exists two_iterations_env = true
  ∧ accepted (argv two_iterations_env)
  ∧ ∃ rows t tree ix,
      LangSmith.load_rows sample_loads two_iterations_env = (Ret rows, t)
      ∧ build_tree rows = (Ret tree, [])
      ∧ LangSmith.index_rows (flatten (argv two_iterations_env)) rows
        = (Ret ix, [])
      ∧ Flush ∈ snd (LangSmith.replay 1 (argv two_iterations_env) tree ix).
Proof.
  apply (nothing_sent_before_index_is_built sample_loads 1 two_iterations_env
           Flush eq_refl).
  rewrite langsmith_two_iterations. cbn [snd].
  do 9 apply list_elem_of_further. apply list_elem_of_here.
Defined.

(** ** Record Store: line numbers, failures and the limit *)




Lemma open_and_read_entries_trace (json_loads : string → loads_result)
    (limit : option Z) (file : open_outcome) :
  Forall (λ ev, ev = OpenFile TRACE_FILE ∨ ∃ n, ev = LogWarning n)
         (snd (open_and_read_entries json_loads limit file)).
Proof.
  unfold open_and_read_entries. rewrite bind_emit. cbn [snd].
  constructor; [by left|]. destruct file as [e|f]; [constructor|].
  eapply Forall_impl; [apply read_entries_trace|]. by right.
Qed.

(** X16. The two scripts read the trace file alike and differ only in what
    they log on failure.  Both return the same entries after the same
    warnings, or let the same exception through, dropping whatever was
    parsed before.  A [FileNotFoundError] is reported as not found by the
    Braintrust script and as a read failure by the LangSmith script, which
    catches [OSError] only; an [OSError] is reported as a read failure by
    both; any other exception, such as the [UnicodeDecodeError] of a file
    that is not valid text or what [json.loads] raises besides
    [JSONDecodeError], passes both scripts with no error line at all. *)
Theorem scripts_read_the_file_alike (json_loads : string → loads_result)
    (limit : option Z) (file : open_outcome) :
  fst (braintrust_load_entries json_loads limit file)
  = fst (langsmith_load_entries json_loads limit file)
  ∧ (∀ rows t,
       braintrust_load_entries json_loads limit file = (Ret rows, t)
       ↔ langsmith_load_entries json_loads limit file = (Ret rows, t))
  ∧ (∀ ex t,
       braintrust_load_entries json_loads limit file = (Raise ex, t) →
       ∃ t0,
         Forall (λ ev, ev = OpenFile TRACE_FILE ∨ ∃ n, ev = LogWarning n) t0
         ∧ (ex = FileNotFoundError
            ∧ t = t0 ++ [LogError
                           "Trace file not found at data/big_traces.jsonl"]
            ∧ langsmith_load_entries json_loads limit file
              = (Raise ex, t0 ++ [LogError "Failed to read trace file"])
            ∨ ex = OSError
              ∧ t = t0 ++ [LogError "Failed to read trace file"]
              ∧ langsmith_load_entries json_loads limit file = (Raise ex, t)
            ∨ ex ≠ FileNotFoundError ∧ ex ≠ OSError
              ∧ t = t0
              ∧ langsmith_load_entries json_loads limit file
                = (Raise ex, t0))).
Proof.
  pose proof (open_and_read_entries_trace json_loads limit file) as Htrace.
  unfold braintrust_load_entries, langsmith_load_entries, on_error.
  destruct (open_and_read_entries json_loads limit file) as [[rows|ex|] t0];
    cbn [snd] in Htrace.
  - split; [done|]. split; [done|]. by intros ex t [=].
  - split; [done|]. split; [by split; intros [=]|].
    intros ex' t [= <- <-]. exists t0. split; [done|].
    destruct ex; cbn [Braintrust.read_handler LangSmith.read_handler];
      rewrite ?app_nil_r;
      first [by left | by right; left | by right; right].
  - split; [done|]. split; [done|]. by intros ex t [=].
Qed.

(** X17. The limit is tested after the next line has been asked of the
    file.  With a limit of [L] and [L] lines handled, the loop makes one
    more [next] call.  If the call returns a line, the loop stops, and
    neither that line nor what later calls would have returned matters.  If
    the call raises, the exception leaves the loop and the entries parsed
    so far are lost, although no further line was wanted.  A file of
    exactly [L] lines is read to its end. *)
Theorem limit_is_tested_after_the_fetch (json_loads : string → loads_result)
    (a : args) (L : Z) (lines : list string) :
  accepted a →
  limit a = Some L →
  Z.of_nat (length lines) = L →
  Forall (λ l, loads_raises json_loads l = false) lines →
  (∀ l rest,
     read_entries json_loads (limit a) 0 (iter_app lines (NextLine l rest)) []
     = (Ret (omap (loaded_entry json_loads) lines),
        warnings_in json_loads 0 lines))
  ∧ (∀ ex,
       read_entries json_loads (limit a) 0 (iter_app lines (NextRaises ex)) []
       = (Raise ex, warnings_in json_loads 0 lines))
  ∧ read_entries json_loads (limit a) 0 (iter_app lines StopIteration) []
    = (Ret (omap (loaded_entry json_loads) lines),
       warnings_in json_loads 0 lines).
Proof.
  intros Ha Hl HL Hall. pose proof (accepted_limit a L Ha Hl) as HL1.
  rewrite Hl.
  assert (Hlim : ∀ j, j < length lines
                      → limit_reached (Some L) (0 + j) = false).
  { intros j Hj. rewrite limit_reached_Some by done.
    apply bool_decide_eq_false. lia. }
  assert (Hend : limit_reached (Some L) (0 + length lines) = true).
  { rewrite limit_reached_Some by done. apply bool_decide_eq_true. lia. }
  split; [|split].
  - intros l rest.
    rewrite (read_entries_prefix _ _ _ _ Hall 0 [] Hlim), bind_Ret.
    cbn [read_entries]. rewrite Hend. cbn. by rewrite app_nil_r.
  - intros ex.
    rewrite (read_entries_prefix _ _ _ _ Hall 0 [] Hlim), bind_Ret.
    cbn. by rewrite app_nil_r.
  - rewrite (read_entries_prefix _ _ _ _ Hall 0 [] Hlim), bind_Ret.
    cbn. by rewrite app_nil_r.
Qed.

(** A limit of one line, and a file whose second read does not decode. *)
Lemma limit_is_tested_after_the_fetch_witness :
  read_entries sample_json_loads (Some 1%Z) 0
    (iter_app ["a"] (NextRaises UnicodeDecodeError)) []
  = (Raise UnicodeDecodeError, [])
  ∧ read_entries sample_json_loads (Some 1%Z) 0
      (iter_app ["a"] (NextLine big_integer_line (NextRaises OSError))) []
    = (Ret [IsRecord (sample_row "a" SpNull)], []).
Proof.
  destruct (limit_is_tested_after_the_fetch sample_json_loads
              (sample_args 1 (Some 1%Z) None) 1 ["a"]) as (Hline & Hex & _).
  - repeat split; simpl; intros; simplify_eq; lia.
  - reflexivity.
  - reflexivity.
  - by vm_compute; repeat constructor.
  - split; [apply Hex|apply Hline].
Defined.

(** ** Command line: zero is rejected, not ignored *)

(** X18. The validation block lets through exactly the command lines whose
    iterations, limit and batch size are at least 1.  The loops test the
    limit and the batch size for truth, so a value of 0 would mean no limit
    and no periodic flush (and no division by zero); because 0 is rejected
    at startup, on an accepted command line the tests mean what they say:
    the limit is reached at line index [i] exactly when [limit <= i], and a
    flush is due after root index [idx] exactly when the batch size divides
    [idx + 1]. *)
Theorem zero_is_rejected_not_ignored (a : args) :
  (validate_args a = (Ret tt, []) ↔ accepted a)
  ∧ (limit a = Some 0%Z ∨ batch_size a = Some 0%Z →
     ∃ msg, validate_args a = (Raise (SystemExit 2), [ParserError msg]))
  ∧ (∀ i idx,
       limit_reached (Some 0%Z) i = false ∧ flush_due (Some 0%Z) idx = false)
  ∧ (accepted a →
     (∀ i, limit_reached (limit a) i = true
           ↔ ∃ L, limit a = Some L ∧ (L ≤ Z.of_nat i)%Z)
     ∧ (∀ idx, flush_due (batch_size a) idx = true
               ↔ ∃ B, batch_size a = Some B
                      ∧ ((Z.of_nat idx + 1) mod B = 0)%Z)).
Proof.
  split; [apply validate_args_passes_iff|]. split; [|split].
  - intros H. apply validate_rejected. destruct H as [H|H].
    + right. left. exists 0%Z. split; [done|lia].
    + right. right. exists 0%Z. split; [done|lia].
  - done.
  - intros (_ & Hl & Hb). split.
    + intros i. unfold limit_reached. destruct (limit a) as [L|] eqn:HL.
      * specialize (Hl L eq_refl).
        rewrite andb_true_iff, negb_true_iff, Z.eqb_neq, Z.leb_le. split.
        -- intros [_ ?]. by exists L.
        -- intros (L' & [= <-] & ?). split; [lia|done].
      * split; [done|by intros (? & ? & _)].
    + intros idx. unfold flush_due.
      destruct (batch_size a) as [B|] eqn:HB.
      * specialize (Hb B eq_refl).
        rewrite andb_true_iff, negb_true_iff, Z.eqb_neq, Z.eqb_eq. split.
        -- intros [_ ?]. by exists B.
        -- intros (B' & [= <-] & ?). split; [lia|done].
      * split; [done|by intros (? & ? & _)].
Qed.

(** ** Data preparation: running the steps *)

Lemma run_bind {A B} (m : PrepareData.M A) (k : A → PrepareData.M B)
    (fs : PrepareData.files) :
  (m ≫= k) fs
  = match m fs with
    | (PrepareData.Ok a, fs', t) => after_log t (k a fs')
    | (PrepareData.Fail e, fs', t) => (PrepareData.Fail e, fs', t)
    | (PrepareData.Exit c, fs', t) => (PrepareData.Exit c, fs', t)
    end.
Proof.
  unfold mbind, PrepareData.M_bind, PrepareData.bind, after_log.
  destruct (m fs) as [[[a|e|c] fs'] t]; [|done..].
  by destruct (k a fs') as [[r fs''] t'].
Qed.

Lemma after_log_nil {A}
    (x : PrepareData.result A * PrepareData.files * list PrepareData.action) :
  after_log [] x = x.
Proof. by destruct x as [[r fs] t]. Qed.

Lemma after_log_pair {A} (t1 t2 : list PrepareData.action)
    (r : PrepareData.result A) (fs : PrepareData.files) :
  after_log t1 (r, fs, t2) = (r, fs, t1 ++ t2).
Proof. done. Qed.

Lemma run_act {B} (a : PrepareData.action) (k : unit → PrepareData.M B)
    (fs : PrepareData.files) :
  (PrepareData.act a ≫= k) fs = after_log [a] (k tt fs).
Proof. by rewrite run_bind. Qed.

Lemma run_write {B} (path : string) (c : list Byte.byte)
    (k : unit → PrepareData.M B) (fs : PrepareData.files) :
  (PrepareData.write path c ≫= k) fs
  = k tt (alter (λ old, old ++ c) path fs).
Proof. rewrite run_bind. cbn. apply after_log_nil. Qed.

Lemma alter_app (path : string) (c1 c2 : list Byte.byte)
    (fs : PrepareData.files) :
  alter (λ old, old ++ c2) path (alter (λ old, old ++ c1) path fs)
  = alter (λ old, old ++ (c1 ++ c2)) path fs.
Proof.
  rewrite alter_alter_eq. apply alter_ext. intros old _. cbn.
  by rewrite app_assoc.
Qed.

Lemma alter_app_nil (path : string) (fs : PrepareData.files) :
  alter (λ old, old ++ []) path fs = fs.
Proof. apply alter_id. intros old _. by rewrite app_nil_r. Qed.

(** The download loop appends what it receives to the compressed file and
    ends as the stream ends. *)
Lemma download_loop_run (body : PrepareData.chunks) :
  ∀ downloaded fs,
    PrepareData.download_loop body downloaded fs
    = (loop_end body,
       alter (λ old, old ++ received body) PrepareData.COMPRESSED_FILE fs,
       progress_log body downloaded).
Proof.
  induction body as [|c rest IH|e]; intros d fs;
    cbn [PrepareData.download_loop loop_end received progress_log].
  - by rewrite alter_app_nil.
  - destruct c as [|b c]; [by rewrite alter_app_nil|].
    rewrite run_write, run_bind.
    destruct (_ <? _)%Z; cbn [PrepareData.act mret PrepareData.M_ret
                               PrepareData.ret];
      by rewrite IH, after_log_pair, alter_app.
  - by rewrite alter_app_nil.
Qed.

Lemma extract_loop_run (data : PrepareData.chunks) :
  ∀ fs,
    PrepareData.extract_loop data fs
    = (loop_end data,
       alter (λ old, old ++ received data) PrepareData.TRACE_FILE fs, []).
Proof.
  induction data as [|c rest IH|e]; intros fs;
    cbn [PrepareData.extract_loop loop_end received].
  - by rewrite alter_app_nil.
  - destruct c as [|b c]; [by rewrite alter_app_nil|].
    by rewrite run_write, IH, alter_app.
  - by rewrite alter_app_nil.
Qed.

Lemma fst_after_log {A} (t : list PrepareData.action)
    (x : PrepareData.result A * PrepareData.files * list PrepareData.action) :
  (after_log t x).1 = x.1.
Proof. by destruct x as [[r fs] t']. Qed.

Lemma loop_end_not_exit (body : PrepareData.chunks) (c : Z) :
  loop_end body ≠ PrepareData.Exit c.
Proof. induction body as [|[|b ch] rest IH|e]; done. Qed.

Lemma fst_run_bind {A B} (m : PrepareData.M A) (k : A → PrepareData.M B)
    (fs : PrepareData.files) :
  ((m ≫= k) fs).1
  = match m fs with
    | (PrepareData.Ok a, fs', _) => (k a fs').1
    | (PrepareData.Fail e, fs', _) => (PrepareData.Fail e, fs')
    | (PrepareData.Exit c, fs', _) => (PrepareData.Exit c, fs')
    end.
Proof.
  rewrite run_bind. destruct (m fs) as [[[a|e|c] fs'] t]; [|done..].
  apply fst_after_log.
Qed.

Lemma run_assoc {A B C} (m : PrepareData.M A) (k1 : A → PrepareData.M B)
    (k2 : B → PrepareData.M C) (fs : PrepareData.files) :
  ((m ≫= k1) ≫= k2) fs = (m ≫= λ a, k1 a ≫= k2) fs.
Proof.
  rewrite !run_bind. destruct (m fs) as [[[a|e|c] fs'] t]; [|done..].
  rewrite run_bind. destruct (k1 a fs') as [[[b|e|c] fs''] t'];
    cbn [after_log fst snd]; [|done..].
  unfold after_log. cbn. by rewrite app_assoc.
Qed.

Ltac pd_step :=
  rewrite ?run_assoc; rewrite fst_run_bind;
  cbn [PrepareData.act PrepareData.ret PrepareData.fail mret
       PrepareData.M_ret PrepareData.open_wb PrepareData.getsize
       PrepareData.read_file PrepareData.remove PrepareData.makedirs
       PrepareData.content_length PrepareData.exit].

(** The [try] block, run on any files in any world. *)
Lemma download_and_extract_run (w : PrepareData.world)
    (fs : PrepareData.files) :
  (PrepareData.download_and_extract w fs).1 = try_block_end w fs.
Proof.
  unfold PrepareData.download_and_extract, try_block_end,
    PrepareData.makedirs.
  destruct (PrepareData.makedirs_ok w); pd_step; cbn [negb]; [|done].
  do 3 pd_step.
  destruct (PrepareData.fetch w) as [e|h body]; pd_step; [done|].
  destruct h as [|n|];
    cbn [PrepareData.content_length mret PrepareData.M_ret PrepareData.ret
         PrepareData.fail]; [| |done].
  all: do 2 pd_step; unfold PrepareData.open_wb at 1.
  all: destruct (PrepareData.open_ok w PrepareData.COMPRESSED_FILE);
    cbn [negb]; [|done].
  all: pd_step; rewrite download_loop_run, alter_insert_eq, app_nil_l.
  all: destruct (loop_end body) as [[]|e|c] eqn:Hend;
    [|done|by destruct (loop_end_not_exit body c)].
  all: pd_step; unfold PrepareData.getsize at 1; rewrite lookup_insert_eq.
  all: do 2 pd_step; unfold PrepareData.read_file at 1.
  all: rewrite lookup_insert_eq; pd_step; unfold PrepareData.open_wb at 1.
  all: destruct (PrepareData.open_ok w PrepareData.TRACE_FILE); cbn [negb];
    [|done].
  all: pd_step; rewrite extract_loop_run, alter_insert_eq, app_nil_l.
  all: destruct (loop_end (PrepareData.gunzip w (received body)))
    as [[]|e|c] eqn:Hend';
    [|done|by destruct (loop_end_not_exit _ c Hend')].
  all: pd_step; unfold PrepareData.getsize at 1; rewrite lookup_insert_eq.
  all: do 2 pd_step; unfold PrepareData.remove at 1.
  all: rewrite lookup_insert_ne, lookup_insert_eq by done.
  all: destruct (PrepareData.remove_ok w PrepareData.COMPRESSED_FILE); [|done].
  all: by pd_step.
Qed.

Lemma remove_partial_run (w : PrepareData.world) (path : string)
    (fs : PrepareData.files) :
  (PrepareData.remove_partial w path fs).1
  = (PrepareData.Ok tt,
     if PrepareData.remove_ok w path then delete path fs else fs).
Proof.
  unfold PrepareData.remove_partial.
  destruct (fs !! path) as [c|] eqn:Hp.
  - by destruct (PrepareData.remove_ok w path).
  - destruct (PrepareData.remove_ok w path); [|done].
    by rewrite delete_id.
Qed.

(** What the handlers leave behind: each of the two files is gone if it
    could be removed, and nothing else is touched. *)
Lemma handler_run (w : PrepareData.world) (e : PrepareData.failure)
    (fs : PrepareData.files) :
  ∃ fs',
    (PrepareData.handler w e fs).1 = (PrepareData.Exit 1, fs')
    ∧ other_files_kept fs fs'
    ∧ (∀ p, p = PrepareData.COMPRESSED_FILE ∨ p = PrepareData.TRACE_FILE →
            fs' !! p = if PrepareData.remove_ok w p then None else fs !! p).
Proof.
  exists (if PrepareData.remove_ok w PrepareData.TRACE_FILE
          then delete PrepareData.TRACE_FILE
                 (if PrepareData.remove_ok w PrepareData.COMPRESSED_FILE
                  then delete PrepareData.COMPRESSED_FILE fs else fs)
          else if PrepareData.remove_ok w PrepareData.COMPRESSED_FILE
               then delete PrepareData.COMPRESSED_FILE fs else fs).
  split; [|split].
  - assert (Hc : ∀ fs0,
      ((PrepareData.cleanup w;; PrepareData.exit 1) fs0).1
      = (PrepareData.Exit 1 : PrepareData.result unit,
         if PrepareData.remove_ok w PrepareData.TRACE_FILE
         then delete PrepareData.TRACE_FILE
                (if PrepareData.remove_ok w PrepareData.COMPRESSED_FILE
                 then delete PrepareData.COMPRESSED_FILE fs0 else fs0)
         else if PrepareData.remove_ok w PrepareData.COMPRESSED_FILE
              then delete PrepareData.COMPRESSED_FILE fs0 else fs0)).
    { intros fs0. unfold PrepareData.cleanup. rewrite run_assoc, fst_run_bind.
      pose proof (remove_partial_run w PrepareData.COMPRESSED_FILE fs0) as H1.
      destruct (PrepareData.remove_partial w PrepareData.COMPRESSED_FILE fs0)
        as [[r1 fs1] t1]. cbn in H1. injection H1 as -> ->.
      rewrite fst_run_bind.
      pose proof (remove_partial_run w PrepareData.TRACE_FILE
                    (if PrepareData.remove_ok w PrepareData.COMPRESSED_FILE
                     then delete PrepareData.COMPRESSED_FILE fs0 else fs0))
        as H2.
      destruct (PrepareData.remove_partial w PrepareData.TRACE_FILE _)
        as [[r2 fs2] t2]. cbn in H2. injection H2 as -> ->.
      cbn [PrepareData.exit fst].
      by destruct (PrepareData.remove_ok w PrepareData.TRACE_FILE). }
    destruct e; cbn [PrepareData.handler]; do 1 pd_step; [pd_step|];
      apply Hc.
  - intros p Hp1 Hp2.
    destruct (PrepareData.remove_ok w PrepareData.TRACE_FILE),
      (PrepareData.remove_ok w PrepareData.COMPRESSED_FILE);
      by rewrite ?lookup_delete_ne.
  - intros p [-> | ->].
    + destruct (PrepareData.remove_ok w PrepareData.TRACE_FILE),
        (PrepareData.remove_ok w PrepareData.COMPRESSED_FILE);
        by rewrite ?(lookup_delete_ne _ PrepareData.TRACE_FILE),
             ?lookup_delete_eq.
    + destruct (PrepareData.remove_ok w PrepareData.TRACE_FILE),
        (PrepareData.remove_ok w PrepareData.COMPRESSED_FILE);
        by rewrite ?lookup_delete_eq,
             ?(lookup_delete_ne _ PrepareData.COMPRESSED_FILE).
Qed.

Lemma try_except_run {A} (body : PrepareData.M A)
    (h : PrepareData.failure → PrepareData.M A) (fs : PrepareData.files) :
  (PrepareData.try_except body h fs).1
  = match (body fs).1 with
    | (PrepareData.Fail e, fs') => (h e fs').1
    | r => r
    end.
Proof.
  unfold PrepareData.try_except.
  destruct (body fs) as [[[a|e|c] fs'] t]; [done| |done].
  cbn. by destruct (h e fs') as [[r fs''] t'].
Qed.

Lemma other_files_kept_refl (fs : PrepareData.files) :
  other_files_kept fs fs.
Proof. by intros p _ _. Qed.

Lemma other_files_kept_trans (fs1 fs2 fs3 : PrepareData.files) :
  other_files_kept fs1 fs2 → other_files_kept fs2 fs3 →
  other_files_kept fs1 fs3.
Proof. intros H1 H2 p ? ?. by rewrite H2, H1. Qed.

Lemma try_block_end_kept (w : PrepareData.world) (fs : PrepareData.files) :
  other_files_kept fs (try_block_end w fs).2
  ∧ ∀ c, (try_block_end w fs).1 ≠ PrepareData.Exit c.
Proof.
  unfold try_block_end.
  destruct (PrepareData.makedirs_ok w); cbn [negb];
    [|split; [apply other_files_kept_refl|done]].
  destruct (PrepareData.fetch w) as [e|h body];
    [split; [apply other_files_kept_refl|done]|].
  assert (H1 : other_files_kept fs
                 (<[PrepareData.COMPRESSED_FILE := received body]> fs)).
  { intros p ? ?. by rewrite lookup_insert_ne. }
  assert (H2 : other_files_kept fs
                 (<[PrepareData.TRACE_FILE
                    := received (PrepareData.gunzip w (received body))]>
                    (<[PrepareData.COMPRESSED_FILE := received body]> fs))).
  { intros p ? ?. by rewrite !lookup_insert_ne. }
  assert (H3 : other_files_kept fs
                 (delete PrepareData.COMPRESSED_FILE
                    (<[PrepareData.TRACE_FILE
                       := received (PrepareData.gunzip w (received body))]>
                       (<[PrepareData.COMPRESSED_FILE := received body]> fs)))).
  { intros p ? ?. by rewrite lookup_delete_ne, !lookup_insert_ne. }
  destruct h as [|n|]; [| |split; [apply other_files_kept_refl|done]].
  all: destruct (PrepareData.open_ok w PrepareData.COMPRESSED_FILE);
    cbn [negb]; [|split; [apply other_files_kept_refl|done]].
  all: cbn zeta.
  all: destruct (loop_end body) as [[]|e|c] eqn:Hend;
    [|by split|by destruct (loop_end_not_exit body c)].
  all: destruct (PrepareData.open_ok w PrepareData.TRACE_FILE); cbn [negb];
    [|by split].
  all: destruct (loop_end (PrepareData.gunzip w (received body)))
    as [[]|e|c] eqn:Hend';
    [|by split|by destruct (loop_end_not_exit _ c Hend')].
  all: by destruct (PrepareData.remove_ok w PrepareData.COMPRESSED_FILE).
Qed.

Lemma download_and_extract_traces_run (w : PrepareData.world)
    (fs : PrepareData.files) :
  (PrepareData.download_and_extract_traces w fs).1
  = match fs !! PrepareData.TRACE_FILE with
    | Some _ => (PrepareData.Ok tt, fs)
    | None =>
        match try_block_end w fs with
        | (PrepareData.Fail e, fs') => (PrepareData.handler w e fs').1
        | r => r
        end
    end.
Proof.
  unfold PrepareData.download_and_extract_traces. rewrite fst_run_bind.
  cbn [PrepareData.path_exists].
  destruct (fs !! PrepareData.TRACE_FILE) as [c|] eqn:Hc.
  - rewrite bool_decide_eq_true_2 by by eexists.
    pd_step. rewrite fst_run_bind. unfold PrepareData.getsize.
    by rewrite Hc.
  - rewrite bool_decide_eq_false_2 by by intros [? ?].
    by rewrite try_except_run, download_and_extract_run.
Qed.

Lemma main_run (w : PrepareData.world) (fs : PrepareData.files) :
  (PrepareData.main w fs).1
  = (PrepareData.download_and_extract_traces w fs).1.
Proof.
  unfold PrepareData.main. pd_step. rewrite fst_run_bind.
  by destruct (PrepareData.download_and_extract_traces w fs)
    as [[[[]|e|c] fs'] t].
Qed.

(** ** Data preparation: what a run does *)

(** X19. When the trace file is already there, the script leaves every file
    as it is and does not touch the network, whatever the outside world
    would answer: it logs the file's size and returns. *)
Theorem existing_trace_file_is_left_alone (w : PrepareData.world)
    (fs : PrepareData.files) (c : list Byte.byte) :
  fs !! PrepareData.TRACE_FILE = Some c →
  PrepareData.download_and_extract_traces w fs
  = (PrepareData.Ok tt, fs,
     [PrepareData.Info PrepareData.AlreadyExists;
      PrepareData.Info (PrepareData.FileSize (length c))])
  ∧ PrepareData.main w fs
    = (PrepareData.Ok tt, fs,
       [PrepareData.Info PrepareData.Starting;
        PrepareData.Info PrepareData.AlreadyExists;
        PrepareData.Info (PrepareData.FileSize (length c));
        PrepareData.Info PrepareData.Complete]).
Proof.
  intros Hc.
  assert (H : PrepareData.download_and_extract_traces w fs
              = (PrepareData.Ok tt, fs,
                 [PrepareData.Info PrepareData.AlreadyExists;
                  PrepareData.Info (PrepareData.FileSize (length c))])).
  { unfold PrepareData.download_and_extract_traces. rewrite run_bind.
    cbn [PrepareData.path_exists].
    rewrite bool_decide_eq_true_2 by by eexists.
    rewrite after_log_nil, run_act, run_bind. unfold PrepareData.getsize.
    by rewrite Hc. }
  split; [done|].
  unfold PrepareData.main. by rewrite run_act, run_bind, H.
Qed.

Lemma existing_trace_file_is_left_alone_witness :
  PrepareData.main sample_world
    (<[PrepareData.TRACE_FILE := [Byte.x78]]> ∅)
  = (PrepareData.Ok tt, <[PrepareData.TRACE_FILE := [Byte.x78]]> ∅,
     [PrepareData.Info PrepareData.Starting;
      PrepareData.Info PrepareData.AlreadyExists;
      PrepareData.Info (PrepareData.FileSize 1);
      PrepareData.Info PrepareData.Complete]).
Proof.
  apply (existing_trace_file_is_left_alone sample_world
           (<[PrepareData.TRACE_FILE := [Byte.x78]]> ∅) [Byte.x78]).
  apply lookup_insert_eq.
Defined.

(** X20. The function never lets an exception out, although its docstring
    announces [URLError] and [OSError]: a run either returns or ends the
    process with status 1, and [__main__] ends the same way.  No file other
    than the trace file and the compressed file is ever touched.  After a
    failure, neither of the two is left behind if it could be removed. *)
Theorem preparation_exits_instead_of_raising (w : PrepareData.world)
    (fs : PrepareData.files) :
  ∃ r fs',
    (PrepareData.download_and_extract_traces w fs).1 = (r, fs')
    ∧ (PrepareData.main w fs).1 = (r, fs')
    ∧ (r = PrepareData.Ok tt ∨ r = PrepareData.Exit 1)
    ∧ other_files_kept fs fs'
    ∧ (r = PrepareData.Exit 1 →
       fs !! PrepareData.TRACE_FILE = None
       ∧ ∀ p, p = PrepareData.COMPRESSED_FILE ∨ p = PrepareData.TRACE_FILE →
              PrepareData.remove_ok w p = true → fs' !! p = None).
Proof.
  rewrite main_run, download_and_extract_traces_run.
  destruct (fs !! PrepareData.TRACE_FILE) as [c|] eqn:Hc.
  { exists (PrepareData.Ok tt), fs. split; [done|]. split; [done|].
    split; [by left|]. split; [apply other_files_kept_refl|done]. }
  destruct (try_block_end_kept w fs) as [Hkept Hexit].
  destruct (try_block_end w fs) as [[[]|e|c] fs1]; cbn [fst snd] in *.
  - exists (PrepareData.Ok tt), fs1. split; [done|]. split; [done|].
    split; [by left|]. split; [done|done].
  - destruct (handler_run w e fs1) as (fs' & Hrun & Hkept' & Hgone).
    exists (PrepareData.Exit 1), fs'. split; [done|]. split; [done|].
    split; [by right|]. split; [by eapply other_files_kept_trans|].
    intros _. split; [done|]. intros p Hp Hok.
    by rewrite (Hgone p Hp), Hok.
  - by destruct (Hexit c).
Qed.

(** X21. What a successful run leaves behind.  When the trace file was
    missing and the function returns, the download was received to its end
    and decoded to its end, the trace file holds exactly the decoded bytes
    of what was received, in order, the compressed file is gone, and the
    startup check of the two loaders now passes.  It returns exactly when
    every step succeeds. *)
Theorem prepared_file_is_the_decoded_download (w : PrepareData.world)
    (fs : PrepareData.files) :
  fs !! PrepareData.TRACE_FILE = None →
  (∀ fs',
     (PrepareData.download_and_extract_traces w fs).1
     = (PrepareData.Ok tt, fs') →
     ∃ h body,
       PrepareData.fetch w = PrepareData.Response h body
       ∧ loop_end body = PrepareData.Ok tt
       ∧ loop_end (PrepareData.gunzip w (received body)) = PrepareData.Ok tt
       ∧ fs' !! PrepareData.TRACE_FILE
         = Some (received (PrepareData.gunzip w (received body)))
       ∧ fs' !! PrepareData.COMPRESSED_FILE = None
       ∧ ∀ a l f,
           check_trace_file
             (mkEnv (bool_decide (is_Some (fs' !! TRACE_FILE))) a l f)
           = (Ret tt, [PathExists TRACE_FILE]))
  ∧ (∀ h body,
       PrepareData.makedirs_ok w = true →
       PrepareData.fetch w = PrepareData.Response h body →
       h ≠ PrepareData.Malformed →
       PrepareData.open_ok w PrepareData.COMPRESSED_FILE = true →
       loop_end body = PrepareData.Ok tt →
       PrepareData.open_ok w PrepareData.TRACE_FILE = true →
       loop_end (PrepareData.gunzip w (received body)) = PrepareData.Ok tt →
       PrepareData.remove_ok w PrepareData.COMPRESSED_FILE = true →
       (PrepareData.download_and_extract_traces w fs).1.1 = PrepareData.Ok tt).
Proof.
  intros Hnone. rewrite download_and_extract_traces_run, Hnone.
  unfold try_block_end. split.
  - intros fs'.
    assert (Hh : ∀ e fs1,
              (PrepareData.handler w e fs1).1 ≠ (PrepareData.Ok tt, fs')).
    { intros e fs1. destruct (handler_run w e fs1) as (fs2 & -> & _). done. }
    destruct (PrepareData.makedirs_ok w); cbn [negb];
      [|by intros ?%Hh].
    destruct (PrepareData.fetch w) as [e|h body]; [by intros ?%Hh|].
    intros H. exists h, body. split; [done|]. revert H.
    destruct h as [|n|]; [| |by intros ?%Hh].
    all: destruct (PrepareData.open_ok w PrepareData.COMPRESSED_FILE);
      cbn [negb]; [|by intros ?%Hh].
    all: cbn zeta.
    all: destruct (loop_end body) as [[]|e|c] eqn:Hend;
      [|by intros ?%Hh|done].
    all: destruct (PrepareData.open_ok w PrepareData.TRACE_FILE); cbn [negb];
      [|by intros ?%Hh].
    all: destruct (loop_end (PrepareData.gunzip w (received body)))
      as [[]|e|c] eqn:Hend'; [|by intros ?%Hh|done].
    all: destruct (PrepareData.remove_ok w PrepareData.COMPRESSED_FILE);
      [|by intros ?%Hh].
    all: intros [= <-]; split; [done|]; split; [done|].
    all: assert (Ht : delete PrepareData.COMPRESSED_FILE
                        (<[PrepareData.TRACE_FILE
                           := received (PrepareData.gunzip w (received body))]>
                           (<[PrepareData.COMPRESSED_FILE := received body]>
                              fs))
                      !! PrepareData.TRACE_FILE
                      = Some (received (PrepareData.gunzip w (received body))))
      by (by rewrite lookup_delete_ne, lookup_insert_eq).
    all: split; [exact Ht|]; split; [by rewrite lookup_delete_eq|].
    all: intros a l f; apply check_trace_file_exists; cbn [trace_file_exists].
    all: apply bool_decide_eq_true_2; change TRACE_FILE
           with PrepareData.TRACE_FILE; rewrite Ht; by eexists.
  - intros h body -> -> Hh -> -> -> -> ->. cbn [negb].
    by destruct h.
Qed.

Lemma prepared_file_is_the_decoded_download_witness :
  (PrepareData.download_and_extract_traces sample_world ∅).1.1
  = PrepareData.Ok tt.
Proof.
  destruct (prepared_file_is_the_decoded_download sample_world ∅)
    as [_ H]; [done|].
  by eapply H.
Defined.

(** X22. If the compressed file cannot be removed after a complete download
    and a complete extraction, the failure is handled like any other: the
    handler deletes the trace file that was just extracted, and the run
    ends with status 1, leaving the compressed file behind. *)
Theorem failed_removal_discards_the_extracted_file (w : PrepareData.world)
    (fs : PrepareData.files) (h : PrepareData.header)
    (body : PrepareData.chunks) :
  fs !! PrepareData.TRACE_FILE = None →
  PrepareData.makedirs_ok w = true →
  PrepareData.fetch w = PrepareData.Response h body →
  h ≠ PrepareData.Malformed →
  PrepareData.open_ok w PrepareData.COMPRESSED_FILE = true →
  loop_end body = PrepareData.Ok tt →
  PrepareData.open_ok w PrepareData.TRACE_FILE = true →
  loop_end (PrepareData.gunzip w (received body)) = PrepareData.Ok tt →
  PrepareData.remove_ok w PrepareData.COMPRESSED_FILE = false →
  PrepareData.remove_ok w PrepareData.TRACE_FILE = true →
  ∃ fs',
    (PrepareData.download_and_extract_traces w fs).1
    = (PrepareData.Exit 1, fs')
    ∧ fs' !! PrepareData.TRACE_FILE = None
    ∧ fs' !! PrepareData.COMPRESSED_FILE = Some (received body).
Proof.
  intros Hnone Hmk Hfetch Hh Hopen Hend Hopen' Hend' Hrm Hrm'.
  rewrite download_and_extract_traces_run, Hnone. unfold try_block_end.
  rewrite Hmk, Hfetch, Hopen, Hend, Hopen', Hend', Hrm. cbn [negb].
  destruct (handler_run w PrepareData.OtherError
              (<[PrepareData.TRACE_FILE
                 := received (PrepareData.gunzip w (received body))]>
                 (<[PrepareData.COMPRESSED_FILE := received body]> fs)))
    as (fs' & Hrun & _ & Hgone).
  exists fs'. split; [by destruct h|]. split.
  - by rewrite (Hgone _ (or_intror eq_refl)), Hrm'.
  - rewrite (Hgone _ (or_introl eq_refl)), Hrm.
    by rewrite lookup_insert_ne, lookup_insert_eq.
Qed.

Lemma failed_removal_discards_the_extracted_file_witness :
  ∃ fs',
    (PrepareData.download_and_extract_traces sticky_world ∅).1
    = (PrepareData.Exit 1, fs')
    ∧ fs' !! PrepareData.TRACE_FILE = None
    ∧ fs' !! PrepareData.COMPRESSED_FILE
      = Some [Byte.x61; Byte.x62; Byte.x63].
Proof.
  by apply (failed_removal_discards_the_extracted_file sticky_world ∅
              (PrepareData.Digits 3)
              (PrepareData.Chunk [Byte.x61; Byte.x62; Byte.x63]
                 PrepareData.End)).
Defined.

(** ** Data preparation: the progress lines *)

Lemma count_actions_app (f : PrepareData.action → bool)
    (t1 t2 : list PrepareData.action) :
  count_actions f (t1 ++ t2) = count_actions f t1 + count_actions f t2.
Proof. unfold count_actions. by rewrite filter_app, length_app. Qed.

Lemma progress_due_full_chunk (k : Z) :
  (0 ≤ k)%Z →
  ((PrepareData.CHUNK_SIZE * (k + 1)) mod (100 * 1024 * 1024)
   <? PrepareData.CHUNK_SIZE)%Z
  = bool_decide (((k + 1) mod 12800)%Z = 0%Z).
Proof.
  intros Hk. unfold PrepareData.CHUNK_SIZE.
  change (100 * 1024 * 1024)%Z with (8192 * 12800)%Z.
  rewrite Z.mul_mod_distr_l by lia.
  pose proof (Z.mod_pos_bound (k + 1) 12800 ltac:(lia)) as Hm.
  destruct (Z.ltb_spec (8192 * ((k + 1) mod 12800)) 8192) as [Hlt|Hge].
  - symmetry. apply bool_decide_eq_true_2. lia.
  - symmetry. apply bool_decide_eq_false_2. lia.
Qed.

Lemma progress_log_full_chunks (cs : list (list Byte.byte)) :
  Forall (λ c, Z.of_nat (length c) = PrepareData.CHUNK_SIZE) cs →
  ∀ k,
    (0 ≤ k)%Z →
    Z.of_nat (count_actions is_progress
                (progress_log (chunks_of cs) (PrepareData.CHUNK_SIZE * k)))
    = ((k + Z.of_nat (length cs)) / 12800 - k / 12800)%Z.
Proof.
  induction 1 as [|c cs Hc _ IH]; intros k Hk.
  - cbn. rewrite Z.add_0_r. lia.
  - destruct c as [|b c]; [by cbn in Hc|].
    cbn [chunks_of progress_log]. cbn zeta.
    replace (PrepareData.CHUNK_SIZE * k + Z.of_nat (length (b :: c)))%Z
      with (PrepareData.CHUNK_SIZE * (k + 1))%Z by (rewrite Hc; lia).
    rewrite progress_due_full_chunk, count_actions_app, Nat2Z.inj_add by done.
    rewrite (IH (k + 1)%Z) by lia.
    rewrite (div_succ 12800 k) by lia.
    cbn [length]. rewrite Nat2Z.inj_succ.
    replace (k + Z.succ (Z.of_nat (length cs)))%Z
      with (k + 1 + Z.of_nat (length cs))%Z by lia.
    destruct (decide (((k + 1) mod 12800)%Z = 0%Z)) as [Hz|Hz].
    + rewrite bool_decide_eq_true_2 by done.
      change (count_actions is_progress
                [PrepareData.Info
                   (PrepareData.Progress (PrepareData.CHUNK_SIZE * (k + 1)))])
        with 1.
      lia.
    + rewrite bool_decide_eq_false_2 by done.
      change (count_actions is_progress []) with 0. lia.
Qed.

(** X23. "Log progress every 100MB".  When every read returns a full chunk
    of 8192 bytes, a progress line is logged exactly once per 100 MiB
    received (after every 12800th chunk).  The test relies on full chunks:
    a first read that returns fewer than 8192 bytes logs a progress line at
    once, however little has been received. *)
Theorem progress_is_logged_every_100_MiB (cs : list (list Byte.byte))
    (fs : PrepareData.files) :
  Forall (λ c, Z.of_nat (length c) = PrepareData.CHUNK_SIZE) cs →
  Z.of_nat (count_actions is_progress
              (PrepareData.download_loop (chunks_of cs) 0 fs).2)
  = ((PrepareData.CHUNK_SIZE * Z.of_nat (length cs)) / (100 * 1024 * 1024))%Z
  ∧ ∀ b c rest,
      (Z.of_nat (length (b :: c)) < PrepareData.CHUNK_SIZE)%Z →
      ∃ t,
        (PrepareData.download_loop (PrepareData.Chunk (b :: c) rest) 0 fs).2
        = PrepareData.Info (PrepareData.Progress (Z.of_nat (length (b :: c))))
          :: t.
Proof.
  intros Hfull. rewrite download_loop_run. cbn [snd]. split.
  - change 0%Z with (PrepareData.CHUNK_SIZE * 0)%Z at 1.
    rewrite (progress_log_full_chunks cs Hfull 0) by lia.
    unfold PrepareData.CHUNK_SIZE.
    change (100 * 1024 * 1024)%Z with (8192 * 12800)%Z.
    rewrite Z.div_mul_cancel_l by lia. rewrite Z.add_0_l, Zdiv_0_l. lia.
  - intros b c rest Hshort. rewrite download_loop_run. cbn [snd progress_log].
    cbn zeta. rewrite Z.add_0_l.
    rewrite Z.mod_small by (unfold PrepareData.CHUNK_SIZE in Hshort; lia).
    destruct (Z.ltb_spec (Z.of_nat (length (b :: c))) PrepareData.CHUNK_SIZE);
      [by eexists|lia].
Qed.

Lemma progress_is_logged_every_100_MiB_witness :
  Z.of_nat (count_actions is_progress
              (PrepareData.download_loop
                 (chunks_of [replicate (Z.to_nat 8192) Byte.x00]) 0 ∅).2)
  = ((PrepareData.CHUNK_SIZE * Z.of_nat (length [replicate (Z.to_nat 8192) Byte.x00]))
     / (100 * 1024 * 1024))%Z.
Proof.
  apply (progress_is_logged_every_100_MiB [replicate (Z.to_nat 8192) Byte.x00] ∅).
  constructor; [|constructor]. rewrite length_replicate. reflexivity.
Defined.

(** ** Files that reach the replay *)

Lemma build_tree_from_size (rows : list row) :
  ∀ i tree0 tree t,
    build_tree_from i rows tree0 = (Ret tree, t) →
    size tree ≤ size tree0 + length rows.
Proof.
  induction rows as [|r rest IH]; intros i tree0 tree t; cbn [build_tree_from].
  - intros [= <- <-]. cbn. lia.
  - intros (k & t1 & t2 & _ & Hrest & ->)%bind_Ret_inv.
    apply IH in Hrest. rewrite map_size_insert in Hrest. cbn [length].
    destruct (tree0 !! k); cbn in Hrest; lia.
Qed.

Lemma build_tree_size (rows : list row) (tree : gmap string nat)
    (t : list event) :
  build_tree rows = (Ret tree, t) → size tree ≤ length rows.
Proof.
  intros H%build_tree_from_size. by rewrite map_size_empty in H.
Qed.

Lemma indexed_tree_ok (flatten : bool) (rows : list row)
    (tree : gmap string nat) (ix : index) (t0 t : list event) :
  build_tree rows = (Ret tree, t0) →
  Braintrust.index_rows flatten rows = (Ret ix, t)
  ∨ LangSmith.index_rows flatten rows = (Ret ix, t) →
  tree_ok tree (ix_rows ix).
Proof.
  intros Htree H.
  destruct (index_rows_inv flatten rows ix t H) as (_ & _ & Hrows & _).
  eapply tree_ok_same_ids; [|by eapply build_tree_ok].
  rewrite Hrows, <- list_fmap_compose. apply list_fmap_ext.
  intros i r _. apply row_id_indexed_row.
Qed.

Lemma span_id_indexed_row (flatten : bool) (r : row) :
  span_id (indexed_row flatten r) = span_id r.
Proof. unfold indexed_row. by destruct (becomes_root flatten r). Qed.

Lemma emittable_indexed_row (flatten : bool) (r : row) :
  emittable r → emittable (indexed_row flatten r).
Proof. unfold indexed_row. by destruct (becomes_root flatten r). Qed.

Lemma metadata_indexed_row (flatten : bool) (r : row) :
  metadata (indexed_row flatten r) = metadata r.
Proof. unfold indexed_row. by destruct (becomes_root flatten r). Qed.

(** In a parents-first file every link followed by the replay leads to a
    record later in the file. *)
Lemma parents_first_edges (flatten : bool) (rows : list row)
    (tree : gmap string nat) (ix : index) (t0 t : list event) :
  build_tree rows = (Ret tree, t0) →
  Braintrust.index_rows flatten rows = (Ret ix, t)
  ∨ LangSmith.index_rows flatten rows = (Ret ix, t) →
  parents_first rows →
  ∀ u v,
    edge (ix_children ix) tree (ix_rows ix) u v →
    rank_in tree (length rows) v < rank_in tree (length rows) u.
Proof.
  intros Htree H Hfirst u v. unfold edge, kids_of, rank_in.
  destruct (index_rows_inv flatten rows ix t H) as (_ & _ & Hrows & _).
  destruct (tree !! u) as [iu|] eqn:Hu; [|by intros ?%elem_of_nil].
  rewrite Hrows, list_lookup_fmap.
  destruct (rows !! iu) as [ru|] eqn:Hru; cbn [fmap option_fmap option_map];
    [|by intros ?%elem_of_nil].
  rewrite span_id_indexed_row.
  destruct (span_id ru) as [sid|] eqn:Hsid; [|by intros ?%elem_of_nil].
  intros Hv. apply (index_children_ids flatten rows ix t H) in Hv
    as [_ (rv & Hrv & Hidv & Hp)].
  apply list_elem_of_lookup_1 in Hrv as [jv Hjv].
  pose proof (Hfirst jv rv sid iu ru Hjv Hp Hru Hsid) as Hlt.
  assert (Hsome : is_Some (tree !! v)).
  { apply (build_tree_dom rows tree t0 v Htree). exists rv.
    split; [by eapply list_elem_of_lookup_2|done]. }
  destruct Hsome as [iv Hiv]. rewrite Hiv.
  apply (build_tree_lookup rows tree t0 v iv Htree) in Hiv
    as (rv' & Hrv' & _ & Hlast).
  assert (jv ≤ iv).
  { destruct (Nat.le_gt_cases jv iv) as [|Hgt]; [done|].
    by destruct (Hlast jv rv Hgt Hjv). }
  apply lookup_lt_Some in Hrv'. lia.
Qed.

Lemma replayable_complete (flatten : bool) (rows : list row)
    (tree : gmap string nat) (ix : index) (t0 t : list event) :
  build_tree rows = (Ret tree, t0) →
  Braintrust.index_rows flatten rows = (Ret ix, t)
  ∨ LangSmith.index_rows flatten rows = (Ret ix, t) →
  Forall complete_record rows →
  replayable (ix_children ix) tree (ix_rows ix) (ix_roots ix).
Proof.
  intros Htree H Hall.
  pose proof (indexed_tree_ok flatten rows tree ix t0 t Htree H) as Hok.
  destruct (index_rows_inv flatten rows ix t H)
    as (_ & _ & Hrows & Hroots & _).
  assert (Hrec : ∀ j r, ix_rows ix !! j = Some r
                        → emittable r ∧ is_Some (metadata r)).
  { intros j r. rewrite Hrows, list_lookup_fmap.
    destruct (rows !! j) as [r0|] eqn:Hj; [|done]. intros [= <-].
    assert (Hin : r0 ∈ rows) by by eapply list_elem_of_lookup_2.
    destruct (proj1 (Forall_forall _ _) Hall r0 Hin) as (_ & _ & ? & ?).
    split; [by apply emittable_indexed_row|by rewrite metadata_indexed_row]. }
  split; [|split].
  - intros k j Hk. destruct (Hok k j Hk) as (r & Hr & _). exists r.
    split; [done|]. by apply (Hrec j r).
  - intros sid c Hc. apply (build_tree_dom rows tree t0 c Htree).
    apply (index_children_ids flatten rows ix t H) in Hc
      as [_ (r & ? & ? & _)].
    by exists r.
  - intros root Hroot. rewrite Hroots in Hroot.
    apply index_root_ids in Hroot as (r0 & Hr0 & _ & Hid).
    assert (Hsome : is_Some (tree !! root)).
    { apply (build_tree_dom rows tree t0 root Htree). by exists r0. }
    destruct Hsome as [j Hj]. destruct (Hok root j Hj) as (r & Hr & _).
    exists j, r. split; [done|]. split; [done|]. by apply (Hrec j r).
Qed.

(** X24. A file in which parents come first cannot make the replay recurse
    forever.  If every record stands after all the records whose span id it
    names as a parent, the links the replay follows have no cycle, whatever
    ids are repeated or missing among the parents, and the emission of any
    root returns as soon as the recursion bound exceeds the number of
    records. *)
Theorem parents_first_files_are_acyclic (flatten : bool) (rows : list row)
    (tree : gmap string nat) (ix : index) (t0 t : list event) :
  build_tree rows = (Ret tree, t0) →
  Braintrust.index_rows flatten rows = (Ret ix, t)
  ∨ LangSmith.index_rows flatten rows = (Ret ix, t) →
  parents_first rows →
  acyclic (ix_children ix) tree (ix_rows ix)
  ∧ ∀ fuel root,
      length rows < fuel →
      fst (Braintrust.replay_root fuel (ix_children ix) tree (ix_rows ix)
             root) ≠ OutOfFuel
      ∧ fst (LangSmith.replay_root fuel (ix_children ix) tree (ix_rows ix)
               root) ≠ OutOfFuel.
Proof.
  intros Htree H Hfirst.
  assert (Hacyc : acyclic (ix_children ix) tree (ix_rows ix)).
  { apply (acyclic_of_rank _ _ _ (rank_in tree (length rows))).
    by eapply parents_first_edges. }
  split; [done|]. intros fuel root Hfuel.
  assert (Hsize : size (dom tree ∖ (∅ : gset string)) < fuel).
  { rewrite size_dom_minus_empty.
    pose proof (build_tree_size rows tree t0 Htree). lia. }
  split.
  - unfold Braintrust.replay_root.
    apply bind_returns; [apply tree_get_returns|].
    intros [i r] t1 (Hn & Hi & _)%tree_get_Ret_inv.
    apply with_span_returns.
    apply bind_returns; [apply getitem_returns|]. intros md _ _.
    apply bind_returns; [apply getitem_returns|]. intros inp _ _.
    apply bind_returns; [apply getitem_returns|]. intros out _ _.
    apply bind_returns; [done|]. intros _ _ _.
    apply bind_returns; [apply getitem_returns|]. intros sid _ _.
    apply bind_returns; [|done].
    apply for_each_returns. intros c _.
    eapply (log_child_span_returns _ _ (ix_rows ix) _ Hacyc);
      [|by intros ? ?%elem_of_empty|exact Hsize].
    intros m. by apply (kids_of_tag_model _ _ _ i r md m).
  - unfold LangSmith.replay_root.
    apply bind_returns; [apply tree_get_returns|]. intros [i r] _ _.
    apply bind_returns; [apply getitem_returns|]. intros inp _ _.
    apply bind_returns; [apply getitem_returns|]. intros out _ _.
    apply bind_returns; [apply getitem_returns|]. intros md _ _.
    apply bind_returns; [done|]. intros _ _ _.
    apply bind_returns; [done|]. intros _ _ _.
    apply bind_returns; [apply getitem_returns|]. intros sid _ _.
    apply bind_returns; [|done].
    apply for_each_returns. intros c _.
    eapply (log_child_run_returns _ _ _ Hacyc);
      [by intros ? ?%elem_of_empty|exact Hsize].
Qed.

Lemma parents_first_files_are_acyclic_witness :
  acyclic chain_children chain_tree (ix_rows chain_index)
  ∧ ∀ fuel root,
      length chain_rows < fuel →
      fst (Braintrust.replay_root fuel chain_children chain_tree
             (ix_rows chain_index) root) ≠ OutOfFuel
      ∧ fst (LangSmith.replay_root fuel chain_children chain_tree
               (ix_rows chain_index) root) ≠ OutOfFuel.
Proof.
  apply (parents_first_files_are_acyclic false chain_rows chain_tree
           chain_index [] []); [reflexivity|by left|].
  intros j r p j' r' Hj Hp Hj' Hsid.
  destruct j as [|[|[|j]]]; cbn in Hj; simplify_eq; cbn in Hp.
  - by apply elem_of_nil in Hp.
  - apply list_elem_of_singleton in Hp as ->.
    destruct j' as [|[|[|j']]]; cbn in Hj'; simplify_eq; cbn in Hsid;
      simplify_eq; lia.
  - apply list_elem_of_singleton in Hp as ->.
    destruct j' as [|[|[|j']]]; cbn in Hj'; simplify_eq; cbn in Hsid;
      simplify_eq; lia.
Defined.

Lemma well_formed_lines_load (json_loads : string → loads_result)
    (lines : list string) :
  Forall (well_formed_line json_loads) lines →
  Forall (λ l, loads_raises json_loads l = false) lines
  ∧ omap (loaded_entry json_loads) lines
    = IsRecord <$> omap (as_record json_loads) lines
  ∧ Forall complete_record (omap (as_record json_loads) lines).
Proof.
  induction 1 as [|l rest Hl _ (IH1 & IH2 & IH3)].
  { split; [constructor|]. split; [reflexivity|constructor]. }
  cbn [omap list_omap].
  assert (Hcase : (loads_raises json_loads l = false
                   ∧ loaded_entry json_loads l = None
                   ∧ as_record json_loads l = None)
                  ∨ ∃ r, loads_raises json_loads l = false
                         ∧ loaded_entry json_loads l = Some (IsRecord r)
                         ∧ as_record json_loads l = Some r
                         ∧ complete_record r).
  { unfold loads_raises, loaded_entry, as_record.
    destruct Hl as [Hl|(r & Hl & Hr)]; rewrite Hl; [by left|right].
    by exists r. }
  destruct Hcase as [(H1 & H2 & H3)|(r & H1 & H2 & H3 & Hr)];
    rewrite H2, H3.
  - split; [by constructor|]. by split.
  - split; [by constructor|]. cbn [fmap list_fmap].
    split; [by rewrite IH2|by constructor].
Qed.

(** X25. A well-formed file reaches the replay with every lookup in place.
    When the command line is accepted, the file is read to its end, every
    line within the limit is either rejected by [json.loads] as malformed
    or holds a record with all the keys the scripts read, and parents come
    first, then reading, the lookup tree and the indexing loop all return,
    with the same results in both scripts; and in what they return every
    id the replay looks up addresses a record with the keys it reads, and
    the links it follows have no cycle.  Whether the replay then runs to
    its end is up to the backend. *)
Theorem well_formed_file_reaches_the_replay
    (json_loads : string → loads_result) (a : args) (lines : list string) :
  accepted a →
  Forall (well_formed_line json_loads) (within_limit (limit a) lines) →
  parents_first (omap (as_record json_loads) (within_limit (limit a) lines)) →
  ∃ rows tree ix t,
    rows = omap (as_record json_loads) (within_limit (limit a) lines)
    ∧ braintrust_load_entries json_loads (limit a)
        (OpenReturns (iter_of lines))
      = (Ret (IsRecord <$> rows), t)
    ∧ langsmith_load_entries json_loads (limit a)
        (OpenReturns (iter_of lines))
      = (Ret (IsRecord <$> rows), t)
    ∧ build_tree_entries (IsRecord <$> rows) = (Ret tree, [])
    ∧ Braintrust.index_rows (flatten a) rows = (Ret ix, [])
    ∧ LangSmith.index_rows (flatten a) rows = (Ret ix, [])
    ∧ replayable (ix_children ix) tree (ix_rows ix) (ix_roots ix)
    ∧ acyclic (ix_children ix) tree (ix_rows ix)
    ∧ size tree ≤ length rows.
Proof.
  intros Hacc Hlines Hfirst.
  destruct (well_formed_lines_load json_loads _ Hlines)
    as (Hnoraise & Hentries & Hall).
  set (rows := omap (as_record json_loads) (within_limit (limit a) lines))
    in *.
  assert (Hread : open_and_read_entries json_loads (limit a)
                    (OpenReturns (iter_of lines))
                  = (Ret (IsRecord <$> rows),
                     OpenFile TRACE_FILE
                     :: warnings_in json_loads 0
                          (within_limit (limit a) lines))).
  { unfold open_and_read_entries. rewrite bind_emit.
    by rewrite (read_entries_accepted json_loads a lines Hacc Hnoraise),
      Hentries. }
  assert (Hids : Forall (λ r, is_Some (row_id r)) rows).
  { eapply Forall_impl; [exact Hall|]. by intros r (? & _). }
  assert (Htree : ∃ tree, build_tree rows = (Ret tree, [])).
  { by destruct (build_tree_from_total rows 0 ∅) as [[_ ?]|[? _]]. }
  destruct Htree as [tree Htree].
  assert (Hix : ∃ ix, LangSmith.index_rows (flatten a) rows = (Ret ix, [])
                      ∧ Braintrust.index_rows (flatten a) rows
                        = (Ret ix, [])).
  { destruct (langsmith_index_from_succeeds (flatten a) rows)
      with (ix := mkIndex [] ∅ []) as (ix & t & Hix).
    { eapply Forall_impl; [exact Hall|]. intros r (? & ? & _). by split. }
    destruct (index_rows_inv _ _ _ _ (or_intror Hix)) as [-> _].
    exists ix. split; [done|]. unfold Braintrust.index_rows.
    rewrite index_from_agree; [done|].
    eapply Forall_impl; [exact Hall|]. by intros r (_ & ? & _). }
  destruct Hix as (ix & Hixl & Hixb).
  exists rows, tree, ix,
    (OpenFile TRACE_FILE
     :: warnings_in json_loads 0 (within_limit (limit a) lines)).
  split; [done|].
  unfold braintrust_load_entries, langsmith_load_entries. rewrite Hread.
  split; [done|]. split; [done|].
  split.
  { unfold build_tree_entries. by rewrite build_tree_is_build_tree_entries. }
  split; [done|]. split; [done|].
  split; [eapply replayable_complete; [exact Htree|by right|done]|].
  split; [|by eapply build_tree_size].
  apply (acyclic_of_rank _ _ _ (rank_in tree (length rows))).
  eapply parents_first_edges; [exact Htree|by right|done].
Qed.

(** A file of two records around a malformed line. *)
Lemma well_formed_file_reaches_the_replay_witness :
  ∃ rows tree ix t,
    rows = omap (as_record sample_json_loads)
                (within_limit None ["a"; ""; "b"])
    ∧ braintrust_load_entries sample_json_loads None
        (OpenReturns (iter_of ["a"; ""; "b"]))
      = (Ret (IsRecord <$> rows), t)
    ∧ langsmith_load_entries sample_json_loads None
        (OpenReturns (iter_of ["a"; ""; "b"]))
      = (Ret (IsRecord <$> rows), t)
    ∧ build_tree_entries (IsRecord <$> rows) = (Ret tree, [])
    ∧ Braintrust.index_rows false rows = (Ret ix, [])
    ∧ LangSmith.index_rows false rows = (Ret ix, [])
    ∧ replayable (ix_children ix) tree (ix_rows ix) (ix_roots ix)
    ∧ acyclic (ix_children ix) tree (ix_rows ix)
    ∧ size tree ≤ length rows.
Proof.
  apply (well_formed_file_reaches_the_replay sample_json_loads
           (sample_args 1 None None) ["a"; ""; "b"]).
  - repeat split; simpl; intros; simplify_eq; lia.
  - assert (Hrow : ∀ k, complete_record (sample_row k SpNull)).
    { intros k. unfold complete_record, has_parents_key, emittable. cbn.
      split; [by eexists|]. split; [done|]. split; [|by eexists].
      split; [by eexists|]. split; [|split; by eexists].
      eexists. split; [done|]. by eexists. }
    cbn [within_limit limit sample_args].
    constructor; [right; eexists; split; [by vm_compute|apply Hrow]|].
    constructor; [by left; vm_compute|].
    constructor; [right; eexists; split; [by vm_compute|apply Hrow]|].
    constructor.
  - change (parents_first [sample_row "a" SpNull; sample_row "b" SpNull]).
    intros j r p j' r' Hj Hp _ _.
    destruct j as [|[|j]]; cbn in Hj; simplify_eq;
      by apply elem_of_nil in Hp.
Defined.

(** ** What is sent is what was recorded *)

(** The predicate tells the levels apart: it rejects a payload with metadata
    below a parent, a top-level payload without metadata, and a payload that
    does not follow the opening of its span. *)
Lemma sent_as_recorded_tells_levels_apart :
  ¬ sent_as_recorded false chain_tree chain_rows
      [Open (Some "A") "B" "B"; Attach "B" VNull VNull (Some ∅)]
  ∧ ¬ sent_as_recorded false chain_tree chain_rows
        [Open None "A" ROOT_RUN_NAME; Attach "A" VNull VNull None]
  ∧ ¬ sent_as_recorded false chain_tree chain_rows
        [Attach "A" VNull VNull (Some ∅)].
Proof.
  split; [|split].
  - intros (_ & (i & r & q & name & [= <- _] & _ & _ & _ & _ & Hmd) & _).
    discriminate.
  - intros (_ & (i & r & q & name & [= <- _] & _ & _ & _ & _ & Hmd) & _).
    by destruct Hmd as (m & _ & ?).
  - by intros ((i & r & q & name & ? & _) & _).
Qed.

Lemma sent_weaken (tag : bool) (tree : gmap string nat) (store : list row)
    (prev : option event) (t : list event) :
  sent_as_recorded tag tree store t → sent_from tag tree store prev t.
Proof.
  unfold sent_as_recorded. destruct t as [|ev rest]; [done|].
  cbn [sent_from]. intros [Hev Hrest]. split; [|done].
  destruct ev as [| | | | | | | | | | |[q|] n name|n inp out md| |]; try done.
  by destruct Hev as (? & ? & ? & ? & ? & _).
Qed.

Lemma sent_app (tag : bool) (tree : gmap string nat) (store : list row)
    (t1 t2 : list event) :
  ∀ prev,
    sent_from tag tree store prev t1 → sent_as_recorded tag tree store t2 →
    sent_from tag tree store prev (t1 ++ t2).
Proof.
  induction t1 as [|ev rest IH]; intros prev; cbn [app sent_from].
  - intros _. apply sent_weaken.
  - intros [Hev Hrest] H2. split; [done|]. by apply IH.
Qed.

Lemma sent_bind {A B} (tag : bool) (tree : gmap string nat)
    (store : list row) (m : W A) (k : A → W B) :
  sent_as_recorded tag tree store (snd m) →
  (∀ a, fst m = Ret a → sent_as_recorded tag tree store (snd (k a))) →
  sent_as_recorded tag tree store (snd (m ≫= k)).
Proof.
  intros Hm Hk. rewrite snd_bind. apply sent_app; [done|].
  destruct (fst m) as [a|e|]; [by apply Hk|done..].
Qed.

Lemma sent_for_each {A} (tag : bool) (tree : gmap string nat)
    (store : list row) (body : A → W unit) (xs : list A) :
  (∀ x, sent_as_recorded tag tree store (snd (body x))) →
  sent_as_recorded tag tree store (snd (for_each body xs)).
Proof.
  intros H. induction xs as [|x rest IH]; cbn [for_each]; [done|].
  apply sent_bind; [apply H|]. intros _ _. apply IH.
Qed.

(** A read that logs nothing leaves the event before the next one as it
    was. *)
Lemma sent_read {A B} (tag : bool) (tree : gmap string nat)
    (store : list row) (prev : option event) (m : W A) (k : A → W B) :
  snd m = [] →
  (∀ a, fst m = Ret a → sent_from tag tree store prev (snd (k a))) →
  sent_from tag tree store prev (snd (m ≫= k)).
Proof.
  intros Hm Hk. rewrite snd_bind, Hm. cbn [app].
  destruct (fst m) as [a|e|]; [by apply Hk|done..].
Qed.

Lemma sent_emit {B} (tag : bool) (tree : gmap string nat)
    (store : list row) (prev : option event) (ev : event)
    (k : unit → W B) :
  sent_for tag tree store prev ev →
  sent_from tag tree store (Some ev) (snd (k tt)) →
  sent_from tag tree store prev (snd (emit ev ≫= k)).
Proof. intros Hev Hk. rewrite bind_emit. by split. Qed.

Lemma sent_with_span {A} (tag : bool) (tree : gmap string nat)
    (store : list row) (p : option string) (n name : string) (body : W A) :
  sent_for tag tree store None (Open p n name) →
  sent_from tag tree store (Some (Open p n name)) (snd body) →
  sent_as_recorded tag tree store (snd (Braintrust.with_span p n name body)).
Proof.
  intros Ho Hb. rewrite snd_with_span. split; [done|].
  apply sent_app; [done|]. by destruct (fst body).
Qed.

Lemma log_child_span_as_recorded (tag : bool)
    (children : gmap string (list string)) (tree : gmap string nat)
    (store0 store : list row) :
  payload_kept tag store0 store →
  ∀ fuel p n,
    sent_as_recorded tag tree store0
      (snd (Braintrust.log_child_span fuel p n children tree store)).
Proof.
  intros Hkept. induction fuel as [|fuel IH]; intros p n;
    cbn [Braintrust.log_child_span]; [done|].
  apply sent_read; [apply snd_tree_get|].
  intros [i r] [Hi Hr]%tree_get_fst_inv.
  destruct (Hkept i r Hr) as (r0 & Hr0 & Hsid & Hattrs & Hinp & Hout & _).
  apply sent_read; [apply snd_getitem|]. intros attrs Ha%getitem_fst_inv.
  apply sent_read; [apply snd_getitem|]. intros name Hn%getitem_fst_inv.
  apply sent_with_span.
  { exists i, r0, attrs. by rewrite <- Hattrs. }
  apply sent_read; [apply snd_getitem|]. intros inp Hi'%getitem_fst_inv.
  apply sent_read; [apply snd_getitem|]. intros out Ho%getitem_fst_inv.
  apply sent_emit.
  { exists i, r0, (Some p), name. by rewrite <- Hinp, <- Hout. }
  apply sent_weaken.
  apply sent_bind; [by rewrite snd_getitem|]. intros sid _.
  apply sent_for_each. intros c. apply IH.
Qed.

Lemma log_child_run_as_recorded (tag : bool)
    (children : gmap string (list string)) (tree : gmap string nat)
    (store0 store : list row) :
  payload_kept tag store0 store →
  ∀ fuel p n,
    sent_as_recorded tag tree store0
      (snd (LangSmith.log_child_run fuel p n children tree store)).
Proof.
  intros Hkept. induction fuel as [|fuel IH]; intros p n;
    cbn [LangSmith.log_child_run]; [done|].
  apply sent_read; [apply snd_tree_get|].
  intros [i r] [Hi Hr]%tree_get_fst_inv.
  destruct (Hkept i r Hr) as (r0 & Hr0 & Hsid & Hattrs & Hinp & Hout & _).
  apply sent_read; [apply snd_getitem|]. intros attrs Ha%getitem_fst_inv.
  apply sent_read; [apply snd_getitem|]. intros name Hn%getitem_fst_inv.
  apply sent_read; [apply snd_getitem|]. intros inp Hi'%getitem_fst_inv.
  apply sent_read; [apply snd_getitem|]. intros out Ho%getitem_fst_inv.
  apply sent_emit.
  { exists i, r0, attrs. by rewrite <- Hattrs. }
  apply sent_emit.
  { exists i, r0, (Some p), name. by rewrite <- Hinp, <- Hout. }
  apply sent_weaken.
  apply sent_bind; [by rewrite snd_getitem|]. intros sid _.
  apply sent_bind; [|by intros _ _].
  apply sent_for_each. intros c. apply IH.
Qed.

Lemma payload_kept_tag_model (store0 store : list row) (i : nat) (r : row)
    (md : gmap string value) :
  payload_kept true store0 store →
  store !! i = Some r → metadata r = Some md →
  payload_kept true store0 (tag_model i r md store).
Proof.
  intros Hkept Hr Hmd j r'. unfold tag_model.
  destruct (decide (j = i)) as [->|Hne].
  - rewrite list_lookup_insert_eq by by eapply lookup_lt_Some.
    intros [= <-].
    destruct (Hkept i r Hr) as (r0 & Hr0 & Hsid & Hattrs & Hinp & Hout & Hm).
    exists r0. split; [done|]. repeat (split; [done|]).
    right. split; [done|]. cbn [metadata set_metadata].
    destruct Hm as [Hm|(_ & m0 & Hm0 & Hm)].
    + exists md. split; [by rewrite <- Hm|done].
    + exists m0. split; [done|]. rewrite Hmd in Hm. injection Hm as ->.
      by rewrite insert_insert_eq.
  - rewrite list_lookup_insert_ne by done. apply Hkept.
Qed.

Lemma braintrust_replay_root_as_recorded (fuel : nat)
    (children : gmap string (list string)) (tree : gmap string nat)
    (store0 store : list row) (root : string) :
  payload_kept true store0 store →
  sent_as_recorded true tree store0
    (snd (Braintrust.replay_root fuel children tree store root))
  ∧ ∀ store',
      fst (Braintrust.replay_root fuel children tree store root) = Ret store' →
      payload_kept true store0 store'.
Proof.
  intros Hkept. split.
  - unfold Braintrust.replay_root.
    apply sent_read; [apply snd_tree_get|].
    intros [i r] [Hi Hr]%tree_get_fst_inv.
    destruct (Hkept i r Hr) as (r0 & Hr0 & Hsid & Hattrs & Hinp & Hout & Hm).
    apply sent_with_span; [done|].
    apply sent_read; [apply snd_getitem|]. intros md Hmd%getitem_fst_inv.
    apply sent_read; [apply snd_getitem|]. intros inp Hi'%getitem_fst_inv.
    apply sent_read; [apply snd_getitem|]. intros out Ho%getitem_fst_inv.
    cbn [input output set_metadata] in Hi', Ho.
    apply sent_emit.
    { exists i, r0, None, ROOT_SPAN_NAME. rewrite <- Hinp, <- Hout.
      repeat (split; [done|]).
      destruct Hm as [Hm|(_ & m0 & Hm0 & Hm)].
      - exists md. split; [by rewrite <- Hm|done].
      - exists m0. split; [done|]. rewrite Hmd in Hm. injection Hm as ->.
        by rewrite insert_insert_eq. }
    apply sent_weaken.
    apply sent_bind; [by rewrite snd_getitem|]. intros sid _.
    apply sent_bind; [|by intros _ _].
    apply sent_for_each. intros c. apply log_child_span_as_recorded.
    by apply (payload_kept_tag_model store0 store i r md).
  - intros store' Hret.
    destruct (Braintrust.replay_root fuel children tree store root)
      as [o t] eqn:Hrun.
    cbn in Hret. subst o.
    apply braintrust_replay_root_Ret_inv
      in Hrun as (i & r & md & _ & _ & _ & _ & Hr & Hmd & -> & _).
    by apply payload_kept_tag_model.
Qed.

Lemma langsmith_replay_root_as_recorded (fuel : nat)
    (children : gmap string (list string)) (tree : gmap string nat)
    (store0 store : list row) (root : string) :
  payload_kept false store0 store →
  sent_as_recorded false tree store0
    (snd (LangSmith.replay_root fuel children tree store root)).
Proof.
  intros Hkept. unfold LangSmith.replay_root.
  apply sent_read; [apply snd_tree_get|].
  intros [i r] [Hi Hr]%tree_get_fst_inv.
  destruct (Hkept i r Hr) as (r0 & Hr0 & Hsid & Hattrs & Hinp & Hout & Hm).
  apply sent_read; [apply snd_getitem|]. intros inp Hi'%getitem_fst_inv.
  apply sent_read; [apply snd_getitem|]. intros out Ho%getitem_fst_inv.
  apply sent_read; [apply snd_getitem|]. intros md Hmd%getitem_fst_inv.
  apply sent_emit; [done|].
  apply sent_emit.
  { exists i, r0, None, ROOT_RUN_NAME. rewrite <- Hinp, <- Hout.
    repeat (split; [done|]). exists md. split; [|done].
    destruct Hm as [Hm|[? _]]; [by rewrite <- Hm|done]. }
  apply sent_weaken.
  apply sent_bind; [by rewrite snd_getitem|]. intros sid _.
  apply sent_bind; [|by intros _ _].
  apply sent_for_each. intros c. by apply log_child_run_as_recorded.
Qed.

Lemma sent_flush_due (tag : bool) (tree : gmap string nat)
    (store : list row) (batch : option Z) (idx : nat) :
  sent_as_recorded tag tree store
    (snd (if flush_due batch idx then emit Flush else mret tt : W unit)).
Proof. by destruct (flush_due batch idx). Qed.

Lemma braintrust_replay_roots_as_recorded (fuel : nat) (batch : option Z)
    (children : gmap string (list string)) (tree : gmap string nat)
    (store0 : list row) (roots : list string) :
  ∀ idx store,
    payload_kept true store0 store →
    sent_as_recorded true tree store0
      (snd (Braintrust.replay_roots fuel batch children tree idx roots store))
    ∧ ∀ store',
        fst (Braintrust.replay_roots fuel batch children tree idx roots store)
        = Ret store' →
        payload_kept true store0 store'.
Proof.
  induction roots as [|root rest IH]; intros idx store Hkept;
    cbn [Braintrust.replay_roots].
  - split; [done|]. cbn. by intros store' [= <-].
  - destruct (braintrust_replay_root_as_recorded fuel children tree store0
                store root Hkept) as [Htrace Hstore].
    split.
    + apply sent_bind; [done|]. intros store1 H1.
      apply sent_bind; [apply sent_flush_due|]. intros _ _.
      by apply IH, Hstore.
    + intros store'. rewrite fst_bind.
      destruct (fst (Braintrust.replay_root fuel children tree store root))
        as [store1| |] eqn:H1; [|done..].
      rewrite fst_bind.
      replace (fst (if flush_due batch idx then emit Flush
                    else mret tt : W unit))
        with (Ret tt : outcome unit) by by destruct (flush_due batch idx).
      by apply IH, Hstore.
Qed.

Lemma langsmith_replay_roots_as_recorded (fuel : nat) (batch : option Z)
    (children : gmap string (list string)) (tree : gmap string nat)
    (store0 store : list row) (roots : list string) :
  payload_kept false store0 store →
  ∀ idx,
    sent_as_recorded false tree store0
      (snd (LangSmith.replay_roots fuel batch children tree store idx roots)).
Proof.
  intros Hkept. induction roots as [|root rest IH]; intros idx;
    cbn [LangSmith.replay_roots]; [done|].
  apply sent_bind; [by apply langsmith_replay_root_as_recorded|].
  intros _ _. apply sent_bind; [apply sent_flush_due|].
  intros _ _. apply IH.
Qed.

Lemma payload_kept_indexed (tag flatten : bool) (rows : list row) :
  payload_kept tag rows (indexed_row flatten <$> rows).
Proof.
  intros j r. rewrite list_lookup_fmap.
  destruct (rows !! j) as [r0|]; [|done]. intros [= <-]. exists r0.
  split; [done|]. unfold indexed_row, same_payload.
  destruct (becomes_root flatten r0); cbn; repeat (split; [done|]); by left.
Qed.

(** X26. What is sent is what was recorded.  When the indexing loop of
    either script has returned, every event of the replay, whether the
    replay completes or not, carries the data of the parsed record that
    [tree] holds for its id.  A span opened below a parent is named by the
    record's [span_attributes] name, a top-level span carries the fixed
    pipeline name.  Every payload follows the opening of its record's span
    at once and is the record's input and output; below a parent it carries
    no metadata, and at top level it carries the record's metadata, as it
    is in LangSmith and with the model tag added in Braintrust. *)
Theorem replay_sends_what_was_recorded (flatten : bool) (rows : list row)
    (ix : index) (t : list event) (fuel : nat) (a : args)
    (tree : gmap string nat) :
  Braintrust.index_rows flatten rows = (Ret ix, t)
  ∨ LangSmith.index_rows flatten rows = (Ret ix, t) →
  sent_as_recorded true tree rows (snd (Braintrust.replay fuel a tree ix))
  ∧ sent_as_recorded false tree rows (snd (LangSmith.replay fuel a tree ix)).
Proof.
  intros H.
  destruct (index_rows_inv flatten rows ix t H) as (_ & _ & Hrows & _).
  split.
  - unfold Braintrust.replay.
    apply sent_bind; [done|]. intros _ _.
    apply sent_bind; [done|]. intros _ _.
    apply sent_bind.
    + assert (Hkept : payload_kept true rows (ix_rows ix))
        by (rewrite Hrows; apply payload_kept_indexed).
      revert Hkept. generalize (ix_rows ix) as store. generalize 0 as i.
      induction (Z.to_nat (iterations a)) as [|n IH]; intros i store Hkept;
        cbn [Braintrust.replay_iterations]; [done|].
      destruct (braintrust_replay_roots_as_recorded fuel (batch_size a)
                  (ix_children ix) tree rows (ix_roots ix) 0 store Hkept)
        as [Htrace Hstore].
      apply sent_bind; [done|]. intros store' Hret.
      apply sent_bind; [done|]. intros _ _.
      by apply IH, Hstore.
    + intros store _. apply sent_bind; [done|]. intros _ _.
      by apply sent_bind.
  - unfold LangSmith.replay.
    assert (Hkept : payload_kept false rows (ix_rows ix))
      by (rewrite Hrows; apply payload_kept_indexed).
    apply sent_bind; [done|]. intros _ _.
    apply sent_bind; [done|]. intros _ _.
    apply sent_bind; [|by intros _ _].
    generalize 0 as i.
    induction (Z.to_nat (iterations a)) as [|n IH]; intros i;
      cbn [LangSmith.replay_iterations]; [done|].
    apply sent_bind; [by apply langsmith_replay_roots_as_recorded|].
    intros _ _. apply sent_bind; [done|]. intros _ _.
    apply sent_bind; [done|]. intros _ _. apply IH.
Qed.

(** The chain A -> B -> C: the payload of A carries its metadata, those of
    B and C carry none. *)
Lemma replay_sends_what_was_recorded_witness :
  sent_as_recorded true chain_tree chain_rows
    (snd (Braintrust.replay 4 (sample_args 1 None None) chain_tree
            chain_index))
  ∧ sent_as_recorded false chain_tree chain_rows
      (snd (LangSmith.replay 4 (sample_args 1 None None) chain_tree
              chain_index))
  ∧ filter (λ ev, is_sink ev = true)
      (snd (LangSmith.replay 4 (sample_args 1 None None) chain_tree
              chain_index))
    = [Open None "A" ROOT_RUN_NAME; Attach "A" VNull VNull (Some ∅);
       Open (Some "A") "B" "B"; Attach "B" VNull VNull None;
       Open (Some "B") "C" "C"; Attach "C" VNull VNull None;
       Close "C"; Close "B"; Close "A"; Flush].
Proof.
  destruct (replay_sends_what_was_recorded false chain_rows chain_index []
              4 (sample_args 1 None None) chain_tree) as [Hb Hl];
    [by left|].
  split; [exact Hb|]. split; [exact Hl|]. by vm_compute.
Defined.
